(** * Numerical kernels of the example notebooks

    The notebooks of this repository are glue code over plotting libraries;
    the only algorithms of their own are four small numerical kernels:
    the Euler stepper ([euler/]), the attractor trajectory generator
    ([attractors/]), the genetic-algorithm generation ([genetic_algorithm/])
    and the boids flocking step ([boids/]).  This file embeds them, and the
    two places that the statement about exceptions turns on, and states their
    properties.

    Numbers are NumPy/Python [float64] values and are modelled as Rocq's
    primitive binary64 floats, so that [nan], the infinities, signed zeros
    and rounding behave as they do in the notebooks. *)

From Stdlib Require Import ZArith Bool Lia.
From Stdlib Require Import Floats.
From Stdlib Require Uint63 DecimalString DecimalZ.
From stdpp Require Import base list strings gmap.

(** ** Python exceptions and results *)

Module Py.

(** The exceptions the modelled code can meet. *)
Inductive exn : Type :=
| ValueError
| IndexError
| TypeError
| NameError
| SyntaxError
| FileNotFoundError
| ParserError.

(** The outcome of a call: a value, or a raised exception. *)
Inductive result (A : Type) : Type :=
| Ok (a : A)
| Raise (e : exn).
Arguments Ok {A} a.
Arguments Raise {A} e.

Definition bind {A B} (r : result A) (k : A -> result B) : result B :=
  match r with
  | Ok a => k a
  | Raise e => Raise e
  end.

End Py.

(** ** float64 arithmetic

    Addition, subtraction, multiplication, division, square root and the
    comparisons are the IEEE 754 operations of the primitive floats. The
    remainder behind Python's and NumPy's [%] is written out here from the
    exact [fmod]. *)

Module F64.
Local Open Scope float_scope.

(** NumPy's cast of a boolean mask entry to float64. *)
Definition of_bool (b : bool) : float := if b then 1 else 0.

(** An integer count as a float64 (exact below 2^53). *)
Definition of_nat (n : nat) : float :=
  of_uint63 (Uint63.of_Z (Z.of_nat n)).

(** C's [fmod]: the exact remainder of the truncated division, with the sign
    of [a]; [nan] for an infinite [a] or a zero [b]. *)
Definition fmod (a b : float) : float :=
  match Prim2SF a, Prim2SF b with
  | S754_nan, _ | _, S754_nan => nan
  | S754_infinity _, _ => nan
  | _, S754_zero _ => nan
  | S754_zero _, _ => a
  | S754_finite _ _ _, S754_infinity _ => a
  | S754_finite sa ma ea, S754_finite _ mb eb =>
      let e := Z.min ea eb in
      let r := ((Zpos ma * 2 ^ (ea - e)) mod (Zpos mb * 2 ^ (eb - e)))%Z in
      match r with
      | Zpos p => SF2Prim (S754_finite sa p e)
      | _ => if sa then neg_zero else zero
      end
  end.

(** NumPy's [remainder] on float64 ([npy_divmod]): the result of [fmod],
    moved by [b] when its sign differs from that of [b]. *)
Definition np_remainder (a b : float) : float :=
  let r := fmod a b in
  if b =? 0 then r
  else if r =? 0 then (if get_sign b then neg_zero else zero)
  else if xorb (b <? 0) (r <? 0) then r + b
  else r.

(** *** The order of the comparisons

    [SFcompare] orders the non-[nan] values lexicographically by sign class,
    exponent and mantissa; [sf_key] makes that explicit. *)
Definition sf_key (x : spec_float) : Z * Z * Z :=
  match x with
  | S754_nan => (0, 0, 0)%Z
  | S754_zero _ => (0, 0, 0)%Z
  | S754_infinity true => (-2, 0, 0)%Z
  | S754_infinity false => (2, 0, 0)%Z
  | S754_finite true m e => (-1, - e, Zneg m)%Z
  | S754_finite false m e => (1, e, Zpos m)%Z
  end.

Definition key_lt (k1 k2 : Z * Z * Z) : Prop :=
  let '(a1, b1, c1) := k1 in
  let '(a2, b2, c2) := k2 in
  (a1 < a2 \/ (a1 = a2 /\ (b1 < b2 \/ (b1 = b2 /\ c1 < c2))))%Z.

Definition key_le (k1 k2 : Z * Z * Z) : Prop :=
  let '(a1, b1, c1) := k1 in
  let '(a2, b2, c2) := k2 in
  (a1 < a2 \/ (a1 = a2 /\ (b1 < b2 \/ (b1 = b2 /\ c1 <= c2))))%Z.

Ltac sf_cases :=
  repeat match goal with
  | s : bool |- _ => destruct s
  end; simpl;
  repeat match goal with
  | |- context [(?a ?= ?b)%Z] => destruct (Z.compare_spec a b)
  | |- context [Pos.compare_cont Eq ?a ?b] =>
      change (Pos.compare_cont Eq a b) with (Pos.compare a b);
      destruct (Pos.compare_spec a b)
  end; simpl.

Lemma SFltb_key x y :
  SFltb x y = true <->
  x <> S754_nan /\ y <> S754_nan /\ key_lt (sf_key x) (sf_key y).
Proof.
  unfold SFltb, key_lt.
  destruct x as [sx|sx| |sx mx ex], y as [sy|sy| |sy my ey]; simpl; sf_cases;
    (split; [intros HH; try discriminate HH; repeat split; try discriminate; lia
            | intros (Hx & Hy & HH); try congruence; try reflexivity; try lia]).
Qed.

Lemma SFleb_key x y :
  SFleb x y = true <->
  x <> S754_nan /\ y <> S754_nan /\ key_le (sf_key x) (sf_key y).
Proof.
  unfold SFleb, key_le.
  destruct x as [sx|sx| |sx mx ex], y as [sy|sy| |sy my ey]; simpl; sf_cases;
    (split; [intros HH; try discriminate HH; repeat split; try discriminate; lia
            | intros (Hx & Hy & HH); try congruence; try reflexivity; try lia]).
Qed.

Lemma is_nan_Prim2SF x : is_nan x = false <-> Prim2SF x <> S754_nan.
Proof.
  unfold is_nan. rewrite FloatAxioms.eqb_spec. unfold SFeqb.
  destruct (Prim2SF x) as [s|s| |s m e]; simpl.
  - split; [discriminate | reflexivity].
  - destruct s; (split; [discriminate | reflexivity]).
  - split; [discriminate | congruence].
  - destruct s; rewrite Z.compare_refl;
      change (Pos.compare_cont Eq m m) with (Pos.compare m m);
      rewrite Pos.compare_refl; simpl; (split; [discriminate | reflexivity]).
Qed.

Lemma ltb_key a b :
  (a <? b) = true <->
  is_nan a = false /\ is_nan b = false /\
  key_lt (sf_key (Prim2SF a)) (sf_key (Prim2SF b)).
Proof. rewrite FloatAxioms.ltb_spec, SFltb_key, !is_nan_Prim2SF. reflexivity. Qed.

Lemma leb_key a b :
  (a <=? b) = true <->
  is_nan a = false /\ is_nan b = false /\
  key_le (sf_key (Prim2SF a)) (sf_key (Prim2SF b)).
Proof. rewrite FloatAxioms.leb_spec, SFleb_key, !is_nan_Prim2SF. reflexivity. Qed.

Lemma key_total k1 k2 : key_lt k1 k2 \/ key_le k2 k1.
Proof.
  destruct k1 as [[a1 b1] c1], k2 as [[a2 b2] c2]. unfold key_lt, key_le. lia.
Qed.

Lemma key_lt_le_trans k1 k2 k3 : key_lt k1 k2 -> key_le k2 k3 -> key_le k1 k3.
Proof.
  destruct k1 as [[a1 b1] c1], k2 as [[a2 b2] c2], k3 as [[a3 b3] c3].
  unfold key_lt, key_le. lia.
Qed.

Lemma key_le_trans k1 k2 k3 : key_le k1 k2 -> key_le k2 k3 -> key_le k1 k3.
Proof.
  destruct k1 as [[a1 b1] c1], k2 as [[a2 b2] c2], k3 as [[a3 b3] c3].
  unfold key_le. lia.
Qed.

Lemma key_le_refl k : key_le k k.
Proof. destruct k as [[a b] c]. unfold key_le. lia. Qed.

(** Without [nan], a comparison that fails holds the other way round. *)
Lemma ltb_false_leb a b :
  is_nan a = false -> is_nan b = false -> (a <? b) = false -> (b <=? a) = true.
Proof.
  intros Ha Hb Hlt. apply leb_key. repeat split; try assumption.
  destruct (key_total (sf_key (Prim2SF a)) (sf_key (Prim2SF b))) as [H|H].
  - exfalso. assert ((a <? b) = true) by (apply ltb_key; auto). congruence.
  - exact H.
Qed.

Lemma ltb_leb_trans a b c :
  (a <? b) = true -> (b <=? c) = true -> (a <=? c) = true.
Proof.
  rewrite ltb_key, !leb_key. intros (Ha & _ & H1) (_ & Hc & H2).
  repeat split; try assumption. eapply key_lt_le_trans; eassumption.
Qed.

Lemma leb_trans a b c :
  (a <=? b) = true -> (b <=? c) = true -> (a <=? c) = true.
Proof.
  rewrite !leb_key. intros (Ha & _ & H1) (_ & Hc & H2).
  repeat split; try assumption. eapply key_le_trans; eassumption.
Qed.

Lemma leb_refl a : is_nan a = false -> (a <=? a) = true.
Proof. intros Ha. apply leb_key. auto using key_le_refl. Qed.

Lemma key_lt_trans k1 k2 k3 : key_lt k1 k2 -> key_lt k2 k3 -> key_lt k1 k3.
Proof.
  destruct k1 as [[a1 b1] c1], k2 as [[a2 b2] c2], k3 as [[a3 b3] c3].
  unfold key_lt. lia.
Qed.

Lemma key_lt_irrefl k : ~ key_lt k k.
Proof. destruct k as [[a b] c]. unfold key_lt. lia. Qed.

Lemma SFeqb_key x y :
  SFeqb x y = true <->
  x <> S754_nan /\ y <> S754_nan /\ sf_key x = sf_key y.
Proof.
  unfold SFeqb.
  destruct x as [sx|sx| |sx mx ex], y as [sy|sy| |sy my ey]; simpl; sf_cases;
    (split; [intros HH; try discriminate HH; repeat split; try discriminate;
             f_equal; try lia; congruence
            | intros (Hx & Hy & HH); try congruence; try reflexivity;
              try (injection HH; intros; lia)]).
Qed.

Lemma eqb_key a b :
  (a =? b) = true <->
  is_nan a = false /\ is_nan b = false /\
  sf_key (Prim2SF a) = sf_key (Prim2SF b).
Proof. rewrite FloatAxioms.eqb_spec, SFeqb_key, !is_nan_Prim2SF. reflexivity. Qed.

Lemma ltb_trans a b c :
  (a <? b) = true -> (b <? c) = true -> (a <? c) = true.
Proof.
  rewrite !ltb_key. intros (Ha & _ & H1) (_ & Hc & H2).
  repeat split; try assumption. eapply key_lt_trans; eassumption.
Qed.

Lemma ltb_irrefl a : (a <? a) = false.
Proof.
  destruct (a <? a) eqn:E; [|reflexivity].
  apply ltb_key in E as (_ & _ & E). by apply key_lt_irrefl in E.
Qed.

(** Values that compare equal are below the same values. *)
Lemma ltb_eqb_r x a b : (a =? b) = true -> (x <? b) = false -> (x <? a) = false.
Proof.
  intros Hab Hxb. destruct (x <? a) eqn:E; [|reflexivity].
  apply eqb_key in Hab as (_ & Hb & Hk).
  apply ltb_key in E as (Hx & _ & E). rewrite Hk in E.
  assert ((x <? b) = true) by (apply ltb_key; auto). congruence.
Qed.

(** A comparison with [nan] on either side is false. *)
Lemma ltb_nan_l a b : is_nan a = true -> (a <? b) = false.
Proof.
  intros Ha. destruct (a <? b) eqn:E; [|reflexivity].
  apply ltb_key in E as (E & _). congruence.
Qed.

Lemma ltb_nan_r a b : is_nan b = true -> (a <? b) = false.
Proof.
  intros Hb. destruct (a <? b) eqn:E; [|reflexivity].
  apply ltb_key in E as (_ & E & _). congruence.
Qed.

Lemma leb_not_nan a b :
  (a <=? b) = true -> is_nan a = false /\ is_nan b = false.
Proof. rewrite leb_key. tauto. Qed.

(** A square is never [-0], so adding it to [0] returns it unchanged. *)
Lemma SFmul_self_not_neg_zero x : SFmul prec emax x x <> S754_zero true.
Proof.
  destruct x as [[]|[]| |s m e]; simpl; try discriminate.
  unfold binary_round_aux.
  destruct (shr_fexp _ _ _ _ _) as [mrs' e'].
  destruct (shr_fexp _ _ _ _ _) as [mrs'' e''].
  destruct (shr_m mrs''); [destruct s; discriminate| |discriminate].
  destruct (_ <=? _)%Z; discriminate.
Qed.

Lemma SFadd_zero_l y :
  y <> S754_zero true -> SFadd prec emax (S754_zero false) y = y.
Proof. destruct y as [[]|[]| |s m e]; simpl; congruence. Qed.

Lemma zero_add_square x : 0 + x * x = x * x.
Proof.
  apply Prim2SF_inj. rewrite add_spec, mul_spec.
  change (Prim2SF 0) with (S754_zero false).
  apply SFadd_zero_l, SFmul_self_not_neg_zero.
Qed.

(** [nan] is the only value that is not equal to itself. *)
Lemma is_nan_eq x : is_nan x = true -> x = nan.
Proof.
  intros Hx. apply Prim2SF_inj. change (Prim2SF nan) with S754_nan.
  destruct (Prim2SF x) eqn:E; try reflexivity;
    assert (is_nan x = false) as Hn
      by (apply is_nan_Prim2SF; rewrite E; discriminate);
    congruence.
Qed.

(** Arithmetic on [nan] gives [nan], and [nan] compares with nothing. *)
Lemma add_nan_l x : nan + x = nan.
Proof.
  apply Prim2SF_inj. rewrite add_spec. change (Prim2SF nan) with S754_nan.
  reflexivity.
Qed.

Lemma add_nan_r x : x + nan = nan.
Proof.
  apply Prim2SF_inj. rewrite add_spec. change (Prim2SF nan) with S754_nan.
  by destruct (Prim2SF x).
Qed.

Lemma sub_nan_l x : nan - x = nan.
Proof.
  apply Prim2SF_inj. rewrite sub_spec. change (Prim2SF nan) with S754_nan.
  reflexivity.
Qed.

Lemma sub_nan_r x : x - nan = nan.
Proof.
  apply Prim2SF_inj. rewrite sub_spec. change (Prim2SF nan) with S754_nan.
  by destruct (Prim2SF x).
Qed.

Lemma mul_nan_l x : nan * x = nan.
Proof.
  apply Prim2SF_inj. rewrite mul_spec. change (Prim2SF nan) with S754_nan.
  reflexivity.
Qed.

Lemma mul_nan_r x : x * nan = nan.
Proof.
  apply Prim2SF_inj. rewrite mul_spec. change (Prim2SF nan) with S754_nan.
  by destruct (Prim2SF x).
Qed.

Lemma div_nan_l x : nan / x = nan.
Proof.
  apply Prim2SF_inj. rewrite div_spec. change (Prim2SF nan) with S754_nan.
  reflexivity.
Qed.

Lemma div_nan_r x : x / nan = nan.
Proof.
  apply Prim2SF_inj. rewrite div_spec. change (Prim2SF nan) with S754_nan.
  by destruct (Prim2SF x).
Qed.

Lemma leb_nan_l x : (nan <=? x) = false.
Proof.
  rewrite FloatAxioms.leb_spec. change (Prim2SF nan) with S754_nan. reflexivity.
Qed.

Lemma leb_nan_r x : (x <=? nan) = false.
Proof.
  rewrite FloatAxioms.leb_spec. change (Prim2SF nan) with S754_nan.
  by destruct (Prim2SF x).
Qed.

(** The finite values are the zeros and the numbers with a mantissa. *)
Definition SFfinite (x : spec_float) : Prop :=
  match x with
  | S754_zero _ | S754_finite _ _ _ => True
  | _ => False
  end.

Lemma is_finite_Prim2SF x : is_finite x = true <-> SFfinite (Prim2SF x).
Proof.
  unfold is_finite, is_nan, is_infinity.
  rewrite !FloatAxioms.eqb_spec, abs_spec.
  change (Prim2SF infinity) with (S754_infinity false).
  unfold SFeqb.
  destruct (Prim2SF x) as [s|s| |s m e]; simpl.
  - tauto.
  - destruct s; simpl; (split; [discriminate | tauto]).
  - split; [discriminate | tauto].
  - destruct s; rewrite Z.compare_refl;
      change (Pos.compare_cont Eq m m) with (Pos.compare m m);
      rewrite Pos.compare_refl; simpl; tauto.
Qed.

(** A finite value minus itself is [+0]. *)
Lemma sub_diag x : is_finite x = true -> x - x = 0.
Proof.
  rewrite is_finite_Prim2SF. intros Hx.
  apply Prim2SF_inj. rewrite sub_spec. change (Prim2SF 0) with (S754_zero false).
  destruct (Prim2SF x) as [s|s| |s m e]; try done.
  - by destruct s.
  - unfold SF64sub, SFsub. rewrite Z.min_id. unfold shl_align.
    rewrite !Z.sub_diag. reflexivity.
Qed.

Lemma key_le_cases k1 k2 : key_le k1 k2 -> key_lt k1 k2 \/ k1 = k2.
Proof.
  destruct k1 as [[a1 b1] c1], k2 as [[a2 b2] c2]. unfold key_le, key_lt.
  intros H.
  destruct (decide (a1 = a2 /\ b1 = b2 /\ c1 = c2)) as [(-> & -> & ->)|Hne];
    [by right|left; lia].
Qed.

(** Two values that are not [nan] are equal or one is below the other. *)
Lemma ltb_trichotomy a b :
  is_nan a = false -> is_nan b = false ->
  (a <? b) = false -> (a =? b) = false -> (b <? a) = true.
Proof.
  intros Ha Hb Hlt Heq. apply ltb_key. repeat split; try assumption.
  destruct (key_total (sf_key (Prim2SF a)) (sf_key (Prim2SF b))) as [H|H].
  - assert ((a <? b) = true) by (apply ltb_key; auto). congruence.
  - apply key_le_cases in H as [H|H]; [done|].
    assert ((a =? b) = true) by (apply eqb_key; auto). congruence.
Qed.

(** Values that compare equal are equal to the same values. *)
Lemma eqb_eqb_r x a b : (a =? b) = true -> (x =? b) = false -> (x =? a) = false.
Proof.
  intros Hab Hxb. destruct (x =? a) eqn:E; [|reflexivity].
  apply eqb_key in Hab as (_ & Hb & Hk).
  apply eqb_key in E as (Hx & _ & E). rewrite Hk in E.
  assert ((x =? b) = true) by (apply eqb_key; auto). congruence.
Qed.

(** [nan], or a value whose sign bit is [s]. *)
Definition SFsigned (s : bool) (x : spec_float) : Prop :=
  match x with
  | S754_nan => True
  | S754_zero s' | S754_infinity s' | S754_finite s' _ _ => s' = s
  end.

(** [nan], or a value that is not negative and not [-0]. *)
Definition not_neg (x : float) : Prop := SFsigned false (Prim2SF x).

Lemma binary_round_aux_signed s m e l :
  SFsigned s (binary_round_aux prec emax s m e l).
Proof.
  unfold binary_round_aux.
  destruct (shr_fexp _ _ _ _ _) as [mrs' e'].
  destruct (shr_fexp _ _ _ _ _) as [mrs'' e''].
  destruct (shr_m mrs''); simpl; try done.
  by destruct (_ <=? _)%Z.
Qed.

Lemma binary_round_signed s m e : SFsigned s (binary_round prec emax s m e).
Proof.
  unfold binary_round. destruct (shl_align _ _ _) as [mz ez].
  apply binary_round_aux_signed.
Qed.

Lemma mul_self_not_neg x : not_neg (x * x).
Proof.
  unfold not_neg. rewrite mul_spec.
  destruct (Prim2SF x) as [[]|[]| |s m e]; simpl; try done.
  replace (xorb s s) with false by (by destruct s).
  apply binary_round_aux_signed.
Qed.

Lemma add_not_neg x y : not_neg x -> not_neg y -> not_neg (x + y).
Proof.
  unfold not_neg. rewrite add_spec.
  destruct (Prim2SF x) as [sx|sx| |sx mx ex], (Prim2SF y) as [sy|sy| |sy my ey];
    simpl; try done; intros -> ->; try done.
  apply binary_round_signed.
Qed.

Lemma div_not_neg x y : not_neg x -> not_neg y -> not_neg (x / y).
Proof.
  unfold not_neg. rewrite div_spec.
  destruct (Prim2SF x) as [sx|sx| |sx mx ex], (Prim2SF y) as [sy|sy| |sy my ey];
    simpl; try done; intros -> ->; try done.
  destruct (SFdiv_core_binary _ _ _ _ _ _) as [[mz ez] lz].
  apply binary_round_aux_signed.
Qed.

Lemma of_nat_not_neg n : not_neg (of_nat n).
Proof.
  unfold not_neg, of_nat. rewrite of_uint63_spec.
  pose proof (Uint63.to_Z_bounded (Uint63.of_Z (Z.of_nat n))) as [Hge _].
  destruct (Uint63.to_Z _) as [|p|p] eqn:E; simpl; try done.
  apply binary_round_signed.
Qed.

Lemma zero_not_neg : not_neg 0.
Proof. reflexivity. Qed.

(** Such a value is not below zero. *)
Lemma not_neg_ltb x : not_neg x -> (x <? 0) = false.
Proof.
  unfold not_neg. rewrite FloatAxioms.ltb_spec.
  change (Prim2SF 0) with (S754_zero false).
  by destruct (Prim2SF x) as [s|s| |s m e]; simpl; try done; intros ->.
Qed.

(** The order is antisymmetric up to [=?], and [<?] excludes the converse
    [<=?]. *)
Lemma leb_antisym a b :
  (a <=? b) = true -> (b <=? a) = true -> (a =? b) = true.
Proof.
  rewrite !leb_key, eqb_key. intros (Ha & Hb & H1) (_ & _ & H2).
  repeat split; try assumption.
  destruct (sf_key (Prim2SF a)) as [[a1 b1] c1].
  destruct (sf_key (Prim2SF b)) as [[a2 b2] c2].
  unfold key_le in *. f_equal; [f_equal|]; lia.
Qed.

Lemma eqb_leb a b : (a =? b) = true -> (a <=? b) = true.
Proof.
  rewrite eqb_key, leb_key. intros (Ha & Hb & ->).
  auto using key_le_refl.
Qed.

Lemma eqb_sym a b : (a =? b) = true -> (b =? a) = true.
Proof. rewrite !eqb_key. intros (Ha & Hb & ->). auto. Qed.

Lemma ltb_not_leb a b : (a <? b) = true -> (b <=? a) = false.
Proof.
  intros Hlt. destruct (b <=? a) eqn:Hle; [|done]. exfalso.
  apply ltb_key in Hlt as (_ & _ & Hlt). apply leb_key in Hle as (_ & _ & Hle).
  destruct (sf_key (Prim2SF a)) as [[a1 b1] c1].
  destruct (sf_key (Prim2SF b)) as [[a2 b2] c2].
  unfold key_le, key_lt in *. lia.
Qed.

End F64.

(** ** Euler integration ([euler/], cell "Euler Integration Curves") *)

Module Euler.
Import Py.
Local Open Scope float_scope.

(** [euler_step(x,y,h,func)]: x <- x + h, y <- y + h f(x,y). *)
Definition euler_step (x y h : float) (func : float -> float -> float)
  : float * float :=
  let hs := h * func x y in
  let x := x + h in
  let y := y + hs in
  (x, y).

(** The loop's exit test: [np.abs(x0) > 5. or np.abs(y0) > 5.]. *)
Definition off_grid (x0 y0 : float) : bool :=
  (5 <? abs x0) || (5 <? abs y0).

(** The body of [for i in range(n)], with its [break]; [xl] and [yl] are the
    two Python lists the loop appends to. *)
Fixpoint euler_loop (iters : nat) (x0 y0 h : float)
    (func : float -> float -> float) (xl yl : list float)
  : list float * list float :=
  match iters with
  | O => (xl, yl)
  | S iters' =>
      let '(x0, y0) := euler_step x0 y0 h func in
      let xl := xl ++ [x0] in
      let yl := yl ++ [y0] in
      if off_grid x0 y0 then (xl, yl)
      else euler_loop iters' x0 y0 h func xl yl
  end.

(** [euler_table(x0,y0,n,h,func)]; the result is the table's rows (x, y).
    [range(n)] is empty for a negative [n]. *)
Definition euler_table (x0 y0 : float) (n : Z) (h : float)
    (func : float -> float -> float) : list (float * float) :=
  let '(xl, yl) := euler_loop (Z.to_nat n) x0 y0 h func [x0] [y0] in
  zip xl yl.

(** The slope function of y' = x*y. *)
Definition slope_xy (x y : float) : float := x * y.

(** The claim's reading of "on the grid": |x| <= 5 and |y| <= 5. *)
Definition within_grid (p : float * float) : bool :=
  (abs p.1 <=? 5) && (abs p.2 <=? 5).

(** Every point of [pts] but the last is within the grid. *)
Definition all_but_last_within_grid (pts : list (float * float)) : Prop :=
  forall k p, pts !! k = Some p -> S k < length pts -> within_grid p = true.

(** The points the loop computes, without the accumulators. *)
Fixpoint euler_points (iters : nat) (x0 y0 h : float)
    (func : float -> float -> float) : list (float * float) :=
  match iters with
  | O => []
  | S iters' =>
      let '(x1, y1) := euler_step x0 y0 h func in
      (x1, y1) :: (if off_grid x1 y1 then []
                   else euler_points iters' x1 y1 h func)
  end.

Section EulerFacts.
Variables (h : float) (func : float -> float -> float).

Lemma euler_step_eq x y :
  euler_step x y h func = (x + h, y + h * func x y).
Proof. reflexivity. Qed.

Lemma euler_loop_points iters : forall x y xl yl,
  length xl = length yl ->
  zip (euler_loop iters x y h func xl yl).1 (euler_loop iters x y h func xl yl).2
  = zip xl yl ++ euler_points iters x y h func.
Proof.
  induction iters as [|iters IH]; intros x y xl yl Hlen; simpl.
  - by rewrite app_nil_r.
  - destruct (off_grid (x + h) (y + h * func x y)); simpl.
    + by rewrite zip_with_app.
    + rewrite IH by (rewrite !length_app; simpl; lia).
      rewrite zip_with_app by done. simpl. by rewrite <- app_assoc.
Qed.

Lemma euler_table_points x0 y0 n :
  euler_table x0 y0 n h func
  = (x0, y0) :: euler_points (Z.to_nat n) x0 y0 h func.
Proof.
  unfold euler_table.
  pose proof (euler_loop_points (Z.to_nat n) x0 y0 [x0] [y0] eq_refl) as H.
  destruct (euler_loop (Z.to_nat n) x0 y0 h func [x0] [y0]) as [xl yl].
  exact H.
Qed.

Lemma euler_points_length_le iters : forall x y,
  length (euler_points iters x y h func) <= iters.
Proof.
  induction iters as [|iters IH]; intros x y; simpl; [lia|].
  destruct (off_grid _ _); simpl; [lia|].
  specialize (IH (x + h) (y + h * func x y)). lia.
Qed.

Lemma euler_points_length_ge iters x y :
  0 < iters -> 0 < length (euler_points iters x y h func).
Proof. destruct iters; simpl; lia. Qed.

(** Consecutive rows are related by [euler_step]. *)
Lemma euler_points_step iters : forall x y k xk yk,
  ((x, y) :: euler_points iters x y h func) !! k = Some (xk, yk) ->
  S k < length ((x, y) :: euler_points iters x y h func) ->
  ((x, y) :: euler_points iters x y h func) !! S k
  = Some (euler_step xk yk h func).
Proof.
  induction iters as [|iters IH]; intros x y k xk yk Hk Hlen.
  - simpl in Hlen. lia.
  - destruct k as [|k].
    + simpl in Hk. injection Hk as <- <-. reflexivity.
    + simpl in Hk, Hlen |- *.
      destruct (off_grid (x + h) (y + h * func x y)).
      * simpl in Hlen. lia.
      * apply (IH (x + h) (y + h * func x y) k); simpl; [exact Hk | lia].
Qed.

(** A computed point that is not the last one passed the loop's exit test. *)
Lemma euler_points_on_grid iters : forall x y k xk yk,
  euler_points iters x y h func !! k = Some (xk, yk) ->
  S k < length (euler_points iters x y h func) ->
  off_grid xk yk = false.
Proof.
  induction iters as [|iters IH]; intros x y k xk yk Hk Hlen.
  - discriminate Hk.
  - simpl in Hk, Hlen.
    destruct (off_grid (x + h) (y + h * func x y)) eqn:Hoff.
    + simpl in Hlen. lia.
    + destruct k as [|k].
      * simpl in Hk. injection Hk as <- <-. exact Hoff.
      * simpl in Hk, Hlen.
        apply (IH (x + h) (y + h * func x y) k); [exact Hk | lia].
Qed.

End EulerFacts.

Lemma is_nan_abs x : is_nan x = false -> is_nan (abs x) = false.
Proof.
  rewrite !F64.is_nan_Prim2SF, abs_spec.
  destruct (Prim2SF x); simpl; congruence.
Qed.

(** For coordinates that are not [nan], failing the exit test means being
    within the grid. *)
Lemma off_grid_false_within x y :
  is_nan x = false -> is_nan y = false ->
  off_grid x y = false -> within_grid (x, y) = true.
Proof.
  intros Hx Hy Hoff. apply orb_false_elim in Hoff as [H1 H2].
  unfold within_grid; simpl. apply andb_true_intro; split;
    apply F64.ltb_false_leb; auto using is_nan_abs.
Qed.

(** C3. [euler_step x y h func] is exactly [(x + h, y + h * func x y)]; the
    rows of [euler_table x0 y0 n h func] start with [(x0, y0)], and each row
    after a row [(xk, yk)] is [(xk + h, yk + h * func xk yk)]. *)
Theorem euler_table_recurrence (x0 y0 : float) (n : Z) (h : float)
    (func : float -> float -> float) :
  (forall x y, euler_step x y h func = (x + h, y + h * func x y)) /\
  euler_table x0 y0 n h func !! 0%nat = Some (x0, y0) /\
  (forall k xk yk,
     euler_table x0 y0 n h func !! k = Some (xk, yk) ->
     S k < length (euler_table x0 y0 n h func) ->
     euler_table x0 y0 n h func !! S k
     = Some (xk + h, yk + h * func xk yk)).
Proof.
  split; [reflexivity|]. rewrite euler_table_points. split; [reflexivity|].
  intros k xk yk Hk Hlen. exact (euler_points_step h func _ _ _ _ _ _ Hk Hlen).
Qed.

(** Up to ten steps of y' = x*y from (1, 1) with h = 1/2: the third leaves
    the grid. *)
Example euler_table_run :
  euler_table 1 1 10 0.5 slope_xy
  = [(1, 1); (1.5, 1.5); (2, 2.625); (2.5, 5.25)].
Proof. vm_compute. reflexivity. Qed.

(** C10 as stated fails: the starting point is never tested, so a table that
    starts off the grid keeps that point in front of the computed ones; and a
    computed [nan] passes the exit test without being within the grid. *)
Lemma euler_table_first_point_unchecked :
  ~ all_but_last_within_grid (euler_table 6 0 1 1 (fun _ _ => 0)) /\
  euler_table 6 0 1 1 (fun _ _ => 0) = [(6, 0); (7, 0)] /\
  euler_table 0 0 2 1 (fun _ _ => nan) = [(0, 0); (1, nan); (2, nan)] /\
  within_grid (1, nan) = false.
Proof.
  split; [|repeat split; vm_compute; reflexivity].
  intros H. specialize (H 0%nat (6, 0)). vm_compute in H.
  specialize (H eq_refl). assert (2 <= 2) as Hle by lia.
  specialize (H Hle). discriminate H.
Qed.

(** C10, amended. For [n >= 0] the table has between [1 + min n 1] and
    [n + 1] rows (the loop runs at most [n] times); a computed row that tests
    off the grid, [|x| > 5 or |y| > 5], is the last one; so every row other
    than the first and the last failed that test, which for coordinates that
    are not [nan] means |x| <= 5 and |y| <= 5. *)
Theorem euler_table_bounded (x0 y0 : float) (n : Z) (h : float)
    (func : float -> float -> float) :
  (0 <= n)%Z ->
  (1 + Z.min n 1 <= Z.of_nat (length (euler_table x0 y0 n h func)) <= n + 1)%Z /\
  (forall k x y,
     0 < k -> euler_table x0 y0 n h func !! k = Some (x, y) ->
     off_grid x y = true -> length (euler_table x0 y0 n h func) = S k) /\
  (forall k x y,
     0 < k -> S k < length (euler_table x0 y0 n h func) ->
     euler_table x0 y0 n h func !! k = Some (x, y) ->
     off_grid x y = false /\
     (is_nan x = false -> is_nan y = false -> within_grid (x, y) = true)).
Proof.
  intros Hn. rewrite euler_table_points.
  assert (forall k x y,
            0 < k ->
            S k < length ((x0, y0) :: euler_points (Z.to_nat n) x0 y0 h func) ->
            ((x0, y0) :: euler_points (Z.to_nat n) x0 y0 h func) !! k
              = Some (x, y) ->
            off_grid x y = false) as Hgrid.
  { intros k x y Hk Hlen Hrow. destruct k as [|k]; [lia|].
    simpl in Hrow, Hlen.
    apply (euler_points_on_grid h func _ _ _ _ _ _ Hrow). lia. }
  split; [|split].
  - simpl length.
    pose proof (euler_points_length_le h func (Z.to_nat n) x0 y0) as Hle.
    destruct (Z.eq_dec n 0%Z) as [->|Hne]; [simpl; lia|].
    pose proof (euler_points_length_ge h func (Z.to_nat n) x0 y0) as Hge.
    lia.
  - intros k x y Hk Hrow Hoff.
    pose proof (lookup_lt_Some _ _ _ Hrow) as Hlt.
    destruct (Nat.lt_ge_cases
                (S k) (length ((x0, y0) :: euler_points (Z.to_nat n) x0 y0 h func)))
      as [Hlen|Hlen]; [|lia].
    rewrite (Hgrid k x y Hk Hlen Hrow) in Hoff. discriminate Hoff.
  - intros k x y Hk Hlen Hrow.
    assert (off_grid x y = false) as Hoff by eauto.
    split; [exact Hoff|]. intros Hx Hy. by apply off_grid_false_within.
Qed.

Lemma euler_table_bounded_witness :
  (1 + Z.min 10 1 <= Z.of_nat (length (euler_table 1 1 10 0.5 slope_xy))
   <= 10 + 1)%Z /\
  (forall k x y,
     0 < k -> euler_table 1 1 10 0.5 slope_xy !! k = Some (x, y) ->
     off_grid x y = true -> length (euler_table 1 1 10 0.5 slope_xy) = S k) /\
  (forall k x y,
     0 < k -> S k < length (euler_table 1 1 10 0.5 slope_xy) ->
     euler_table 1 1 10 0.5 slope_xy !! k = Some (x, y) ->
     off_grid x y = false /\
     (is_nan x = false -> is_nan y = false -> within_grid (x, y) = true)).
Proof. apply (euler_table_bounded 1 1 10 0.5 slope_xy). lia. Defined.

(** *** The table as [n] grows *)

Section EulerGrowth.
Variables (h : float) (func : float -> float -> float).

(** More turns of the loop only append points. *)
Lemma euler_points_prefix iters extra : forall x y,
  euler_points iters x y h func
  `prefix_of` euler_points (iters + extra) x y h func.
Proof.
  induction iters as [|iters IH]; intros x y; simpl.
  - apply prefix_nil.
  - destruct (off_grid _ _); apply prefix_cons; [apply prefix_nil|apply IH].
Qed.

(** Once the loop has stopped early, more turns change nothing. *)
Lemma euler_points_stable iters extra : forall x y,
  length (euler_points iters x y h func) < iters ->
  euler_points (iters + extra) x y h func = euler_points iters x y h func.
Proof.
  induction iters as [|iters IH]; intros x y Hlen; simpl in *; [lia|].
  destruct (off_grid _ _); [done|]. f_equal. apply IH. simpl in Hlen. lia.
Qed.

End EulerGrowth.

(** X3. [n] is only an upper bound on the number of steps: the table for a
    larger [n] starts with the table for a smaller one, and when the smaller
    table stopped before its [n] steps were used up, the larger one is the
    very same table. *)
Theorem euler_table_grows (x0 y0 : float) (n m : Z) (h : float)
    (func : float -> float -> float) :
  (n <= m)%Z ->
  euler_table x0 y0 n h func `prefix_of` euler_table x0 y0 m h func /\
  ((Z.of_nat (length (euler_table x0 y0 n h func)) < n + 1)%Z ->
   euler_table x0 y0 m h func = euler_table x0 y0 n h func).
Proof.
  intros Hnm. rewrite !euler_table_points.
  replace (Z.to_nat m) with (Z.to_nat n + (Z.to_nat m - Z.to_nat n))%nat by lia.
  split.
  - apply prefix_cons, euler_points_prefix.
  - intros Hlen. f_equal. apply euler_points_stable. simpl in Hlen. lia.
Qed.

Lemma euler_table_grows_witness :
  euler_table 1 1 5 0.5 slope_xy `prefix_of` euler_table 1 1 10 0.5 slope_xy /\
  ((Z.of_nat (length (euler_table 1 1 5 0.5 slope_xy)) < 5 + 1)%Z ->
   euler_table 1 1 10 0.5 slope_xy = euler_table 1 1 5 0.5 slope_xy).
Proof. apply (euler_table_grows 1 1 5 10 0.5 slope_xy). lia. Defined.

(** *** The overlay and the tap callback (cell "User-selectable starting
    point") *)

(** [np.pi]. *)
Definition np_pi : float := 0x1.921fb54442d18p+1.

(** The defaults [n=10000] and [h=[.5,.2,.01,.0011]] of
    [append_euler_plots], the literals as the float64 values they denote. *)
Definition n_default : Z := 10000.
Definition h_default : list float :=
  [0.5; 0x1.999999999999ap-3; 0x1.47ae147ae147bp-7; 0x1.205bc01a36e2fp-10].

(** The start of the four curves drawn before any tap:
    [(-5, np.pi/4.75)]. *)
Definition start_default : float * float := (-5, np_pi / 4.75).

Section Explorer.
(** What [hv.RGB] and [hv.VectorField] hold is built by the plotting library
    from the slope function; ['h=%6.3f' % h] is Python's formatting. *)
Variables image field : Type.
Variable img_field : (float -> float -> float) -> image.
Variable vec_field : (float -> float -> float) -> field.
Variable format_h : float -> string.

(** The elements of an overlay. *)
Inductive element : Type :=
| RGB (img : image)
| VectorField (vf : field)
| HLine (y : float)
| VLine (x : float)
| Curve (label : string) (rows : list (float * float)).

(** [background(func)] returns
    [[img_field, vec_field, hv.HLine(0), hv.VLine(0)]]. *)
Definition background (func : float -> float -> float) : list element :=
  [RGB (img_field func); VectorField (vec_field func); HLine 0; VLine 0].

(** [euler_curve(x0,y0,n,h,func)]: the table as a curve labelled with [h]. *)
Definition euler_curve (x0 y0 : float) (n : Z) (h : float)
    (func : float -> float -> float) : element :=
  Curve (format_h h) (euler_table x0 y0 n h func).

(** [append_euler_plots(l, start, func, n, h)]: one curve per step size is
    appended to [l]. *)
Definition append_euler_plots (l : list element) (start : float * float)
    (func : float -> float -> float) (n : Z) (h : list float) : list element :=
  foldl (fun l hi => l ++ [euler_curve start.1 start.2 n hi func]) l h.

(** The overlay a callback returns:
    [hv.Overlay(l1).redim.range(x=(-5,5),y=(-5,5))]. *)
Record hv_Overlay : Type := Overlay {
  items : list element;
  x_range : float * float;
  y_range : float * float
}.

(** [react_to_tap(x,y)]: the list [l1] after the call, and the overlay
    returned. [del l1[4:]] keeps the first four elements. *)
Definition react_to_tap (func : float -> float -> float)
    (x y : option float) (l1 : list element) : list element * hv_Overlay :=
  let l1 :=
    match x, y with
    | Some vx, Some vy =>
        if (vx <? 5) && (vy <? 5) then
          let l1 := take 4 l1 in
          append_euler_plots l1 (vx, vy) func n_default h_default
        else l1
    | _, _ => l1
    end in
  (l1, {| items := l1; x_range := (-5, 5); y_range := (-5, 5) |}).

(** The list [l1] the cell builds before the first tap. *)
Definition initial_plots (func : float -> float -> float) : list element :=
  append_euler_plots (background func) start_default func n_default h_default.

(** The point of a tap that passes the callback's test. *)
Definition accepted (t : option float * option float)
  : option (float * float) :=
  match t with
  | (Some vx, Some vy) => if (vx <? 5) && (vy <? 5) then Some (vx, vy) else None
  | _ => None
  end.

(** The point of the last tap that passed the test, if any. *)
Fixpoint last_accepted (taps : list (option float * option float))
  : option (float * float) :=
  match taps with
  | [] => None
  | t :: taps' =>
      match last_accepted taps' with
      | Some p => Some p
      | None => accepted t
      end
  end.

(** [l1] after a sequence of taps. *)
Definition taps_run (func : float -> float -> float)
    (taps : list (option float * option float)) (l1 : list element)
  : list element :=
  foldl (fun l t => (react_to_tap func t.1 t.2 l).1) l1 taps.

(** The four curves from a starting point. *)
Definition curves_from (func : float -> float -> float)
    (start : float * float) : list element :=
  map (fun hi => euler_curve start.1 start.2 n_default hi func) h_default.

Lemma append_euler_plots_app l start func n h :
  append_euler_plots l start func n h
  = l ++ map (fun hi => euler_curve start.1 start.2 n hi func) h.
Proof.
  unfold append_euler_plots. revert l.
  induction h as [|hi h IH]; intros l; simpl.
  - by rewrite app_nil_r.
  - rewrite IH. by rewrite <- app_assoc.
Qed.

(** One tap on a list that starts with the background. *)
Lemma react_to_tap_step func t start :
  (react_to_tap func t.1 t.2 (background func ++ curves_from func start)).1
  = background func ++ curves_from func (default start (accepted t)).
Proof.
  destruct t as [[vx|] [vy|]]; try done.
  unfold react_to_tap, accepted. cbn [fst snd].
  destruct ((vx <? 5) && (vy <? 5)); [|done].
  change (take 4 (background func ++ curves_from func start))
    with (background func).
  by rewrite append_euler_plots_app.
Qed.

Lemma taps_run_curves func taps : forall start,
  taps_run func taps (background func ++ curves_from func start)
  = background func
    ++ curves_from func (default start (last_accepted taps)).
Proof.
  unfold taps_run.
  induction taps as [|t taps IH]; intros start; [done|].
  cbn [foldl]. rewrite react_to_tap_step, IH.
  assert (default (default start (accepted t)) (last_accepted taps)
          = default start (last_accepted (t :: taps))) as ->; [|done].
  cbn [last_accepted]. destruct (last_accepted taps); [done|].
  by destruct (accepted t).
Qed.

(** X4. Whatever taps arrive, the overlay list stays the four background
    elements followed by exactly four curves, one per step size, all starting
    at the point of the last tap that passed the test (at the default start
    when none did); each curve has at most [n + 1] rows. *)
Theorem react_to_tap_overlay (func : float -> float -> float)
    (taps : list (option float * option float)) :
  let start := default start_default (last_accepted taps) in
  taps_run func taps (initial_plots func)
  = background func
    ++ map (fun hi => euler_curve start.1 start.2 n_default hi func) h_default
  /\ length (taps_run func taps (initial_plots func)) = 8%nat
  /\ forall k e,
       (4 <= k)%nat -> taps_run func taps (initial_plots func) !! k = Some e ->
       exists label rows,
         e = Curve label rows /\ rows !! 0%nat = Some start /\
         (Z.of_nat (length rows) <= n_default + 1)%Z.
Proof.
  intros start. unfold initial_plots. rewrite append_euler_plots_app.
  fold (curves_from func start_default). rewrite taps_run_curves.
  fold start. unfold curves_from.
  split; [reflexivity|]. split; [by rewrite length_app, length_map|].
  intros k e Hk He.
  rewrite lookup_app_r in He by (cbn [length background]; lia).
  rewrite list_lookup_fmap in He.
  destruct (h_default !! (k - length (background func))%nat) as [hi|];
    [|discriminate He].
  injection He as <-. unfold euler_curve. do 2 eexists.
  split; [reflexivity|].
  rewrite euler_table_points. split; [by destruct start|].
  pose proof (euler_points_length_le hi func (Z.to_nat n_default)
                start.1 start.2) as Hle.
  cbn [length]. unfold n_default in *. lia.
Qed.

End Explorer.

(** *** The image normalisation of [background] *)

(** NumPy's [minimum] and [maximum] reductions on float64: the accumulator
    is kept when it compares below (above) or equal to the next entry, or is
    [nan]. The order of the entries is NumPy's own; here it is left to
    right. An empty array has no minimum. *)
Definition np_minimum (acc x : float) : float :=
  if (acc <=? x) || is_nan acc then acc else x.

Definition np_maximum (acc x : float) : float :=
  if (x <=? acc) || is_nan acc then acc else x.

Definition np_min (arr : list float) : result float :=
  match arr with
  | [] => Raise ValueError
  | a :: rest => Ok (foldl np_minimum a rest)
  end.

Definition np_max (arr : list float) : result float :=
  match arr with
  | [] => Raise ValueError
  | a :: rest => Ok (foldl np_maximum a rest)
  end.

(** [norm(arr)], nested in [background]:
    [arr = (arr-arr.min())] / [return arr/arr.max()]; the array is given by
    its entries. *)
Definition norm (arr : list float) : result (list float) :=
  bind (np_min arr) (fun lo =>
  let arr := map (fun a => a - lo) arr in
  bind (np_max arr) (fun hi =>
  Ok (map (fun a => a / hi) arr))).

(** The two ways to a blank image: every slope is the same finite number, or
    some slope is [nan]. *)
Definition degenerate (arr : list float) : Prop :=
  (exists c, is_finite c = true /\ Forall (fun a => a = c) arr) \/
  Exists (fun a => is_nan a = true) arr.

Lemma Forall_eq_replicate {A} (c : A) l :
  Forall (fun a => a = c) l -> l = replicate (length l) c.
Proof. induction 1 as [|a l -> _ IH]; simpl; [done|]. by rewrite <- IH. Qed.

Lemma map_const {A B} (f : A -> B) (c : B) l :
  (forall x, f x = c) -> map f l = replicate (length l) c.
Proof.
  intros Hf. induction l as [|x l IH]; simpl; [done|]. by rewrite Hf, IH.
Qed.

Lemma foldl_same (f : float -> float -> float) c k :
  f c c = c -> foldl f c (replicate k c) = c.
Proof. intros Hf. induction k as [|k IH]; simpl; [done|]. by rewrite Hf. Qed.

Lemma np_minimum_nan_l x : np_minimum nan x = nan.
Proof. unfold np_minimum. by rewrite F64.leb_nan_l. Qed.

Lemma np_maximum_nan_l x : np_maximum nan x = nan.
Proof. unfold np_maximum. by rewrite F64.leb_nan_r. Qed.

Lemma foldl_nan (f : float -> float -> float) l :
  (forall x, f nan x = nan) -> foldl f nan l = nan.
Proof. intros Hf. induction l as [|x l IH]; simpl; [done|]. by rewrite Hf. Qed.

(** A [nan] entry makes the minimum [nan]. *)
Lemma foldl_np_minimum_nan l : forall acc,
  Exists (fun a => is_nan a = true) (acc :: l) ->
  foldl np_minimum acc l = nan.
Proof.
  induction l as [|x l IH]; intros acc Hex.
  - apply Exists_cons in Hex as [Hacc|Hex]; [by apply F64.is_nan_eq|].
    by apply Exists_nil in Hex.
  - simpl. apply Exists_cons in Hex as [Hacc|Hex].
    + apply F64.is_nan_eq in Hacc as ->. rewrite np_minimum_nan_l.
      apply foldl_nan, np_minimum_nan_l.
    + apply IH. apply Exists_cons in Hex as [Hx|Hex].
      * apply Exists_cons_hd. apply F64.is_nan_eq in Hx as ->.
        unfold np_minimum. rewrite F64.leb_nan_r. simpl.
        by destruct (is_nan acc) eqn:E; [rewrite E|].
      * by apply Exists_cons_tl.
Qed.

(** X5. [norm] divides the shifted entries by the largest of them. When
    every entry is the same finite number that is 0/0, and a [nan] entry
    makes the minimum [nan]: either way every entry of the result is [nan],
    and the image built from it is blank. *)
Theorem norm_blank (arr : list float) :
  arr <> [] -> degenerate arr ->
  norm arr = Ok (replicate (length arr) nan).
Proof.
  intros Hne [(c & Hc & Hall)|Hnan].
  - apply Forall_eq_replicate in Hall. rewrite Hall.
    rewrite length_replicate.
    destruct (length arr) as [|k] eqn:Hlen; [by destruct arr|].
    unfold norm. simpl np_min.
    rewrite foldl_same by (unfold np_minimum; by destruct (_ || _)).
    cbn [bind]. rewrite fmap_replicate, (F64.sub_diag c Hc).
    simpl np_max.
    rewrite foldl_same by reflexivity.
    cbn [bind]. by rewrite fmap_replicate.
  - destruct arr as [|a rest]; [done|]. unfold norm. simpl np_min.
    rewrite foldl_np_minimum_nan by done. cbn [bind].
    rewrite (map_const (fun x => x - nan) nan) by apply F64.sub_nan_r.
    simpl np_max. rewrite foldl_nan by apply np_maximum_nan_l.
    cbn [bind]. rewrite fmap_replicate. by rewrite F64.div_nan_l.
Qed.

Lemma norm_blank_witness :
  norm [2; 2; 2] = Ok (replicate (length [2; 2; 2]) nan).
Proof.
  apply (norm_blank [2; 2; 2]); [done|].
  left. exists 2. split; [reflexivity|]. by repeat constructor.
Defined.

(** An ordinary array goes to [0, 1]; an empty one is refused. *)
Example norm_run :
  norm [1; 3; 2] = Ok [0; 1; 0.5] /\
  norm [1; nan; 2] = Ok [nan; nan; nan] /\
  norm [] = Raise ValueError.
Proof. repeat split; vm_compute; reflexivity. Qed.

End Euler.

(** ** Attractor trajectories ([attractors/attractors.ipynb]) *)

Module Attractors.
Import Py.
Local Open Scope float_scope.

#[export] Instance float_inhabited : Inhabited float := populate 0.

(** An iterated map [fn(x, y, a, b, c, d, e, f)]. *)
Definition attractor : Type :=
  float -> float -> float -> float -> float -> float -> float -> float ->
  float * float.

(** [G(x, mu)] and [Gumowski_Mira(x, y, a, b, mu, *o)], one of the notebook's
    maps; a literal power [x**2] is the product [x*x]. *)
Definition G (x mu : float) : float :=
  mu * x + 2 * (1 - mu) * (x * x) / (1 + x * x).

Definition Gumowski_Mira : attractor := fun x y a b mu _ _ _ =>
  let xn := y + a * (1 - b * (y * y)) * y + G x mu in
  let yn := - x + G xn mu in
  (xn, yn).

(** One turn of the loop body: [x[i+1], y[i+1] = fn(x[i], y[i], a, ..., f)]. *)
Definition trajectory_body (fn : attractor) (a b c d e f : float)
    (xy : list float * list float) (i : nat) : list float * list float :=
  let '(x, y) := xy in
  let '(xn, yn) := fn (x !!! i) (y !!! i) a b c d e f in
  (<[S i := xn]> x, <[S i := yn]> y).

(** [trajectory_coords(fn, x0, y0, a, b, c, d, e, f, n)]. The function is
    compiled with [@jit(nopython=True)], which checks no bounds: for [n = 0]
    the write of [x[0]] lands outside the empty arrays, the loop has no
    turn, and the two arrays are returned empty. *)
Definition trajectory_coords (fn : attractor) (x0 y0 a b c d e f : float)
    (n : nat) : result (list float * list float) :=
  let x := replicate n 0 in
  let y := replicate n 0 in
  match n with
  | O => Ok (x, y)
  | S _ =>
      let x := <[0%nat := x0]> x in
      let y := <[0%nat := y0]> y in
      Ok (foldl (trajectory_body fn a b c d e f) (x, y) (seq 0 (n - 1)))
  end.

(** The [i]-fold iteration of the map from the starting point. *)
Definition orbit (fn : attractor) (x0 y0 a b c d e f : float) (i : nat)
  : float * float :=
  Nat.iter i (fun p => fn p.1 p.2 a b c d e f) (x0, y0).

Section Trajectory.
Variables (fn : attractor) (x0 y0 a b c d e f : float).

Let orb := orbit fn x0 y0 a b c d e f.
Let body := trajectory_body fn a b c d e f.

Let run (n k : nat) : list float * list float :=
  foldl body (<[0%nat := x0]> (replicate n 0),
              <[0%nat := y0]> (replicate n 0)) (seq 0 k).

(** After [k] turns the arrays hold the first [k + 1] points of the orbit. *)
Lemma trajectory_loop_inv n k :
  k < n ->
  length (run n k).1 = n /\ length (run n k).2 = n /\
  forall j, j <= k ->
    (run n k).1 !! j = Some (orb j).1 /\ (run n k).2 !! j = Some (orb j).2.
Proof.
  unfold run. induction k as [|k IH]; intros Hk.
  - simpl. rewrite !length_insert, !length_replicate. repeat split; try done.
    all: assert (j = 0%nat) as -> by lia;
      rewrite list_lookup_insert_eq by (rewrite length_replicate; lia); done.
  - rewrite seq_S, foldl_app. simpl.
    destruct IH as (Hx & Hy & Hpts); [lia|].
    destruct (foldl body _ (seq 0 k)) as [x y]. simpl in *.
    destruct (Hpts k (le_n k)) as [Hxk Hyk].
    rewrite (list_lookup_total_correct _ _ _ Hxk).
    rewrite (list_lookup_total_correct _ _ _ Hyk).
    assert (orb (S k) = fn (orb k).1 (orb k).2 a b c d e f) as Hstep by done.
    destruct (fn (orb k).1 (orb k).2 a b c d e f) as [xn yn] eqn:Hfn.
    simpl. rewrite !length_insert. repeat split; try done.
    all: destruct (decide (j = S k)) as [->|Hne];
      [ rewrite list_lookup_insert_eq by lia; by rewrite Hstep
      | rewrite list_lookup_insert_ne by lia; apply Hpts; lia ].
Qed.

End Trajectory.

(** C2. For [n >= 1], [trajectory_coords] returns two arrays of length [n]
    that start with [x0] and [y0], in which every point after the first is
    the map applied to the point before it; the [i]-th point is the [i]-fold
    iteration of the map from [(x0, y0)]. *)
Theorem trajectory_coords_orbit (fn : attractor) (x0 y0 a b c d e f : float)
    (n : nat) :
  1 <= n ->
  exists x y,
    trajectory_coords fn x0 y0 a b c d e f n = Ok (x, y) /\
    length x = n /\ length y = n /\
    x !! 0%nat = Some x0 /\ y !! 0%nat = Some y0 /\
    (forall i xi yi,
       i < n - 1 -> x !! i = Some xi -> y !! i = Some yi ->
       (x !! S i, y !! S i)
       = (Some (fn xi yi a b c d e f).1, Some (fn xi yi a b c d e f).2)) /\
    (forall i, i < n ->
       (x !! i, y !! i)
       = (Some (orbit fn x0 y0 a b c d e f i).1,
          Some (orbit fn x0 y0 a b c d e f i).2)).
Proof.
  intros Hn. destruct n as [|n]; [lia|].
  unfold trajectory_coords.
  pose proof (trajectory_loop_inv fn x0 y0 a b c d e f (S n) (S n - 1)) as Hinv.
  destruct Hinv as (Hx & Hy & Hpts); [lia|].
  destruct (foldl _ _ (seq 0 (S n - 1))) as [x y]. simpl in Hx, Hy, Hpts.
  exists x, y. split; [reflexivity|]. split; [done|]. split; [done|].
  split; [apply (Hpts 0%nat); lia|]. split; [apply (Hpts 0%nat); lia|].
  split.
  - intros i xi yi Hi Hxi Hyi.
    destruct (Hpts i) as [Hxi' Hyi']; [lia|].
    destruct (Hpts (S i)) as [-> ->]; [lia|].
    rewrite Hxi in Hxi'. rewrite Hyi in Hyi'.
    injection Hxi' as ->. injection Hyi' as ->. reflexivity.
  - intros i Hi. destruct (Hpts i) as [-> ->]; [lia|]. reflexivity.
Qed.

(** Four points of the Gumowski-Mira map from (1, 1) with a = 1, b = 1/2,
    mu = 1. *)
Lemma trajectory_coords_orbit_witness :
  exists x y,
    trajectory_coords Gumowski_Mira 1 1 1 0.5 1 0 0 0 4 = Ok (x, y) /\
    length x = 4%nat /\ length y = 4%nat /\
    x !! 0%nat = Some 1 /\ y !! 0%nat = Some 1 /\
    (forall i xi yi,
       i < 4 - 1 -> x !! i = Some xi -> y !! i = Some yi ->
       (x !! S i, y !! S i)
       = (Some (Gumowski_Mira xi yi 1 0.5 1 0 0 0).1,
          Some (Gumowski_Mira xi yi 1 0.5 1 0 0 0).2)) /\
    (forall i, i < 4 ->
       (x !! i, y !! i)
       = (Some (orbit Gumowski_Mira 1 1 1 0.5 1 0 0 0 i).1,
          Some (orbit Gumowski_Mira 1 1 1 0.5 1 0 0 0 i).2)).
Proof.
  apply (trajectory_coords_orbit Gumowski_Mira 1 1 1 0.5 1 0 0 0 4). lia.
Defined.

Example trajectory_coords_run :
  trajectory_coords Gumowski_Mira 1 1 1 0.5 1 0 0 0 4
  = Ok ([1; 2.5; 3.8125; 5.3070068359375],
        [1; 1.5; 1.3125; 1.4945068359375]).
Proof. vm_compute. reflexivity. Qed.

Example trajectory_coords_empty :
  trajectory_coords Gumowski_Mira 1 1 1 0.5 1 0 0 0 0 = Ok ([], []).
Proof. reflexivity. Qed.

(** *** The callers of [trajectory_coords] *)

(** The module-level [n=10000000], the default number of points. *)
Definition n : N := 10000000.

(** [pd.DataFrame(dict(x=x,y=y))]. *)
Record DataFrame : Type := {
  df_x : list float;
  df_y : list float
}.

(** [trajectory(fn, x0, y0, a, b, c, d, e, f, n)]. *)
Definition trajectory (fn : attractor) (x0 y0 a b c d e f : float)
    (n : nat) : result DataFrame :=
  bind (trajectory_coords fn x0 y0 a b c d e f n) (fun '(x, y) =>
  Ok {| df_x := x; df_y := y |}).

(** What [hv.Points] holds. *)
Inductive hv_Points : Type :=
| Points (df : DataFrame).

Section Clifford.
(** [math.sin] and [math.cos], the C library's. *)
Variables sin cos : float -> float.

(** [Clifford(x, y, a, b, c, d, *o)]. *)
Definition Clifford : attractor := fun x y a b c d _ _ =>
  (sin (a * y) + c * cos (a * x), sin (b * x) + d * cos (b * y)).

(** [hv_clif(a,b,c,d,x0=0,y0=0,n=n)]:
    [hv.Points(trajectory(Clifford, x0, y0, a, b, c, d, n))]. The call is
    positional, so its last argument lands in [trajectory]'s parameter [e];
    [f] and [n] take their defaults, 0 and the module-level [n]. *)
Definition hv_clif (a b c d x0 y0 : float) (n' : N) : result hv_Points :=
  bind (trajectory Clifford x0 y0 a b c d (F64.of_nat (N.to_nat n')) 0
          (N.to_nat n))
       (fun df => Ok (Points df)).

End Clifford.

(** With at least one point asked for, both arrays have that length. *)
Lemma trajectory_coords_length fn x0 y0 a b c d e f k :
  1 <= k ->
  exists x y, trajectory_coords fn x0 y0 a b c d e f k = Ok (x, y) /\
              length x = k /\ length y = k.
Proof.
  intros Hk. destruct k as [|k]; [lia|]. unfold trajectory_coords.
  destruct (trajectory_loop_inv fn x0 y0 a b c d e f (S k) (S k - 1))
    as (Hx & Hy & _); [lia|].
  destruct (foldl _ _ (seq 0 (S k - 1))) as [x y]. eauto.
Qed.

(** The module-level [n] is not zero. *)
Lemma n_positive : 1 <= N.to_nat n.
Proof.
  destruct (N.to_nat n) eqn:E; [|lia].
  apply (f_equal N.of_nat) in E. rewrite N2Nat.id in E. discriminate E.
Qed.

(** [Clifford] does not look at [e] and [f]. *)
Lemma trajectory_Clifford_rest sin cos x0 y0 a b c d e1 f1 e2 f2 k :
  trajectory (Clifford sin cos) x0 y0 a b c d e1 f1 k
  = trajectory (Clifford sin cos) x0 y0 a b c d e2 f2 k.
Proof. reflexivity. Qed.

(** X6. [hv_clif] passes its [n] where [trajectory] expects [e], which
    [Clifford] ignores: the points returned do not depend on it, and there
    are always as many of them as the module-level [n] says. *)
Theorem hv_clif_ignores_n (sin cos : float -> float)
    (a b c d x0 y0 : float) (n1 n2 : N) :
  hv_clif sin cos a b c d x0 y0 n1 = hv_clif sin cos a b c d x0 y0 n2 /\
  exists df,
    hv_clif sin cos a b c d x0 y0 n1 = Ok (Points df) /\
    length (df_x df) = N.to_nat n /\ length (df_y df) = N.to_nat n.
Proof.
  unfold hv_clif. split.
  - by rewrite (trajectory_Clifford_rest sin cos x0 y0 a b c d
                  (F64.of_nat (N.to_nat n1)) 0 (F64.of_nat (N.to_nat n2)) 0).
  - unfold trajectory.
    destruct (trajectory_coords_length (Clifford sin cos) x0 y0 a b c d
                (F64.of_nat (N.to_nat n1)) 0 (N.to_nat n) n_positive)
      as (x & y & Hrun & Hx & Hy).
    rewrite Hrun. eexists. split; [reflexivity|]. split; assumption.
Qed.

(** X7. Asking for more points extends the trajectory: the first [k] points
    of a longer run are the run of length [k]. *)
Theorem trajectory_coords_prefix (fn : attractor)
    (x0 y0 a b c d e f : float) (k m : nat) :
  1 <= k -> k <= m ->
  exists x y x' y',
    trajectory_coords fn x0 y0 a b c d e f k = Ok (x, y) /\
    trajectory_coords fn x0 y0 a b c d e f m = Ok (x', y') /\
    x = take k x' /\ y = take k y'.
Proof.
  intros Hk Hm. destruct k as [|k]; [lia|]. destruct m as [|m]; [lia|].
  unfold trajectory_coords.
  destruct (trajectory_loop_inv fn x0 y0 a b c d e f (S k) (S k - 1))
    as (Hx & Hy & Hpts); [lia|].
  destruct (trajectory_loop_inv fn x0 y0 a b c d e f (S m) (S m - 1))
    as (Hx' & Hy' & Hpts'); [lia|].
  destruct (foldl _ _ (seq 0 (S k - 1))) as [x y].
  destruct (foldl _ _ (seq 0 (S m - 1))) as [x' y'].
  simpl in Hx, Hy, Hpts, Hx', Hy', Hpts'.
  exists x, y, x', y'. split; [done|]. split; [done|].
  split; apply list_eq; intros j;
    (destruct (Nat.lt_ge_cases j (S k)) as [Hj|Hj];
     [ rewrite lookup_take_lt by done;
       destruct (Hpts j) as [Ex Ey]; [lia|];
       destruct (Hpts' j) as [Ex' Ey']; [lia|]; congruence
     | rewrite lookup_take_ge by done;
       apply lookup_ge_None; lia ]).
Qed.

Lemma trajectory_coords_prefix_witness :
  exists x y x' y',
    trajectory_coords Gumowski_Mira 1 1 1 0.5 1 0 0 0 2 = Ok (x, y) /\
    trajectory_coords Gumowski_Mira 1 1 1 0.5 1 0 0 0 4 = Ok (x', y') /\
    x = take 2 x' /\ y = take 2 y'.
Proof.
  apply (trajectory_coords_prefix Gumowski_Mira 1 1 1 0.5 1 0 0 0 2 4); lia.
Defined.

(** The orbit from a point of the orbit is the rest of the orbit. *)
Lemma orbit_add (fn : attractor) (x0 y0 a b c d e f : float) (i j : nat) :
  orbit fn (orbit fn x0 y0 a b c d e f i).1 (orbit fn x0 y0 a b c d e f i).2
    a b c d e f j
  = orbit fn x0 y0 a b c d e f (i + j).
Proof.
  unfold orbit. rewrite (Nat.add_comm i j), Nat.iter_add.
  by destruct (Nat.iter i _ (x0, y0)).
Qed.

(** X19. A trajectory can be continued from its last point: [k] points from
    [(x0, y0)], then [m] points from the last of them, are together (the
    shared point taken once) the [k + m - 1] points from [(x0, y0)]. *)
Theorem trajectory_coords_restart (fn : attractor)
    (x0 y0 a b c d e f : float) (k m : nat) :
  1 <= k -> 1 <= m ->
  exists x y xk yk x' y',
    trajectory_coords fn x0 y0 a b c d e f k = Ok (x, y) /\
    last x = Some xk /\ last y = Some yk /\
    trajectory_coords fn xk yk a b c d e f m = Ok (x', y') /\
    trajectory_coords fn x0 y0 a b c d e f (k + m - 1)%nat
    = Ok (x ++ drop 1 x', y ++ drop 1 y').
Proof.
  intros Hk Hm. destruct k as [|k]; [lia|]. destruct m as [|m]; [lia|].
  replace (S k + S m - 1)%nat with (S (k + m)) by lia.
  set (xk := (orbit fn x0 y0 a b c d e f k).1).
  set (yk := (orbit fn x0 y0 a b c d e f k).2).
  destruct (trajectory_loop_inv fn x0 y0 a b c d e f (S k) (S k - 1))
    as (Hx & Hy & Hpts); [lia|].
  destruct (trajectory_loop_inv fn xk yk a b c d e f (S m) (S m - 1))
    as (Hx' & Hy' & Hpts'); [lia|].
  destruct (trajectory_loop_inv fn x0 y0 a b c d e f (S (k + m))
              (S (k + m) - 1)) as (Hx'' & Hy'' & Hpts''); [lia|].
  destruct (foldl _ _ (seq 0 (S k - 1))) as [x y] eqn:Erun.
  destruct (foldl _ _ (seq 0 (S m - 1))) as [x' y'] eqn:Erun'.
  destruct (foldl _ _ (seq 0 (S (k + m) - 1))) as [x'' y''] eqn:Erun''.
  cbn [fst snd] in Hx, Hy, Hpts, Hx', Hy', Hpts', Hx'', Hy'', Hpts''.
  exists x, y, xk, yk, x', y'.
  unfold trajectory_coords. rewrite Erun, Erun', Erun''.
  split; [done|].
  destruct (Hpts k) as [Exk Eyk]; [lia|].
  split; [by rewrite last_lookup, Hx|]. split; [by rewrite last_lookup, Hy|].
  split; [done|].
  assert (forall j, j < S (k + m) ->
            (x ++ drop 1 x') !! j = x'' !! j /\
            (y ++ drop 1 y') !! j = y'' !! j) as Hsame.
  { intros j Hj. destruct (Hpts'' j) as [-> ->]; [lia|].
    destruct (Nat.lt_ge_cases j (S k)) as [Hlt|Hge].
    - rewrite !lookup_app_l by lia. apply Hpts. lia.
    - rewrite !lookup_app_r by lia. rewrite !lookup_drop, Hx, Hy.
      destruct (Hpts' (1 + (j - S k))%nat) as [-> ->]; [lia|].
      unfold xk, yk. rewrite orbit_add.
      by replace (k + (1 + (j - S k)))%nat with j by lia. }
  do 2 f_equal; apply list_eq; intros j.
  all: destruct (Nat.lt_ge_cases j (S (k + m))) as [Hj|Hj];
    [ symmetry; apply Hsame, Hj
    | rewrite !(proj2 (lookup_ge_None _ _));
      [done | rewrite length_app, length_drop; lia | lia] ].
Qed.

Lemma trajectory_coords_restart_witness :
  exists x y xk yk x' y',
    trajectory_coords Gumowski_Mira 1 1 1 0.5 1 0 0 0 2 = Ok (x, y) /\
    last x = Some xk /\ last y = Some yk /\
    trajectory_coords Gumowski_Mira xk yk 1 0.5 1 0 0 0 3 = Ok (x', y') /\
    trajectory_coords Gumowski_Mira 1 1 1 0.5 1 0 0 0 (2 + 3 - 1)%nat
    = Ok (x ++ drop 1 x', y ++ drop 1 y').
Proof.
  apply (trajectory_coords_restart Gumowski_Mira 1 1 1 0.5 1 0 0 0 2 3); lia.
Defined.

End Attractors.

(** ** The genetic algorithm ([genetic_algorithm/GA.ipynb]) *)

Module GA.
Import Py.
Local Open Scope float_scope.

(** An individual is a row of the population array. *)
Abbreviation individual := (list float).
Abbreviation population := (list (list float)).

(** *** NumPy and Python helpers the notebook relies on *)

(** A 1-d slice [a[lo:hi]] with non-negative bounds. *)
Definition slice (a : list float) (lo hi : nat) : list float :=
  take (hi - lo) (drop lo a).

(** Elementwise arithmetic on two 1-d arrays: equal shapes, or one of them of
    length 1 (broadcast); anything else is a shape error. *)
Definition broadcast (op : float -> float -> float) (u v : list float)
  : result (list float) :=
  if decide (length u = length v) then Ok (zip_with op u v)
  else match u, v with
       | [a], _ => Ok (map (op a) v)
       | _, [b] => Ok (map (fun a => op a b) u)
       | _, _ => Raise ValueError
       end.

(** [arr.sum()] and [arr.mean(axis=0)] of a 1-d array. The order in which
    NumPy adds the entries is its own; here it is left to right from 0. *)
Definition np_sum (l : list float) : float := foldl add 0 l.
Definition np_mean (l : list float) : float := np_sum l / F64.of_nat (length l).

(** All rows of a 2-d array have [cols] columns. *)
Definition has_cols (cols : nat) (arr : list (list float)) : Prop :=
  Forall (fun row => length row = cols) arr.

(** [arr[i] = v] on a 2-d array: [v] must have the row's shape or length 1. *)
Definition setitem_row (arr : list (list float)) (i : nat) (v : list float)
  : result (list (list float)) :=
  match arr !! i with
  | None => Raise IndexError
  | Some row =>
      if decide (length v = length row) then Ok (<[i := v]> arr)
      else match v with
           | [a] => Ok (<[i := replicate (length row) a]> arr)
           | _ => Raise ValueError
           end
  end.

(** [arr[indexes]]: the rows at the given positions. *)
Fixpoint take_rows (arr : population) (indexes : list nat)
  : result population :=
  match indexes with
  | [] => Ok []
  | i :: rest =>
      match arr !! i with
      | None => Raise IndexError
      | Some row => bind (take_rows arr rest) (fun rows => Ok (row :: rows))
      end
  end.

(** Python's [min] over a list: the first item is kept until a later one
    compares strictly smaller. The position is kept with the value, since the
    value returned is that very list item. *)
Fixpoint min_scan (best : nat * float) (i : nat) (l : list float)
  : nat * float :=
  match l with
  | [] => best
  | x :: l' => min_scan (if x <? best.2 then (i, x) else best) (S i) l'
  end.

Definition py_min (l : list float) : result (nat * float) :=
  match l with
  | [] => Raise ValueError
  | x :: l' => Ok (min_scan (0%nat, x) 1 l')
  end.

(** [list.index(v)]: the first position whose item is [v] itself or compares
    equal to it. *)
Fixpoint index_from (i : nat) (l : list float) (v : nat * float)
  : result nat :=
  match l with
  | [] => Raise ValueError
  | x :: l' =>
      if (i =? v.1)%nat || (x =? v.2) then Ok i
      else index_from (S i) l' v
  end.

Definition py_index (l : list float) (v : nat * float) : result nat :=
  index_from 0 l v.

(** *** The target and the fitness function *)

(** The module-level globals [target_x], [target_y]; a tap stream delivers
    [None] or a number. *)
Record globals : Type := Globals {
  target_x : option float;
  target_y : option float
}.

(** [mean_squared_error(y_true, y_pred)]:
    [((y_true - y_pred)**2).mean(axis=0)]. *)
Definition mean_squared_error (y_true y_pred : list float) : result float :=
  bind (broadcast sub y_true y_pred) (fun diff =>
  Ok (np_mean (map (fun d => d * d) diff))).

(** [problem(soln)], reading the globals. A [None] target makes the
    subtraction a type error. *)
Definition problem (g : globals) (soln : individual) : result float :=
  match target_x g, target_y g with
  | Some tx, Some ty => mean_squared_error soln [tx; ty]
  | _, _ => Raise TypeError
  end.

(** The plot element a callback returns. *)
Inductive hv_Points : Type :=
| Points (x y : option float) (z : float).

(** [tap_event(x, y)]: the globals after the call, and the returned element. *)
Definition tap_event (x y : option float) (g : globals)
  : globals * hv_Points :=
  let g :=
    match x with
    | Some _ => {| target_x := x; target_y := y |}
    | None => g
    end in
  (g, Points x y 1).

(** *** Selection *)

(** [assess_fitness(individual, problem)]. *)
Definition assess_fitness (ind : individual) (problem : individual -> float)
  : float :=
  problem ind.

(** [find_current_best(population, problem)], for a [problem] that returns
    a fitness. *)
Definition find_current_best (pop : population)
    (problem : individual -> float) : result individual :=
  let fitnesses := map (fun x => assess_fitness x problem) pop in
  bind (py_min fitnesses) (fun best_value =>
  bind (py_index fitnesses best_value) (fun best_index =>
  match pop !! best_index with
  | Some ind => Ok ind
  | None => Raise IndexError
  end)).

(** *** Stand-ins to run the code

    A deterministic generator whose state is a counter and which, like the
    libraries, refuses an empty range and a negative scale with a
    [ValueError]; an objective that is [nan] left of the origin; and the
    claims' readings of "same size" and "fittest". *)

Definition toy_choice (a size : nat) (w : nat) : result (list nat) * nat :=
  if (a =? 0)%nat then (Raise ValueError, w)
  else (Ok (map (fun k => (w + k) mod a)%nat (seq 0 size)), (w + size)%nat).

Definition toy_randint (lo hi : nat) (w : nat) : result nat * nat :=
  if (hi <? lo)%nat then (Raise ValueError, w)
  else (Ok (lo + w mod (hi - lo + 1))%nat, S w).

Definition toy_uniform (lo hi : float) (w : nat) : result float * nat :=
  (Ok (if Nat.even w then lo else hi), S w).

Definition toy_normal (loc scale : float) (size : nat) (w : nat)
  : result (list float) * nat :=
  if scale <? 0 then (Raise ValueError, w)
  else (Ok (map (fun k => loc + scale * (F64.of_nat ((w + k) mod 3) - 1))
              (seq 0 size)),
        (w + size)%nat).

(** The scales the stand-in accepts. *)
Definition toy_valid_scale (scale : float) : Prop := (scale <? 0) = false.

Definition toy_uninitialised (i j : nat) : float := 0.

Definition toy_rand (rows cols : nat) (w : nat)
  : result (list (list float)) * nat :=
  (Ok (map (fun i => map (fun j => F64.of_nat ((w + i + j) mod 8) / 8)
                       (seq 0 cols))
           (seq 0 rows)),
   (w + rows * cols)%nat).

(** Four individuals in the unit square. *)
Definition toy_population : population :=
  [[0.25; 0.5]; [0.75; 0.125]; [0.5; 0.5]; [0.125; 0.875]].

(** The square root of the first coordinate. *)
Definition sqrt_problem (soln : individual) : float :=
  sqrt (default 0 (head soln)).

(** The squared distance from the origin. *)
Definition sphere_problem (soln : individual) : float :=
  np_sum (map (fun d => d * d) soln).

(** The outcome is a population with as many individuals as [pop]. *)
Definition returns_same_size {W} (pop : population)
    (out : result population * W) : Prop :=
  exists next, out.1 = Ok next /\ length next = length pop.

(** [best] is returned and its fitness is at most that of every member. *)
Definition returns_minimum (pop : population) (problem : individual -> float)
    (r : result individual) : Prop :=
  exists best, r = Ok best /\ best ∈ pop /\
               forall c, c ∈ pop -> (problem best <=? problem c) = true.

(** *** The random draws

    [random] and [np.random] keep generator state between calls, and
    [np.empty] returns whatever the allocator holds. The state of these
    libraries is threaded through the code as a [world]; the calls themselves
    are parameters, and like any call they return or raise. *)

Section Generation.
Variable world : Type.

(** Code that draws and may raise. *)
Definition M (A : Type) : Type := world -> result A * world.

(** [np.random.choice(a, size, replace=True)]. *)
Variable np_random_choice : nat -> nat -> M (list nat).
(** [random.randint(lo, hi)], both ends included. *)
Variable random_randint : nat -> nat -> M nat.
(** [random.uniform(lo, hi)]. *)
Variable random_uniform : float -> float -> M float.
(** [np.random.normal(loc, scale, size)]. *)
Variable np_random_normal : float -> float -> nat -> M (list float).
(** The content of cell (i, j) of a fresh [np.empty] array. *)
Variable uninitialised : nat -> nat -> float.

Definition ret {A} (a : A) : M A := fun w => (Ok a, w).

Definition bindM {A B} (m : M A) (k : A -> M B) : M B :=
  fun w =>
    match m w with
    | (Ok a, w') => k a w'
    | (Raise e, w') => (Raise e, w')
    end.

(** A pure step that may raise. *)
Definition lift {A} (r : result A) : M A := fun w => (r, w).

Local Notation "'let*' x ':=' m 'in' k" := (bindM m (fun x => k))
  (at level 10, x pattern, m at level 100, k at level 200).

(** [for i in range(n)] over a loop-carried value. *)
Fixpoint for_range {S} (from count : nat) (body : nat -> S -> M S) (s : S)
  : M S :=
  match count with
  | O => ret s
  | Datatypes.S count' =>
      let* s' := body from s in for_range (Datatypes.S from) count' body s'
  end.

(** [np.empty((rows, cols))]. *)
Definition np_empty (rows cols : nat) : list (list float) :=
  map (fun i => map (uninitialised i) (seq 0 cols)) (seq 0 rows).

(** [tournament_select_with_replacement(population, tournament_size,
    problem)]. *)
Definition tournament_select_with_replacement (pop : population)
    (tournament_size : nat) (problem : individual -> float) : M individual :=
  let* challengers_indexes := np_random_choice (length pop) tournament_size in
  let* challengers := lift (take_rows pop challengers_indexes) in
  lift (find_current_best challengers problem).

(** [crossover(parent_a, parent_b)]. *)
Definition crossover (parent_a parent_b : individual)
  : M (individual * individual) :=
  let l := length parent_a in
  let* c := random_randint 0 l in
  let* d := random_randint 0 l in
  let '(c, d) := if (d <? c)%nat then (d, c) else (c, d) in
  let d := if (c =? d)%nat then (d + 1)%nat else d in
  let temp := parent_a in
  let child_a := slice parent_a 0 c ++ slice parent_b c d ++ drop d parent_a in
  let child_b := slice parent_b 0 c ++ slice temp c d ++ drop d parent_b in
  ret (child_a, child_b).

(** [mutate(child, mutation_rate, mutation_scale)]. *)
Definition mutate (child : individual) (mutation_rate mutation_scale : float)
  : M individual :=
  let* u := random_uniform 0 1 in
  if u <=? mutation_rate then
    let size := length child in
    let* mutation_value := np_random_normal 0 mutation_scale size in
    lift (broadcast add child mutation_value)
  else ret child.

(** The body of the loop of [update_population]. [pop_size / 2] is a float
    there; [range(int(.))] and the index [int(i + pop_size / 2)] truncate it,
    which is the integer quotient. *)
Definition update_body (current_population : population)
    (problem : individual -> float) (should_mutate : bool)
    (mutation_rate mutation_scale : float) (pop_size tournament_size : nat)
    (i : nat) (next_population : population) : M population :=
  let* parent_a :=
    tournament_select_with_replacement
      current_population tournament_size problem in
  let* parent_b :=
    tournament_select_with_replacement
      current_population tournament_size problem in
  let* (child_a, child_b) := crossover parent_a parent_b in
  let* row_a :=
    (if should_mutate then mutate child_a mutation_rate mutation_scale
     else ret child_a) in
  let* next_population := lift (setitem_row next_population i row_a) in
  let position_child_b := (i + pop_size / 2)%nat in
  let* row_b :=
    (if should_mutate then mutate child_b mutation_rate mutation_scale
     else ret child_b) in
  lift (setitem_row next_population position_child_b row_b).

(** [update_population(current_population, problem, should_mutate,
    mutation_rate, mutation_scale)]. *)
Definition update_population (current_population : population)
    (problem : individual -> float) (should_mutate : bool)
    (mutation_rate mutation_scale : float) : M population :=
  let pop_size := length current_population in
  let next_population := np_empty pop_size 2 in
  let tournament_size := 2%nat in
  for_range 0 (pop_size / 2)
    (update_body current_population problem should_mutate
       mutation_rate mutation_scale pop_size tournament_size)
    next_population.

(** The fields of a [GeneticAlgorithm] object ([ga_problem] is
    [self.problem]). *)
Record GeneticAlgorithm : Type := {
  ga_problem : individual -> float;
  current_population : population;
  current_best : individual
}.

(** [GeneticAlgorithm.next_generation(mrate, mscale, should_mutate)]: the
    object after the call and how the call ended. An exception leaves the
    fields assigned before it. *)
Definition next_generation (self : GeneticAlgorithm)
    (mrate mscale : float) (should_mutate : bool) (w : world)
  : GeneticAlgorithm * result unit * world :=
  match update_population (current_population self) (ga_problem self)
          should_mutate mrate mscale w with
  | (Raise e, w') => (self, Raise e, w')
  | (Ok pop, w') =>
      let self := {| ga_problem := ga_problem self;
                     current_population := pop;
                     current_best := current_best self |} in
      match find_current_best (current_population self) (ga_problem self) with
      | Raise e => (self, Raise e, w')
      | Ok best =>
          ({| ga_problem := ga_problem self;
              current_population := current_population self;
              current_best := best |}, Ok tt, w')
      end
  end.

(** *** Facts about selection *)

(** [s] is not strictly below [m]. *)
Local Abbreviation not_below s m := ((s <? m) = false).

Lemma not_below_step s x m :
  not_below s m -> (x <? m) = true -> not_below s x.
Proof.
  intros Hs Hx. destruct (s <? x) eqn:E; [|reflexivity].
  rewrite (F64.ltb_trans _ _ _ E Hx) in Hs. discriminate.
Qed.

(** What was not below the running minimum is not below the final one. *)
Lemma min_scan_below l : forall best i s,
  not_below s best.2 -> not_below s (min_scan best i l).2.
Proof.
  induction l as [|x l IH]; intros best i s Hs; simpl; [exact Hs|].
  apply IH. destruct (x <? best.2) eqn:E; simpl; [|exact Hs].
  eapply not_below_step; eassumption.
Qed.

(** No scanned item is strictly below the result. *)
Lemma min_scan_min l : forall best i x,
  x ∈ l -> not_below x (min_scan best i l).2.
Proof.
  induction l as [|y l IH]; intros best i x Hx; [by apply elem_of_nil in Hx|].
  apply elem_of_cons in Hx as [->|Hx]; simpl; [|by apply IH].
  apply min_scan_below. destruct (y <? best.2) eqn:E; simpl.
  - apply F64.ltb_irrefl.
  - exact E.
Qed.

(** The result is the starting item, or sits in the list at its position. *)
Lemma min_scan_pos l : forall best i,
  min_scan best i l = best \/
  exists j, l !! j = Some (min_scan best i l).2 /\
            (min_scan best i l).1 = (i + j)%nat.
Proof.
  induction l as [|x l IH]; intros best i; simpl; [by left|].
  destruct (IH (if x <? best.2 then (i, x) else best) (S i)) as [Heq|(j & Hj & Hp)].
  - rewrite Heq. destruct (x <? best.2); [|by left].
    right. exists 0%nat. simpl. split; [done|lia].
  - right. exists (S j). simpl. split; [done|lia].
Qed.

Lemma py_min_spec l :
  l <> [] ->
  exists pos m, py_min l = Ok (pos, m) /\ l !! pos = Some m /\
                forall x, x ∈ l -> not_below x m.
Proof.
  destruct l as [|x l]; [done|]. intros _. simpl.
  destruct (min_scan (0%nat, x) 1 l) as [pos m] eqn:E.
  exists pos, m. split; [done|]. split.
  - destruct (min_scan_pos l (0%nat, x) 1) as [Heq|(j & Hj & Hp)];
      rewrite E in *; simpl in *.
    + by injection Heq as -> ->.
    + by subst pos.
  - intros y Hy. apply elem_of_cons in Hy as [->|Hy].
    + change m with (pos, m).2. rewrite <- E. apply min_scan_below.
      apply F64.ltb_irrefl.
    + change m with (pos, m).2. rewrite <- E. by apply min_scan_min.
Qed.

(** [index] finds the item itself or an earlier one that compares equal. *)
Lemma index_from_spec l : forall i pos m,
  l !! pos = Some m ->
  exists j, index_from i l (i + pos, m)%nat = Ok (i + j)%nat /\
            exists x, l !! j = Some x /\ (j = pos \/ (x =? m) = true).
Proof.
  induction l as [|x l IH]; intros i pos m Hpos; [done|]. simpl.
  destruct pos as [|pos].
  - exists 0%nat. rewrite Nat.add_0_r, Nat.eqb_refl. simpl.
    split; [done|]. exists x. split; [done|by left].
  - destruct ((i =? i + S pos)%nat) eqn:E1; [apply Nat.eqb_eq in E1; lia|].
    simpl. destruct (x =? m) eqn:E2.
    + exists 0%nat. rewrite Nat.add_0_r. split; [done|].
      exists x. split; [done|by right].
    + simpl in Hpos. destruct (IH (S i) pos m Hpos) as (j & Hj & y & Hy & Hor).
      exists (S j). replace (i + S pos)%nat with (S i + pos)%nat by lia.
      replace (i + S j)%nat with (S i + j)%nat by lia.
      split; [done|]. exists y. split; [done|]. destruct Hor; [left; lia|by right].
Qed.

(** [find_current_best] on a non-empty population returns one of its members,
    and no member has a strictly lower fitness. *)
Lemma find_current_best_spec (pop : population) (problem : individual -> float) :
  pop <> [] ->
  exists best, find_current_best pop problem = Ok best /\ best ∈ pop /\
               forall c, c ∈ pop -> not_below (problem c) (problem best).
Proof.
  intros Hne. unfold find_current_best.
  change (map (fun x => assess_fitness x problem) pop) with (map problem pop).
  destruct (py_min_spec (map problem pop)) as (pos & m & -> & Hpos & Hmin).
  { by destruct pop. }
  simpl. unfold py_index.
  destruct (index_from_spec (map problem pop) 0 pos m Hpos)
    as (j & Hj & x & Hx & Hor).
  simpl in Hj. rewrite Hj. simpl. rewrite list_lookup_fmap in Hx.
  destruct (pop !! j) as [best|] eqn:Hbest; [|discriminate Hx].
  simpl in Hx. injection Hx as <-.
  exists best. split; [done|]. split; [by eapply list_elem_of_lookup_2|].
  intros c Hc.
  assert (not_below (problem c) m) as Hcm
    by (apply Hmin, list_elem_of_fmap; eauto).
  destruct Hor as [->|Heq].
  - rewrite list_lookup_fmap, Hbest in Hpos. by injection Hpos as ->.
  - eapply F64.ltb_eqb_r; eassumption.
Qed.

(** Without [nan] fitnesses the result is a minimum of the fitness. *)
Lemma find_current_best_min (pop : population) (problem : individual -> float) :
  pop <> [] ->
  (forall c, c ∈ pop -> is_nan (problem c) = false) ->
  exists best, find_current_best pop problem = Ok best /\ best ∈ pop /\
               forall c, c ∈ pop -> (problem best <=? problem c) = true.
Proof.
  intros Hne Hnan.
  destruct (find_current_best_spec pop problem Hne) as (best & Hb & Hin & Hmin).
  exists best. split; [done|]. split; [done|].
  intros c Hc. apply F64.ltb_false_leb; auto.
Qed.

(** *** Facts about one generation

    What the library calls are taken to do on arguments they accept:
    [choice] over a non-empty range returns [size] indexes below [a],
    [randint] over a non-empty range a number between its bounds, [uniform]
    a number, and [normal] with a scale it accepts an array of the requested
    size. *)

(** The scales [np.random.normal] accepts. *)
Variable valid_scale : float -> Prop.

Hypothesis choice_in_range : forall a size w,
  (0 < a)%nat ->
  exists indexes w',
    np_random_choice a size w = (Ok indexes, w') /\
    length indexes = size /\ Forall (fun i => (i < a)%nat) indexes.
Hypothesis randint_in_range : forall lo hi w,
  (lo <= hi)%nat ->
  exists r w', random_randint lo hi w = (Ok r, w') /\ (lo <= r <= hi)%nat.
Hypothesis uniform_returns : forall lo hi w,
  exists u w', random_uniform lo hi w = (Ok u, w').
Hypothesis normal_size : forall loc scale size w,
  valid_scale scale ->
  exists values w',
    np_random_normal loc scale size w = (Ok values, w') /\
    length values = size.

Lemma np_empty_shape rows cols :
  length (np_empty rows cols) = rows /\ has_cols cols (np_empty rows cols).
Proof.
  unfold np_empty, has_cols. split.
  - by rewrite length_map, length_seq.
  - apply Forall_forall. intros row Hrow.
    apply list_elem_of_fmap in Hrow as (i & -> & _).
    by rewrite length_map, length_seq.
Qed.

Lemma setitem_row_length arr i v arr' :
  setitem_row arr i v = Ok arr' -> length arr' = length arr.
Proof.
  unfold setitem_row. destruct (arr !! i) as [row|]; [|done].
  destruct (decide _).
  - intros [= <-]. apply length_insert.
  - destruct v as [|a [|? ?]]; try done. intros [= <-]. apply length_insert.
Qed.

Lemma setitem_row_other arr i v arr' j :
  setitem_row arr i v = Ok arr' -> j <> i -> arr' !! j = arr !! j.
Proof.
  unfold setitem_row. destruct (arr !! i) as [row|]; [|done].
  destruct (decide _).
  - intros [= <-] Hne. by apply list_lookup_insert_ne.
  - destruct v as [|a [|? ?]]; try done. intros [= <-] Hne.
    by apply list_lookup_insert_ne.
Qed.

Lemma np_empty_lookup rows cols j :
  (j < rows)%nat ->
  np_empty rows cols !! j = Some (map (uninitialised j) (seq 0 cols)).
Proof.
  intros Hj. unfold np_empty. rewrite list_lookup_fmap.
  by rewrite lookup_seq_lt.
Qed.

Lemma setitem_row_ok cols arr i v :
  (i < length arr)%nat -> has_cols cols arr -> length v = cols ->
  exists arr', setitem_row arr i v = Ok arr' /\
               length arr' = length arr /\ has_cols cols arr'.
Proof.
  intros Hi Harr Hv. unfold setitem_row.
  destruct (lookup_lt_is_Some_2 arr i Hi) as [row Hrow]. rewrite Hrow.
  assert (length row = cols) as Hlen.
  { eapply (proj1 (Forall_forall _ _) Harr), list_elem_of_lookup_2, Hrow. }
  rewrite decide_True by congruence.
  eexists. split; [done|]. split; [apply length_insert|].
  unfold has_cols. by apply Forall_insert.
Qed.

Lemma take_rows_spec (pop : population) indexes :
  Forall (fun i => (i < length pop)%nat) indexes ->
  exists rows, take_rows pop indexes = Ok rows /\
               length rows = length indexes /\
               forall r, r ∈ rows -> r ∈ pop.
Proof.
  induction indexes as [|i rest IH]; intros Hall; simpl.
  - exists []. split; [done|]. split; [done|]. intros r Hr.
    by apply elem_of_nil in Hr.
  - apply Forall_cons in Hall as [Hi Hrest].
    destruct (lookup_lt_is_Some_2 pop i Hi) as [row Hrow]. rewrite Hrow.
    destruct (IH Hrest) as (rows & -> & Hlen & Hin). simpl.
    exists (row :: rows). split; [done|]. split; [simpl; lia|].
    intros r Hr. apply elem_of_cons in Hr as [->|Hr]; [|by apply Hin].
    by eapply list_elem_of_lookup_2.
Qed.

(** A tournament over a non-empty population returns; the winner is one of
    the drawn challengers, none of which has a strictly lower fitness. *)
Lemma tournament_spec (pop : population) tournament_size problem w :
  pop <> [] -> (0 < tournament_size)%nat ->
  exists indexes challengers best w',
    np_random_choice (length pop) tournament_size w = (Ok indexes, w') /\
    take_rows pop indexes = Ok challengers /\
    length challengers = tournament_size /\
    tournament_select_with_replacement pop tournament_size problem w
      = (Ok best, w') /\
    best ∈ challengers /\ best ∈ pop /\
    find_current_best challengers problem = Ok best /\
    forall c, c ∈ challengers -> not_below (problem c) (problem best).
Proof.
  intros Hne Hts.
  assert (0 < length pop)%nat as Hlen by (destruct pop; simpl; [done|lia]).
  destruct (choice_in_range (length pop) tournament_size w Hlen)
    as (idx & w' & Hdraw & Hsize & Hidx).
  unfold tournament_select_with_replacement, bindM, lift. rewrite Hdraw.
  destruct (take_rows_spec pop idx Hidx) as (challengers & Hrows & Hl & Hin).
  rewrite Hrows.
  assert (challengers <> []) as Hc by (destruct challengers; simpl in *; [lia|done]).
  destruct (find_current_best_spec challengers problem Hc)
    as (best & Hbest & Hbin & Hmin).
  exists idx, challengers, best, w'. rewrite Hbest.
  repeat split; try done; [congruence | by apply Hin].
Qed.

Lemma length_slice (a : list float) lo hi :
  length (slice a lo hi) = Nat.min (hi - lo) (length a - lo).
Proof. unfold slice. by rewrite length_take, length_drop. Qed.

(** Swapping the middle part keeps the length, also when [d] is one past
    the end. *)
Lemma crossover_child_length (a b : list float) c d :
  length b = length a -> (c <= length a)%nat -> (c < d)%nat ->
  length (slice a 0 c ++ slice b c d ++ drop d a) = length a.
Proof.
  intros Hlen Hc Hcd.
  rewrite !length_app, !length_slice, length_drop, Hlen. lia.
Qed.

(** Crossover of two parents of one length returns two children of that
    length. *)
Lemma crossover_spec (parent_a parent_b : individual) w :
  length parent_b = length parent_a ->
  exists child_a child_b w',
    crossover parent_a parent_b w = (Ok (child_a, child_b), w') /\
    length child_a = length parent_a /\ length child_b = length parent_a.
Proof.
  intros Hlen. unfold crossover, bindM, ret.
  destruct (randint_in_range 0 (length parent_a) w (Nat.le_0_l _))
    as (c & w1 & -> & Hc).
  destruct (randint_in_range 0 (length parent_a) w1 (Nat.le_0_l _))
    as (d & w2 & -> & Hd).
  assert (forall c' d', (c' <= length parent_a)%nat -> (c' < d')%nat ->
            length (slice parent_a 0 c' ++ slice parent_b c' d' ++ drop d' parent_a)
              = length parent_a /\
            length (slice parent_b 0 c' ++ slice parent_a c' d' ++ drop d' parent_b)
              = length parent_a) as Hchild.
  { intros c' d' Hc' Hcd'. split.
    - by apply crossover_child_length.
    - rewrite <- Hlen. apply crossover_child_length; [done|lia|done]. }
  destruct (d <? c)%nat eqn:Hdc;
    [apply Nat.ltb_lt in Hdc | apply Nat.ltb_ge in Hdc].
  - rewrite (proj2 (Nat.eqb_neq d c)) by lia.
    do 3 eexists. split; [reflexivity|]. apply Hchild; lia.
  - destruct (c =? d)%nat eqn:Hcd;
      [apply Nat.eqb_eq in Hcd | apply Nat.eqb_neq in Hcd];
      do 3 eexists; (split; [reflexivity|]); apply Hchild; lia.
Qed.

(** Mutation with a scale the library accepts returns an individual of the
    same length. *)
Lemma mutate_spec (child : individual) mutation_rate mutation_scale w :
  valid_scale mutation_scale ->
  exists child' w',
    mutate child mutation_rate mutation_scale w = (Ok child', w') /\
    length child' = length child.
Proof.
  intros Hscale. unfold mutate, bindM, ret, lift.
  destruct (uniform_returns 0 1 w) as (u & w1 & ->).
  destruct (u <=? mutation_rate); [|by eauto].
  destruct (normal_size 0 mutation_scale (length child) w1 Hscale)
    as (mv & w2 & -> & Hn).
  unfold broadcast. rewrite decide_True by done.
  do 2 eexists. split; [reflexivity|]. rewrite length_zip_with. lia.
Qed.

Lemma for_range_inv {S} (P : S -> Prop) (body : nat -> S -> M S) count :
  forall from s w,
  (forall i s w, (from <= i < from + count)%nat -> P s ->
     exists s' w', body i s w = (Ok s', w') /\ P s') ->
  P s ->
  exists s' w', for_range from count body s w = (Ok s', w') /\ P s'.
Proof.
  induction count as [|count IH]; intros from s w Hbody Hs; simpl.
  - by exists s, w.
  - unfold bindM. destruct (Hbody from s w) as (s1 & w1 & -> & Hs1); [lia|done|].
    apply IH; [|done]. intros i s2 w2 Hi. apply Hbody. lia.
Qed.

Lemma for_range_preserves {S} (f : S -> nat) (body : nat -> S -> M S) count :
  (forall i s w s' w', body i s w = (Ok s', w') -> f s' = f s) ->
  forall from s w s' w',
  for_range from count body s w = (Ok s', w') -> f s' = f s.
Proof.
  intros Hbody. induction count as [|count IH]; intros from s w s' w'; simpl.
  - unfold ret. by intros [= -> ->].
  - unfold bindM. destruct (body from s w) as [[s1|e] w1] eqn:E; [|done].
    intros Hrest. rewrite (IH _ _ _ _ _ Hrest). by eapply Hbody.
Qed.

Lemma for_range_preserves_in {St X} (f : St -> X) (body : nat -> St -> M St)
    count :
  forall from,
  (forall i s w s' w', (from <= i < from + count)%nat ->
     body i s w = (Ok s', w') -> f s' = f s) ->
  forall s w s' w',
  for_range from count body s w = (Ok s', w') -> f s' = f s.
Proof.
  induction count as [|count IH]; intros from Hbody s w s' w'; simpl.
  - unfold ret. by intros [= -> ->].
  - unfold bindM. destruct (body from s w) as [[s1|e] w1] eqn:E; [|done].
    intros Hrest.
    rewrite (IH (S from)) with (s := s1) (w := w1) (w' := w');
      [|intros; eapply Hbody; [|eassumption]; lia|done].
    eapply Hbody; [|eassumption]. lia.
Qed.

Section Update.
Variables (current_population : population) (problem : individual -> float)
  (should_mutate : bool) (mutation_rate mutation_scale : float).

Let pop_size := length current_population.
Let body := update_body current_population problem should_mutate
              mutation_rate mutation_scale pop_size 2.

Hypothesis scale_accepted : valid_scale mutation_scale.

Lemma maybe_mutate_spec (child : individual) w :
  exists child' w',
    (if should_mutate then mutate child mutation_rate mutation_scale
     else ret child) w = (Ok child', w') /\
    length child' = length child.
Proof. destruct should_mutate; [by apply mutate_spec|by exists child, w]. Qed.

(** One turn of the loop fills two rows and returns. *)
Lemma update_body_spec i next w :
  has_cols 2 current_population ->
  (i < pop_size / 2)%nat ->
  length next = pop_size -> has_cols 2 next ->
  exists next' w',
    body i next w = (Ok next', w') /\
    length next' = pop_size /\ has_cols 2 next'.
Proof.
  intros Hpop Hi Hlen Hnext.
  assert (2 <= pop_size)%nat as Hsize.
  { destruct (Nat.lt_ge_cases pop_size 2) as [Hlt|]; [|done].
    rewrite Nat.div_small in Hi by done. lia. }
  assert (current_population <> []) as Hne.
  { subst pop_size. destruct current_population; simpl in *; [lia|done]. }
  assert (forall r, r ∈ current_population -> length r = 2%nat) as Hrow.
  { by apply Forall_forall. }
  unfold body, update_body.
  destruct (tournament_spec current_population 2 problem w Hne)
    as (_ & _ & parent_a & w1 & _ & _ & _ & Ha & _ & Hain & _); [lia|].
  unfold bindM at 1. rewrite Ha.
  destruct (tournament_spec current_population 2 problem w1 Hne)
    as (_ & _ & parent_b & w2 & _ & _ & _ & Hb & _ & Hbin & _); [lia|].
  unfold bindM at 1. rewrite Hb.
  destruct (crossover_spec parent_a parent_b w2)
    as (child_a & child_b & w3 & Hc & Hca & Hcb).
  { by rewrite (Hrow _ Hain), (Hrow _ Hbin). }
  unfold bindM at 1. rewrite Hc.
  destruct (maybe_mutate_spec child_a w3) as (row_a & w4 & Hma & Hla).
  unfold bindM at 1. rewrite Hma.
  destruct (setitem_row_ok 2 next i row_a) as (next1 & Hs1 & Hl1 & Hc1);
    [ pose proof (Nat.Div0.mul_div_le pop_size 2); lia | done
    | by rewrite Hla, Hca, (Hrow _ Hain) | ].
  unfold bindM at 1, lift at 1. rewrite Hs1.
  destruct (maybe_mutate_spec child_b w4) as (row_b & w5 & Hmb & Hlb).
  unfold bindM at 1. rewrite Hmb.
  destruct (setitem_row_ok 2 next1 (i + pop_size / 2) row_b)
    as (next2 & Hs2 & Hl2 & Hc2);
    [ pose proof (Nat.Div0.mul_div_le pop_size 2); lia | done
    | by rewrite Hlb, Hcb, (Hrow _ Hain) | ].
  unfold lift. rewrite Hs2. exists next2, w5.
  split; [done|]. split; [lia|done].
Qed.

(** A turn that returns leaves the number of rows as it was. *)
Lemma update_body_length i next w next' w' :
  body i next w = (Ok next', w') -> length next' = length next.
Proof.
  unfold body, update_body, bindM, lift.
  destruct (tournament_select_with_replacement _ _ _ w) as [[parent_a|?] w1];
    [|done].
  destruct (tournament_select_with_replacement _ _ _ w1) as [[parent_b|?] w2];
    [|done].
  destruct (crossover parent_a parent_b w2) as [[[child_a child_b]|?] w3];
    [|done].
  destruct ((if should_mutate
             then mutate child_a mutation_rate mutation_scale
             else ret child_a) w3) as [[row_a|?] w4]; [|done].
  destruct (setitem_row next i row_a) as [next1|?] eqn:Hs1; [|done].
  destruct ((if should_mutate
             then mutate child_b mutation_rate mutation_scale
             else ret child_b) w4) as [[row_b|?] w5]; [|done].
  destruct (setitem_row next1 _ row_b) as [next2|?] eqn:Hs2; [|done].
  intros [= <- <-].
  by rewrite (setitem_row_length _ _ _ _ Hs2), (setitem_row_length _ _ _ _ Hs1).
Qed.

(** A turn that returns writes rows [i] and [i + pop_size / 2] only. *)
Lemma update_body_frame i next w next' w' j :
  body i next w = (Ok next', w') ->
  j <> i -> j <> (i + pop_size / 2)%nat -> next' !! j = next !! j.
Proof.
  unfold body, update_body, bindM, lift.
  destruct (tournament_select_with_replacement _ _ _ w) as [[parent_a|?] w1];
    [|done].
  destruct (tournament_select_with_replacement _ _ _ w1) as [[parent_b|?] w2];
    [|done].
  destruct (crossover parent_a parent_b w2) as [[[child_a child_b]|?] w3];
    [|done].
  destruct ((if should_mutate
             then mutate child_a mutation_rate mutation_scale
             else ret child_a) w3) as [[row_a|?] w4]; [|done].
  destruct (setitem_row next i row_a) as [next1|?] eqn:Hs1; [|done].
  destruct ((if should_mutate
             then mutate child_b mutation_rate mutation_scale
             else ret child_b) w4) as [[row_b|?] w5]; [|done].
  destruct (setitem_row next1 _ row_b) as [next2|?] eqn:Hs2; [|done].
  intros [= <- <-] Hi Hb.
  rewrite (setitem_row_other _ _ _ _ _ Hs2) by done.
  by rewrite (setitem_row_other _ _ _ _ _ Hs1).
Qed.

(** [update_population] returns for a population of 2-vectors. *)
Lemma update_population_returns w :
  has_cols 2 current_population ->
  exists next w',
    update_population current_population problem should_mutate
      mutation_rate mutation_scale w = (Ok next, w') /\
    length next = pop_size /\ has_cols 2 next.
Proof.
  intros Hpop. unfold update_population. fold pop_size. fold body.
  destruct (np_empty_shape pop_size 2) as [Hlen Hcols].
  apply (for_range_inv
           (fun next => length next = pop_size /\ has_cols 2 next)); [|done].
  intros i next w0 Hi [Hl Hc]. apply update_body_spec; try done. lia.
Qed.

(** Whenever [update_population] returns, the result has as many rows as
    the population it was given. *)
Lemma update_population_length w next w' :
  update_population current_population problem should_mutate
    mutation_rate mutation_scale w = (Ok next, w') ->
  length next = pop_size.
Proof.
  unfold update_population. fold pop_size. fold body. intros Hrun.
  rewrite (for_range_preserves (@length (list float)) body _
             update_body_length _ _ _ _ _ Hrun).
  apply np_empty_shape.
Qed.

(** X1. For a population of 2-vectors of odd size, [update_population]
    never writes the last row of the next population: it is returned as
    [np.empty] allocated it. *)
Theorem update_population_odd_last_row w :
  has_cols 2 current_population -> Nat.odd pop_size = true ->
  exists next w',
    update_population current_population problem should_mutate
      mutation_rate mutation_scale w = (Ok next, w') /\
    next !! (pop_size - 1)%nat
    = Some [uninitialised (pop_size - 1) 0; uninitialised (pop_size - 1) 1].
Proof.
  intros Hpop Hodd.
  destruct (update_population_returns w Hpop) as (next & w' & Hrun & _).
  exists next, w'. split; [exact Hrun|].
  unfold update_population in Hrun. fold pop_size in Hrun. fold body in Hrun.
  assert (pop_size = 2 * (pop_size / 2) + 1)%nat as Hsize.
  { rewrite (Nat.div_mod_eq pop_size 2) at 1.
    apply Nat.odd_spec in Hodd as [k Hk]. rewrite Hk at 2.
    replace (2 * k + 1)%nat with (1 + k * 2)%nat by lia.
    rewrite Nat.Div0.mod_add. reflexivity. }
  assert (forall i s w0 s' w0',
            (0 <= i < 0 + pop_size / 2)%nat ->
            body i s w0 = (Ok s', w0') ->
            s' !! (pop_size - 1)%nat = s !! (pop_size - 1)%nat) as Hframe.
  { intros i s w0 s' w0' Hi Hbody.
    apply (update_body_frame _ _ _ _ _ _ Hbody); lia. }
  rewrite (for_range_preserves_in (fun s => s !! (pop_size - 1)%nat) body
             (pop_size / 2) 0%nat Hframe _ _ _ _ Hrun).
  rewrite np_empty_lookup by lia. reflexivity.
Qed.

End Update.

(** [next_generation] never changes the size of [current_population]. *)
Lemma next_generation_length self mrate mscale should_mutate w :
  length (current_population (next_generation self mrate mscale should_mutate w).1.1)
  = length (current_population self).
Proof.
  unfold next_generation.
  destruct (update_population _ _ _ _ _ w) as [[pop|e] w'] eqn:Hrun; [|done].
  apply update_population_length in Hrun. simpl.
  by destruct (find_current_best pop (ga_problem self)).
Qed.

(** An exception of [update_population] is the outcome of
    [next_generation], which then assigns nothing. *)
Lemma next_generation_raises self mrate mscale should_mutate w e w' :
  update_population (current_population self) (ga_problem self)
    should_mutate mrate mscale w = (Raise e, w') ->
  next_generation self mrate mscale should_mutate w = (self, Raise e, w').
Proof. intros Hrun. unfold next_generation. by rewrite Hrun. Qed.

(** X2. On two parents of one length, [crossover] returns two children of
    that length, wherever the two cut points fall. *)
Theorem crossover_children_length (parent_a parent_b : individual) w :
  length parent_b = length parent_a ->
  exists child_a child_b w',
    crossover parent_a parent_b w = (Ok (child_a, child_b), w') /\
    length child_a = length parent_a /\ length child_b = length parent_b.
Proof.
  intros Hlen.
  destruct (crossover_spec parent_a parent_b w Hlen)
    as (child_a & child_b & w' & Hrun & Ha & Hb).
  exists child_a, child_b, w'. repeat split; congruence.
Qed.

(** C5, amended. For a non-empty population and [tournament_size >= 1] the
    tournament returns one of the drawn challengers, a member of the
    population, and no challenger has a strictly lower fitness; when no
    challenger's fitness is [nan], the winner's fitness is the minimum over
    the challengers. Likewise [find_current_best] over the population. *)
Theorem tournament_returns_fittest (pop : population) (tournament_size : nat)
    (problem : individual -> float) (w : world) :
  pop <> [] -> (1 <= tournament_size)%nat ->
  (exists indexes challengers best w',
     np_random_choice (length pop) tournament_size w = (Ok indexes, w') /\
     take_rows pop indexes = Ok challengers /\
     length challengers = tournament_size /\
     tournament_select_with_replacement pop tournament_size problem w
       = (Ok best, w') /\
     best ∈ pop /\ best ∈ challengers /\
     (forall c, c ∈ challengers -> (problem c <? problem best) = false) /\
     ((forall c, c ∈ challengers -> is_nan (problem c) = false) ->
      forall c, c ∈ challengers -> (problem best <=? problem c) = true)) /\
  (exists best,
     find_current_best pop problem = Ok best /\ best ∈ pop /\
     (forall c, c ∈ pop -> (problem c <? problem best) = false) /\
     ((forall c, c ∈ pop -> is_nan (problem c) = false) ->
      returns_minimum pop problem (find_current_best pop problem))).
Proof.
  intros Hne Hts. split.
  - destruct (tournament_spec pop tournament_size problem w Hne)
      as (idx & challengers & best & w' & Hdraw & Hrows & Hlen & Hrun
          & Hbc & Hbp & _ & Hmin);
      [lia|].
    exists idx, challengers, best, w'. repeat split; try done.
    intros Hnan c Hc. apply F64.ltb_false_leb; auto.
  - destruct (find_current_best_spec pop problem Hne) as (best & Hb & Hin & Hmin).
    exists best. repeat split; try done.
    intros Hnan. exists best. repeat split; try done.
    intros c Hc. apply F64.ltb_false_leb; auto.
Qed.

(** *** Crossover, position by position *)

(** The child built around the cut points [c < d] carries [b] inside them
    and [a] outside. *)
Lemma crossover_child_lookup (a b : list float) c d k :
  length b = length a -> (c <= length a)%nat -> (c < d)%nat ->
  (k < length a)%nat ->
  (slice a 0 c ++ slice b c d ++ drop d a) !! k
  = (if (c <=? k)%nat && (k <? d)%nat then b else a) !! k.
Proof.
  intros Hlen Hc Hcd Hk. unfold slice. rewrite drop_0, Nat.sub_0_r.
  destruct (Nat.lt_ge_cases k c) as [Hkc|Hkc].
  - rewrite (proj2 (Nat.leb_gt c k)) by done. simpl.
    rewrite lookup_app_l by (rewrite length_take; lia).
    by rewrite lookup_take_lt.
  - rewrite (proj2 (Nat.leb_le c k)) by done. simpl.
    rewrite lookup_app_r by (rewrite length_take; lia).
    rewrite length_take, Nat.min_l by done.
    destruct (Nat.lt_ge_cases k d) as [Hkd|Hkd].
    + rewrite (proj2 (Nat.ltb_lt k d)) by done.
      rewrite lookup_app_l by (rewrite length_take, length_drop; lia).
      rewrite lookup_take_lt by lia. rewrite lookup_drop. f_equal. lia.
    + rewrite (proj2 (Nat.ltb_ge k d)) by done.
      rewrite lookup_app_r by (rewrite length_take, length_drop; lia).
      rewrite length_take, length_drop, lookup_drop. f_equal. lia.
Qed.

(** The children are built around two cut points [c < d]. *)
Lemma crossover_cut_points (parent_a parent_b : individual) w :
  exists c d w',
    crossover parent_a parent_b w
    = (Ok (slice parent_a 0 c ++ slice parent_b c d ++ drop d parent_a,
           slice parent_b 0 c ++ slice parent_a c d ++ drop d parent_b), w') /\
    (c <= length parent_a)%nat /\ (c < d <= length parent_a + 1)%nat.
Proof.
  unfold crossover, bindM, ret.
  destruct (randint_in_range 0 (length parent_a) w (Nat.le_0_l _))
    as (r1 & w1 & -> & Hr1).
  destruct (randint_in_range 0 (length parent_a) w1 (Nat.le_0_l _))
    as (r2 & w2 & -> & Hr2).
  destruct (r2 <? r1)%nat eqn:Hlt;
    [apply Nat.ltb_lt in Hlt | apply Nat.ltb_ge in Hlt].
  - rewrite (proj2 (Nat.eqb_neq r2 r1)) by lia.
    exists r2, r1, w2. split; [reflexivity|lia].
  - destruct (r1 =? r2)%nat eqn:Heq;
      [apply Nat.eqb_eq in Heq | apply Nat.eqb_neq in Heq].
    + exists r1, (r2 + 1)%nat, w2. split; [reflexivity|lia].
    + exists r1, r2, w2. split; [reflexivity|lia].
Qed.

(** X8. Two-point crossover of two parents of one length exchanges the genes
    at the positions from [c] up to [d] and keeps every other gene where it
    was; [c < d], so when [c] is a position of the parents at least that gene
    is exchanged, and when [c] is past the end the children are copies of the
    parents. *)
Theorem crossover_swaps_segment (parent_a parent_b : individual) w :
  length parent_b = length parent_a ->
  exists c d child_a child_b w',
    crossover parent_a parent_b w = (Ok (child_a, child_b), w') /\
    (c <= length parent_a)%nat /\ (c < d <= length parent_a + 1)%nat /\
    forall k, (k < length parent_a)%nat ->
      child_a !! k
      = (if (c <=? k)%nat && (k <? d)%nat then parent_b else parent_a) !! k /\
      child_b !! k
      = (if (c <=? k)%nat && (k <? d)%nat then parent_a else parent_b) !! k.
Proof.
  intros Hlen.
  destruct (crossover_cut_points parent_a parent_b w)
    as (c & d & w' & Hrun & Hc & Hd).
  exists c, d. do 3 eexists. split; [exact Hrun|].
  split; [done|]. split; [done|]. intros k Hk. split.
  - apply crossover_child_lookup; [done|done|lia|done].
  - apply crossover_child_lookup; [done|lia|lia|lia].
Qed.

(** *** The earliest of the fittest *)

(** [index] stops at the first item that is the one looked for or compares
    equal to it; no earlier item compares equal. *)
Lemma index_from_first l : forall i v r,
  index_from i l v = Ok r ->
  exists j x,
    r = (i + j)%nat /\ l !! j = Some x /\
    ((i + j)%nat = v.1 \/ (x =? v.2) = true) /\
    forall j' x', (j' < j)%nat -> l !! j' = Some x' -> (x' =? v.2) = false.
Proof.
  induction l as [|y l IH]; intros i v r Hr; [done|]. simpl in Hr.
  destruct ((i =? v.1)%nat || (y =? v.2)) eqn:Hhit.
  - injection Hr as <-. exists 0%nat, y. rewrite Nat.add_0_r.
    split; [done|]. split; [done|]. split; [|intros; lia].
    apply orb_true_iff in Hhit as [Hi|Hy]; [left|by right].
    by apply Nat.eqb_eq.
  - apply orb_false_iff in Hhit as [_ Hy].
    destruct (IH _ _ _ Hr) as (j & x & -> & Hx & Hor & Hbefore).
    exists (S j), x. split; [lia|]. split; [done|]. split.
    + destruct Hor as [Hor|Hor]; [left; lia|by right].
    + intros [|j'] x' Hj' Hx'; simpl in Hx'.
      * by injection Hx' as <-.
      * apply (Hbefore j'); [lia|done].
Qed.

(** X9. On a non-empty population [find_current_best] returns the member at
    the first position whose fitness compares equal to the winning one: no
    member is strictly fitter, and no earlier member is as fit; without [nan]
    fitnesses every earlier member is strictly less fit. *)
Theorem find_current_best_first (pop : population)
    (problem : individual -> float) :
  pop <> [] ->
  exists j best,
    find_current_best pop problem = Ok best /\ pop !! j = Some best /\
    (forall c, c ∈ pop -> (problem c <? problem best) = false) /\
    (forall i c, (i < j)%nat -> pop !! i = Some c ->
       (problem c =? problem best) = false /\
       (is_nan (problem c) = false -> is_nan (problem best) = false ->
        (problem best <? problem c) = true)).
Proof.
  intros Hne. unfold find_current_best.
  change (map (fun x => assess_fitness x problem) pop) with (map problem pop).
  destruct (py_min_spec (map problem pop)) as (pos & m & -> & Hpos & Hmin).
  { by destruct pop. }
  simpl. unfold py_index.
  destruct (index_from_spec (map problem pop) 0 pos m Hpos)
    as (j0 & Hj0 & _).
  simpl in Hj0.
  destruct (index_from_first _ _ _ _ Hj0) as (j & x & Hj & Hx & Hor & Hbefore).
  simpl in Hj, Hor, Hbefore. subst j0. rewrite Hj0. simpl.
  rewrite list_lookup_fmap in Hx.
  destruct (pop !! j) as [best|] eqn:Hbest; [|discriminate Hx].
  simpl in Hx. injection Hx as <-.
  exists j, best. split; [done|]. split; [done|].
  assert (problem best = m \/ (problem best =? m) = true) as Hbm.
  { destruct Hor as [->|Heq]; [left|by right].
    rewrite list_lookup_fmap, Hbest in Hpos. by injection Hpos. }
  assert (forall c, c ∈ pop -> (problem c <? problem best) = false) as Hbelow.
  { intros c Hc.
    assert (not_below (problem c) m) as Hcm
      by (apply Hmin, list_elem_of_fmap; eauto).
    destruct Hbm as [->|Heq]; [done|]. eapply F64.ltb_eqb_r; eassumption. }
  split; [exact Hbelow|].
  intros i c Hi Hc.
  assert ((problem c =? problem best) = false) as Hneq.
  { assert ((problem c =? m) = false) as Hcm.
    { apply (Hbefore i); [done|]. by rewrite list_lookup_fmap, Hc. }
    destruct Hbm as [->|Heq]; [done|]. eapply F64.eqb_eqb_r; eassumption. }
  split; [exact Hneq|]. intros Hnc Hnb.
  apply F64.ltb_trichotomy; try done.
  apply Hbelow. by eapply list_elem_of_lookup_2.
Qed.

(** *** The object and what holds of it between calls *)

(** [np.random.rand(rows, cols)]. *)
Variable np_random_rand : nat -> nat -> M (list (list float)).

(** [create_population(population_size, vector_length)]. *)
Definition create_population (population_size vector_length : nat)
  : M population :=
  np_random_rand population_size vector_length.

(** [GeneticAlgorithm.__init__(population_size, vector_length, problem)]:
    the new object; an exception leaves none. *)
Definition GeneticAlgorithm_init (population_size vector_length : nat)
    (problem : individual -> float) : M GeneticAlgorithm :=
  let* pop := create_population population_size vector_length in
  let* best := lift (find_current_best pop problem) in
  ret {| ga_problem := problem; current_population := pop;
         current_best := best |}.

(** [current_best] is a member of [current_population], and no member is
    strictly fitter. *)
Definition best_is_fittest (self : GeneticAlgorithm) : Prop :=
  current_best self ∈ current_population self /\
  forall c, c ∈ current_population self ->
    (ga_problem self c <? ga_problem self (current_best self)) = false.

(** [rand] returns an array of the shape asked for. *)
Hypothesis rand_shape : forall rows cols w,
  exists arr w',
    np_random_rand rows cols w = (Ok arr, w') /\
    length arr = rows /\ has_cols cols arr.

(** X10. Creating the object with at least one individual returns an object
    with a population of the size and row length asked for, whose
    [current_best] is a member of the population than which none is strictly
    fitter; with no individual the search for the best raises [ValueError]
    and no object is made. *)
Theorem GeneticAlgorithm_init_best (population_size vector_length : nat)
    (problem : individual -> float) (w : world) :
  (population_size = 0%nat ->
   exists w',
     GeneticAlgorithm_init population_size vector_length problem w
     = (Raise ValueError, w')) /\
  ((1 <= population_size)%nat ->
   exists self w',
     GeneticAlgorithm_init population_size vector_length problem w
     = (Ok self, w') /\
     ga_problem self = problem /\
     length (current_population self) = population_size /\
     has_cols vector_length (current_population self) /\
     best_is_fittest self).
Proof.
  unfold GeneticAlgorithm_init, create_population, bindM, lift, ret.
  destruct (rand_shape population_size vector_length w)
    as (pop & w' & -> & Hlen & Hcols).
  split.
  - intros ->. destruct pop; [|done]. by exists w'.
  - intros Hsize.
    destruct (find_current_best_spec pop problem) as (best & -> & Hin & Hmin).
    { destruct pop; simpl in *; [lia|done]. }
    do 2 eexists. split; [reflexivity|]. by repeat split.
Qed.

(** X11. On an object with a non-empty population of 2-vectors and with a
    mutation scale that [np.random.normal] accepts, [next_generation]
    returns; afterwards the population has the size it had, the problem is
    the same, and [current_best] is a member of the new population than
    which none is strictly fitter. *)
Theorem next_generation_keeps_best (self : GeneticAlgorithm)
    (mrate mscale : float) (should_mutate : bool) (w : world) :
  current_population self <> [] -> has_cols 2 (current_population self) ->
  valid_scale mscale ->
  exists self' w',
    next_generation self mrate mscale should_mutate w = (self', Ok tt, w') /\
    ga_problem self' = ga_problem self /\
    length (current_population self') = length (current_population self) /\
    has_cols 2 (current_population self') /\
    best_is_fittest self'.
Proof.
  intros Hne Hcols Hscale. unfold next_generation.
  destruct (update_population_returns (current_population self)
              (ga_problem self) should_mutate mrate mscale Hscale w Hcols)
    as (next & w' & -> & Hlen & Hnext).
  cbn [current_population ga_problem].
  destruct (find_current_best_spec next (ga_problem self))
    as (best & -> & Hin & Hmin).
  { destruct next; [|done]. destruct (current_population self); done. }
  do 2 eexists. split; [reflexivity|]. by repeat split.
Qed.

(** X16. A tournament of size 0 over a non-empty population draws no
    challenger, and the search for the best of none raises [ValueError]. *)
Theorem tournament_of_none (pop : population)
    (problem : individual -> float) (w : world) :
  pop <> [] ->
  exists w',
    tournament_select_with_replacement pop 0 problem w
    = (Raise ValueError, w').
Proof.
  intros Hne.
  assert (0 < length pop)%nat as Hlen by (destruct pop; simpl; [done|lia]).
  destruct (choice_in_range (length pop) 0 w Hlen)
    as (idx & w' & Hdraw & Hsize & _).
  unfold tournament_select_with_replacement, bindM, lift. rewrite Hdraw.
  destruct idx; [|discriminate Hsize]. by exists w'.
Qed.

(** *** A generation without mutation *)

(** [for_range] with an invariant that follows the loop index. *)
Lemma for_range_ind {St} (P : nat -> St -> Prop) (body : nat -> St -> M St)
    count : forall from s w,
  (forall i s w, (from <= i < from + count)%nat -> P i s ->
     exists s' w', body i s w = (Ok s', w') /\ P (S i) s') ->
  P from s ->
  exists s' w',
    for_range from count body s w = (Ok s', w') /\ P (from + count)%nat s'.
Proof.
  induction count as [|count IH]; intros from s w Hbody Hs; simpl.
  - exists s, w. by rewrite Nat.add_0_r.
  - unfold bindM.
    destruct (Hbody from s w) as (s1 & w1 & -> & Hs1); [lia|done|].
    replace (from + S count)%nat with (S from + count)%nat by lia.
    apply IH; [|done]. intros i s2 w2 Hi. apply Hbody. lia.
Qed.

(** A row of 2 genes, each of which some member of [pop] carries at the same
    position. *)
Definition from_gene_pool (pop : population) (row : individual) : Prop :=
  length row = 2%nat /\
  forall k x, row !! k = Some x -> exists p, p ∈ pop /\ p !! k = Some x.

(** A row of the right length written at a valid position. *)
Lemma setitem_row_insert cols arr i v :
  (i < length arr)%nat -> has_cols cols arr -> length v = cols ->
  setitem_row arr i v = Ok (<[i := v]> arr).
Proof.
  intros Hi Harr Hv. unfold setitem_row.
  destruct (lookup_lt_is_Some_2 arr i Hi) as [row Hrow]. rewrite Hrow.
  assert (length row = cols) as Hlen.
  { eapply (proj1 (Forall_forall _ _) Harr), list_elem_of_lookup_2, Hrow. }
  by rewrite decide_True by congruence.
Qed.

(** The children of two members of the population come from its gene
    pool. *)
Lemma crossover_from_gene_pool (pop : population) parent_a parent_b w :
  has_cols 2 pop -> parent_a ∈ pop -> parent_b ∈ pop ->
  exists child_a child_b w',
    crossover parent_a parent_b w = (Ok (child_a, child_b), w') /\
    from_gene_pool pop child_a /\ from_gene_pool pop child_b.
Proof.
  intros Hpop Ha Hb.
  assert (forall r, r ∈ pop -> length r = 2%nat) as Hrow
    by (by apply Forall_forall).
  destruct (crossover_spec parent_a parent_b w)
    as (child_a & child_b & w' & Hrun & Hla & Hlb).
  { by rewrite (Hrow _ Ha), (Hrow _ Hb). }
  destruct (crossover_cut_points parent_a parent_b w)
    as (c & d & w'' & Hrun' & Hc & Hd).
  rewrite Hrun in Hrun'. injection Hrun' as -> -> <-.
  do 3 eexists. split; [exact Hrun|].
  assert (length parent_b = length parent_a) as Hlen
    by (by rewrite (Hrow _ Ha), (Hrow _ Hb)).
  rewrite (Hrow _ Ha) in Hla, Hlb.
  split; (split; [done|]); intros k x Hx;
    (assert (k < length parent_a)%nat as Hk
       by (apply lookup_lt_Some in Hx; rewrite (Hrow _ Ha); lia));
    rewrite crossover_child_lookup in Hx by (done || lia);
    destruct ((c <=? k)%nat && (k <? d)%nat); eauto.
Qed.

Section NoMutation.
Variables (current_population : population) (problem : individual -> float)
  (mutation_rate mutation_scale : float).

Let pop_size := length current_population.
Let body := update_body current_population problem false
              mutation_rate mutation_scale pop_size 2.

(** After [i] turns the rows written so far come from the gene pool. *)
Let written (i : nat) (next : population) : Prop :=
  length next = pop_size /\ has_cols 2 next /\
  forall j row,
    (j < i \/ pop_size / 2 <= j < pop_size / 2 + i)%nat ->
    next !! j = Some row -> from_gene_pool current_population row.

Lemma update_body_without_mutation i next w :
  has_cols 2 current_population ->
  (i < pop_size / 2)%nat -> written i next ->
  exists next' w', body i next w = (Ok next', w') /\ written (S i) next'.
Proof.
  intros Hpop Hi (Hlen & Hnext & Hrows).
  assert (2 <= pop_size)%nat as Hsize.
  { destruct (Nat.lt_ge_cases pop_size 2) as [Hlt|]; [|done].
    rewrite Nat.div_small in Hi by done. lia. }
  assert (current_population <> []) as Hne.
  { subst pop_size. destruct current_population; simpl in *; [lia|done]. }
  pose proof (Nat.Div0.mul_div_le pop_size 2) as Hhalf.
  unfold body, update_body.
  destruct (tournament_spec current_population 2 problem w Hne)
    as (_ & _ & parent_a & w1 & _ & _ & _ & Ha & _ & Hain & _); [lia|].
  unfold bindM at 1. rewrite Ha.
  destruct (tournament_spec current_population 2 problem w1 Hne)
    as (_ & _ & parent_b & w2 & _ & _ & _ & Hb & _ & Hbin & _); [lia|].
  unfold bindM at 1. rewrite Hb.
  destruct (crossover_from_gene_pool current_population parent_a parent_b w2)
    as (child_a & child_b & w3 & Hc & Hga & Hgb); [done..|].
  unfold bindM at 1. rewrite Hc.
  unfold bindM, ret, lift.
  rewrite (setitem_row_insert 2 next i child_a) by (try apply Hga; done || lia).
  rewrite (setitem_row_insert 2 (<[i:=child_a]> next)
             (i + pop_size / 2) child_b);
    [ | rewrite length_insert; lia
      | by apply Forall_insert; [|apply Hga]
      | apply Hgb ].
  do 2 eexists. split; [reflexivity|].
  split; [by rewrite !length_insert|].
  split; [by repeat apply Forall_insert; [| apply Hga | apply Hgb]|].
  intros j row Hj Hrow.
  destruct (decide (j = (i + pop_size / 2)%nat)) as [->|Hnb].
  { rewrite list_lookup_insert_eq in Hrow by (rewrite length_insert; lia).
    by injection Hrow as <-. }
  rewrite list_lookup_insert_ne in Hrow by done.
  destruct (decide (j = i)) as [->|Hna].
  { rewrite list_lookup_insert_eq in Hrow by lia. by injection Hrow as <-. }
  rewrite list_lookup_insert_ne in Hrow by done.
  apply (Hrows j); [lia|done].
Qed.

(** X12. With mutation switched off a generation needs nothing of
    [random.uniform] and [np.random.normal]: for a population of 2-vectors
    [update_population] returns for every mutation rate and every mutation
    scale, a negative one included; the next population has the size of the
    current one, and every row the loop writes takes each of its two genes
    from a member of the current population at the same position. *)
Theorem update_population_without_mutation (w : world) :
  has_cols 2 current_population ->
  exists next w',
    update_population current_population problem false
      mutation_rate mutation_scale w = (Ok next, w') /\
    length next = length current_population /\
    forall j row,
      (j < 2 * (length current_population / 2))%nat ->
      next !! j = Some row -> from_gene_pool current_population row.
Proof.
  intros Hpop. unfold update_population. fold pop_size. fold body.
  destruct (np_empty_shape pop_size 2) as [Hlen Hcols].
  destruct (for_range_ind written body (pop_size / 2) 0 (np_empty pop_size 2) w)
    as (next & w' & Hrun & Hl & _ & Hrows).
  - intros i next w0 Hi Hw. apply update_body_without_mutation; [done|lia|done].
  - split; [done|]. split; [done|]. intros j row Hj. lia.
  - exists next, w'. split; [done|]. split; [done|].
    intros j row Hj. apply Hrows.
    destruct (Nat.lt_ge_cases j (pop_size / 2)); [left; lia|right; lia].
Qed.

End NoMutation.

(** *** What the loop leaves of the array it starts from *)

(** Two runs of a loop from different starting values, in step. *)
Lemma for_range_rel {St} (R : nat -> St -> St -> Prop)
    (body : nat -> St -> M St) count : forall from s s' w,
  (forall i s s' w, (from <= i < from + count)%nat -> R i s s' ->
     exists t t' w',
       body i s w = (Ok t, w') /\ body i s' w = (Ok t', w') /\ R (S i) t t') ->
  R from s s' ->
  exists t t' w',
    for_range from count body s w = (Ok t, w') /\
    for_range from count body s' w = (Ok t', w') /\
    R (from + count)%nat t t'.
Proof.
  induction count as [|count IH]; intros from s s' w Hbody Hs; simpl.
  - exists s, s', w. by rewrite Nat.add_0_r.
  - unfold bindM.
    destruct (Hbody from s s' w) as (t & t' & w1 & -> & -> & Ht); [lia|done|].
    replace (from + S count)%nat with (S from + count)%nat by lia.
    apply IH; [|done]. intros i s2 s2' w2 Hi. apply Hbody. lia.
Qed.

Section Overwrite.
Variables (current_population : population) (problem : individual -> float)
  (should_mutate : bool) (mutation_rate mutation_scale : float).

Let pop_size := length current_population.
Let body := update_body current_population problem should_mutate
              mutation_rate mutation_scale pop_size 2.

Hypothesis scale_accepted : valid_scale mutation_scale.

(** One turn writes two rows that do not depend on the array written to. *)
Lemma update_body_writes i w :
  has_cols 2 current_population -> (i < pop_size / 2)%nat ->
  exists row_a row_b w',
    forall next, length next = pop_size -> has_cols 2 next ->
      body i next w
      = (Ok (<[(i + pop_size / 2)%nat := row_b]> (<[i := row_a]> next)), w') /\
      has_cols 2 (<[(i + pop_size / 2)%nat := row_b]> (<[i := row_a]> next)).
Proof.
  intros Hpop Hi.
  assert (2 <= pop_size)%nat as Hsize.
  { destruct (Nat.lt_ge_cases pop_size 2) as [Hlt|]; [|done].
    rewrite Nat.div_small in Hi by done. lia. }
  assert (current_population <> []) as Hne.
  { subst pop_size. destruct current_population; simpl in *; [lia|done]. }
  assert (forall r, r ∈ current_population -> length r = 2%nat) as Hrow
    by (by apply Forall_forall).
  pose proof (Nat.Div0.mul_div_le pop_size 2) as Hhalf.
  destruct (tournament_spec current_population 2 problem w Hne)
    as (_ & _ & parent_a & w1 & _ & _ & _ & Ha & _ & Hain & _); [lia|].
  destruct (tournament_spec current_population 2 problem w1 Hne)
    as (_ & _ & parent_b & w2 & _ & _ & _ & Hb & _ & Hbin & _); [lia|].
  destruct (crossover_spec parent_a parent_b w2)
    as (child_a & child_b & w3 & Hc & Hca & Hcb).
  { by rewrite (Hrow _ Hain), (Hrow _ Hbin). }
  destruct (maybe_mutate_spec current_population problem should_mutate
              mutation_rate mutation_scale
              scale_accepted child_a w3) as (row_a & w4 & Hma & Hla).
  destruct (maybe_mutate_spec current_population problem should_mutate
              mutation_rate mutation_scale
              scale_accepted child_b w4) as (row_b & w5 & Hmb & Hlb).
  rewrite Hca, (Hrow _ Hain) in Hla. rewrite Hcb, (Hrow _ Hain) in Hlb.
  exists row_a, row_b, w5. intros next Hlen Hnext.
  unfold body, update_body.
  unfold bindM at 1. rewrite Ha. unfold bindM at 1. rewrite Hb.
  unfold bindM at 1. rewrite Hc. unfold bindM at 1. rewrite Hma.
  unfold bindM at 1, lift at 1.
  rewrite (setitem_row_insert 2 next i row_a) by (done || lia).
  unfold bindM at 1. rewrite Hmb. unfold lift.
  rewrite (setitem_row_insert 2 (<[i:=row_a]> next) (i + pop_size / 2) row_b);
    [ | rewrite length_insert; lia | by apply Forall_insert | done ].
  split; [done|]. by repeat apply Forall_insert.
Qed.

(** For an even size the loop overwrites every row: its result is the same
    from any two arrays of the right shape. *)
Lemma update_loop_any_start (next0 next0' : population) w :
  has_cols 2 current_population -> Nat.even pop_size = true ->
  length next0 = pop_size -> has_cols 2 next0 ->
  length next0' = pop_size -> has_cols 2 next0' ->
  for_range 0 (pop_size / 2) body next0 w
  = for_range 0 (pop_size / 2) body next0' w.
Proof.
  intros Hpop Heven Hl0 Hc0 Hl0' Hc0'.
  set (R := fun (i : nat) (s s' : population) =>
         (length s = pop_size /\ has_cols 2 s) /\
         (length s' = pop_size /\ has_cols 2 s') /\
         forall j, (j < i \/ pop_size / 2 <= j < pop_size / 2 + i)%nat ->
                   s !! j = s' !! j).
  destruct (for_range_rel R body (pop_size / 2) 0 next0 next0' w)
    as (t & t' & w' & -> & -> & (Hl & _) & (Hl' & _) & Hsame).
  - intros i s s' w0 Hi ((Hls & Hcs) & (Hls' & Hcs') & Hrows).
    destruct (update_body_writes i w0 Hpop) as (row_a & row_b & w1 & Hrun);
      [lia|].
    destruct (Hrun s Hls Hcs) as [-> Hcols].
    destruct (Hrun s' Hls' Hcs') as [-> Hcols'].
    do 3 eexists. split; [reflexivity|]. split; [reflexivity|].
    split; [by rewrite !length_insert|]. split; [by rewrite !length_insert|].
    intros j Hj.
    destruct (decide (j = (i + pop_size / 2)%nat)) as [->|Hnb].
    { rewrite !list_lookup_insert_eq; [done|rewrite length_insert..].
      all: pose proof (Nat.Div0.mul_div_le pop_size 2); lia. }
    rewrite !(list_lookup_insert_ne _ (i + pop_size / 2)%nat) by done.
    destruct (decide (j = i)) as [->|Hna].
    { rewrite !list_lookup_insert_eq; [done|..].
      all: pose proof (Nat.Div0.mul_div_le pop_size 2); lia. }
    rewrite !list_lookup_insert_ne by done. apply Hrows. lia.
  - repeat split; try done. intros j Hj. lia.
  - f_equal. f_equal. apply list_eq. intros j.
    assert (pop_size = 2 * (pop_size / 2))%nat as Hsize.
    { apply Nat.even_spec in Heven as [k Hk]. rewrite Hk at 2.
      rewrite (Nat.mul_comm 2 k), Nat.div_mul by done. lia. }
    destruct (Nat.lt_ge_cases j pop_size) as [Hj|Hj].
    + apply Hsame. lia.
    + rewrite !(proj2 (lookup_ge_None _ _)) by lia. done.
Qed.

End Overwrite.

(** *** The mutation rate at its bounds *)

Section MutationRate.

(** [random.uniform(0, 1)] returns a number from 0 to 1. *)
Hypothesis uniform_unit : forall w u w',
  random_uniform 0 1 w = (Ok u, w') -> (0 <=? u) = true /\ (u <=? 1) = true.

(** X18. [mutate] compares the rate with one draw [u] of
    [random.uniform(0, 1)]. A rate of 1 or more (the slider's maximum is 1.0)
    mutates every child: the result is the child plus the normal draw,
    element by element. A rate below 0, or one that is [nan], never mutates:
    the child is returned as it is and [np.random.normal] is not called. A
    rate of 0 (the slider's minimum) still mutates when the draw is 0. *)
Theorem mutate_rate_bounds (child : individual)
    (mutation_rate mutation_scale : float) w :
  valid_scale mutation_scale ->
  exists u w1 values w2,
    random_uniform 0 1 w = (Ok u, w1) /\
    np_random_normal 0 mutation_scale (length child) w1 = (Ok values, w2) /\
    length values = length child /\
    ((1 <=? mutation_rate) = true ->
       mutate child mutation_rate mutation_scale w
       = (Ok (zip_with add child values), w2)) /\
    ((mutation_rate <? 0) = true \/ is_nan mutation_rate = true ->
       mutate child mutation_rate mutation_scale w = (Ok child, w1)) /\
    ((mutation_rate =? 0) = true ->
       mutate child mutation_rate mutation_scale w
       = if u =? 0 then (Ok (zip_with add child values), w2)
         else (Ok child, w1)).
Proof.
  intros Hscale.
  destruct (uniform_returns 0 1 w) as (u & w1 & Hu).
  destruct (uniform_unit w u w1 Hu) as [Hlo Hhi].
  destruct (normal_size 0 mutation_scale (length child) w1 Hscale)
    as (values & w2 & Hn & Hlen).
  exists u, w1, values, w2. do 3 (split; [done|]).
  assert (forall b, (u <=? mutation_rate) = b ->
            mutate child mutation_rate mutation_scale w
            = if b then (Ok (zip_with add child values), w2)
              else (Ok child, w1)) as Hrun.
  { intros b Hb. unfold mutate. unfold bindM at 1. rewrite Hu, Hb.
    destruct b; [|done]. unfold bindM, lift. rewrite Hn.
    unfold broadcast. by rewrite decide_True by done. }
  repeat split.
  - intros Hrate. apply (Hrun true). by apply (F64.leb_trans u 1).
  - intros [Hneg|Hnan]; apply (Hrun false).
    + destruct (u <=? mutation_rate) eqn:Hle; [|done].
      pose proof (F64.leb_trans _ _ _ Hlo Hle) as H0.
      by rewrite (F64.ltb_not_leb _ _ Hneg) in H0.
    + rewrite (F64.is_nan_eq _ Hnan). apply F64.leb_nan_r.
  - intros Hzero. rewrite (Hrun (u =? 0)); [done|].
    destruct (u =? 0) eqn:Heq.
    + apply (F64.leb_trans u 0); [by apply F64.eqb_leb|].
      by apply F64.eqb_leb, F64.eqb_sym.
    + destruct (u <=? mutation_rate) eqn:Hle; [|done].
      pose proof (F64.leb_trans _ _ _ Hle (F64.eqb_leb _ _ Hzero)) as H0.
      by rewrite (F64.leb_antisym _ _ H0 Hlo) in Heq.
Qed.

End MutationRate.

(** *** A scale [np.random.normal] rejects *)

(** [for_range] with an invariant, for a body that returns or raises one of
    the exceptions [allowed]. *)
Lemma for_range_inv_or {St} (allowed : exn -> Prop) (P : St -> Prop)
    (body : nat -> St -> M St) count : forall from s w,
  (forall i s w, (from <= i < from + count)%nat -> P s ->
     (exists s' w', body i s w = (Ok s', w') /\ P s') \/
     (exists e w', allowed e /\ body i s w = (Raise e, w'))) ->
  P s ->
  (exists s' w', for_range from count body s w = (Ok s', w') /\ P s') \/
  (exists e w', allowed e /\ for_range from count body s w = (Raise e, w')).
Proof.
  induction count as [|count IH]; intros from s w Hbody Hs; simpl.
  - left. by exists s, w.
  - unfold bindM.
    destruct (Hbody from s w) as [(s1 & w1 & -> & Hs1)|(e & w1 & He & ->)];
      [lia|done| |right; by exists e, w1].
    apply IH; [|done]. intros i s2 w2 Hi. apply Hbody. lia.
Qed.

(** In one turn over a population of 2-vectors the two tournaments and the
    crossover return; what is left of the turn is the two mutations, if
    any, and the two assignments. *)
Lemma update_body_children (current_population : population)
    (problem : individual -> float) (should_mutate : bool)
    (mutation_rate mutation_scale : float) i next w :
  has_cols 2 current_population ->
  (i < length current_population / 2)%nat ->
  exists child_a child_b w',
    length child_a = 2%nat /\ length child_b = 2%nat /\
    update_body current_population problem should_mutate mutation_rate
      mutation_scale (length current_population) 2 i next w
    = (let* row_a :=
         (if should_mutate then mutate child_a mutation_rate mutation_scale
          else ret child_a) in
       let* next1 := lift (setitem_row next i row_a) in
       let* row_b :=
         (if should_mutate then mutate child_b mutation_rate mutation_scale
          else ret child_b) in
       lift (setitem_row next1 (i + length current_population / 2) row_b)) w'.
Proof.
  intros Hpop Hi.
  assert (2 <= length current_population)%nat as Hsize.
  { destruct (Nat.lt_ge_cases (length current_population) 2) as [Hlt|]; [|done].
    rewrite Nat.div_small in Hi by done. lia. }
  assert (current_population <> []) as Hne.
  { destruct current_population; simpl in *; [lia|done]. }
  assert (forall r, r ∈ current_population -> length r = 2%nat) as Hrow
    by (by apply Forall_forall).
  destruct (tournament_spec current_population 2 problem w Hne)
    as (_ & _ & parent_a & w1 & _ & _ & _ & Ha & _ & Hain & _); [lia|].
  destruct (tournament_spec current_population 2 problem w1 Hne)
    as (_ & _ & parent_b & w2 & _ & _ & _ & Hb & _ & Hbin & _); [lia|].
  destruct (crossover_spec parent_a parent_b w2)
    as (child_a & child_b & w3 & Hc & Hca & Hcb).
  { by rewrite (Hrow _ Hain), (Hrow _ Hbin). }
  exists child_a, child_b, w3.
  split; [by rewrite Hca, (Hrow _ Hain)|].
  split; [by rewrite Hcb, (Hrow _ Hain)|].
  unfold update_body.
  unfold bindM at 1. rewrite Ha. unfold bindM at 1. rewrite Hb.
  unfold bindM at 1. by rewrite Hc.
Qed.

(** [update_population] on 2-vectors, from what the mutation of one child
    does: it returns a population of the same size, or raises what a
    mutation raised. *)
Lemma update_population_outcome (allowed : exn -> Prop)
    (current_population : population) (problem : individual -> float)
    (should_mutate : bool) (mutation_rate mutation_scale : float) w :
  (forall child w,
     (exists child' w',
        (if should_mutate then mutate child mutation_rate mutation_scale
         else ret child) w = (Ok child', w') /\
        length child' = length child) \/
     (exists e w',
        allowed e /\
        (if should_mutate then mutate child mutation_rate mutation_scale
         else ret child) w = (Raise e, w'))) ->
  has_cols 2 current_population ->
  (exists next w',
     update_population current_population problem should_mutate
       mutation_rate mutation_scale w = (Ok next, w') /\
     length next = length current_population) \/
  (exists e w',
     allowed e /\
     update_population current_population problem should_mutate
       mutation_rate mutation_scale w = (Raise e, w')).
Proof.
  intros Hrows Hpop. unfold update_population. cbv zeta.
  destruct (np_empty_shape (length current_population) 2) as [Hlen Hcols].
  destruct (for_range_inv_or allowed
              (fun next => length next = length current_population /\
                           has_cols 2 next)
              (update_body current_population problem should_mutate
                 mutation_rate mutation_scale (length current_population) 2)
              (length current_population / 2) 0
              (np_empty (length current_population) 2) w)
    as [(next & w' & Hrun & Hl & _)|Hraise]; [|done| |by right].
  2: { left. by exists next, w'. }
  intros i next w0 Hi [Hl Hc].
  pose proof (Nat.Div0.mul_div_le (length current_population) 2) as Hhalf.
  destruct (update_body_children current_population problem should_mutate
              mutation_rate mutation_scale i next w0 Hpop)
    as (child_a & child_b & w3 & Hca & Hcb & ->); [lia|].
  destruct (Hrows child_a w3) as [(row_a & w4 & Ha & Hla)|(e & w4 & He & Ha)].
  2: { right. exists e, w4. split; [done|]. unfold bindM at 1. by rewrite Ha. }
  assert (setitem_row next i row_a = Ok (<[i:=row_a]> next)) as Hs1.
  { apply (setitem_row_insert 2); (done || lia || congruence). }
  destruct (Hrows child_b w4) as [(row_b & w5 & Hb & Hlb)|(e & w5 & He & Hb)].
  2: { right. exists e, w5. split; [done|].
       unfold bindM at 1. rewrite Ha. unfold bindM at 1, lift at 1.
       rewrite Hs1. unfold bindM at 1. by rewrite Hb. }
  assert (setitem_row (<[i:=row_a]> next)
            (i + length current_population / 2) row_b
          = Ok (<[(i + length current_population / 2)%nat:=row_b]>
                  (<[i:=row_a]> next))) as Hs2.
  { apply (setitem_row_insert 2);
      [ rewrite length_insert; lia
      | apply Forall_insert; [done|congruence]
      | congruence ]. }
  left. do 2 eexists. split.
  { unfold bindM at 1. rewrite Ha. unfold bindM at 1, lift at 1.
    rewrite Hs1. unfold bindM at 1. rewrite Hb. unfold lift.
    rewrite Hs2. reflexivity. }
  split; [by rewrite !length_insert|].
  repeat apply Forall_insert; (done || congruence).
Qed.

Section RejectedScale.

(** [random.uniform(0, 1)] returns a number from 0 to 1, and
    [np.random.normal] raises [ValueError] on a scale it does not accept. *)
Hypothesis uniform_unit : forall w u w',
  random_uniform 0 1 w = (Ok u, w') -> (0 <=? u) = true /\ (u <=? 1) = true.
Hypothesis normal_rejects : forall loc scale size w,
  ~ valid_scale scale ->
  exists w', np_random_normal loc scale size w = (Raise ValueError, w').

(** A rate below every draw: the child is returned as it is. *)
Lemma mutate_skipped (child : individual) mutation_rate mutation_scale w :
  (mutation_rate <? 0) = true \/ is_nan mutation_rate = true ->
  exists w', mutate child mutation_rate mutation_scale w = (Ok child, w').
Proof.
  intros Hrate. destruct (uniform_returns 0 1 w) as (u & w1 & Hu).
  destruct (uniform_unit w u w1 Hu) as [Hlo _].
  exists w1. unfold mutate. unfold bindM at 1. rewrite Hu.
  assert ((u <=? mutation_rate) = false) as ->; [|done].
  destruct Hrate as [Hneg|Hnan].
  - destruct (u <=? mutation_rate) eqn:Hle; [|done].
    pose proof (F64.leb_trans _ _ _ Hlo Hle) as H0.
    by rewrite (F64.ltb_not_leb _ _ Hneg) in H0.
  - rewrite (F64.is_nan_eq _ Hnan). apply F64.leb_nan_r.
Qed.

(** With a rejected scale a child is returned as it is, or the draw of the
    mutation values raises. *)
Lemma mutate_rejected (child : individual) mutation_rate mutation_scale w :
  ~ valid_scale mutation_scale ->
  (exists w', mutate child mutation_rate mutation_scale w = (Ok child, w') /\
              forall u w1, random_uniform 0 1 w = (Ok u, w1) ->
                           (u <=? mutation_rate) = false) \/
  (exists w', mutate child mutation_rate mutation_scale w
              = (Raise ValueError, w') /\
              forall u w1, random_uniform 0 1 w = (Ok u, w1) ->
                           (u <=? mutation_rate) = true).
Proof.
  intros Hscale. destruct (uniform_returns 0 1 w) as (u & w1 & Hu).
  unfold mutate. unfold bindM at 1 3. rewrite Hu.
  destruct (u <=? mutation_rate) eqn:Hle.
  - right.
    destruct (normal_rejects 0 mutation_scale (length child) w1 Hscale)
      as (w2 & Hn).
    exists w2. unfold bindM. rewrite Hn. split; [done|].
    intros u' w1' [= <- _]. exact Hle.
  - left. exists w1. split; [done|]. intros u' w1' [= <- _]. exact Hle.
Qed.

(** C1, amended. For a population of 2-vectors:
    - with a mutation scale that [np.random.normal] accepts,
      [update_population] returns a next population with as many
      individuals as the one it was given, whatever the problem function,
      the mutation setting and the mutation rate;
    - [next_generation] leaves the size of [current_population] as it was,
      whatever the scale;
    - whatever the scale, [update_population] returns such a population
      when no child is mutated: [should_mutate] off, fewer than two
      individuals, or a rate that is negative or [nan];
    - with a scale that [np.random.normal] rejects it returns such a
      population or raises [ValueError];
    - and it raises [ValueError] when moreover [should_mutate] is set, there
      are at least two individuals and the rate is 1 or more. *)
Theorem update_population_preserves_size (pop : population)
    (problem : individual -> float) (best : individual)
    (should_mutate : bool) (mutation_rate mutation_scale : float) (w : world) :
  has_cols 2 pop ->
  (valid_scale mutation_scale ->
   returns_same_size pop
     (update_population pop problem should_mutate mutation_rate
        mutation_scale w)) /\
  (forall any_scale,
     length (current_population
               (next_generation
                  {| ga_problem := problem; current_population := pop;
                     current_best := best |}
                  mutation_rate any_scale should_mutate w).1.1)
     = length pop) /\
  (should_mutate = false \/ (length pop < 2)%nat \/
   (mutation_rate <? 0) = true \/ is_nan mutation_rate = true ->
   returns_same_size pop
     (update_population pop problem should_mutate mutation_rate
        mutation_scale w)) /\
  (~ valid_scale mutation_scale ->
   returns_same_size pop
     (update_population pop problem should_mutate mutation_rate
        mutation_scale w) \/
   exists w',
     update_population pop problem should_mutate mutation_rate
       mutation_scale w = (Raise ValueError, w')) /\
  (~ valid_scale mutation_scale -> should_mutate = true ->
   (2 <= length pop)%nat -> (1 <=? mutation_rate) = true ->
   exists w',
     update_population pop problem should_mutate mutation_rate
       mutation_scale w = (Raise ValueError, w')).
Proof.
  intros Hpop. split; [|split; [|split; [|split]]].
  - intros Hscale.
    destruct (update_population_returns pop problem should_mutate
                mutation_rate mutation_scale Hscale w Hpop)
      as (next & w' & H & Hl & _).
    exists next. by rewrite H.
  - intros any_scale. apply next_generation_length.
  - intros Hnone.
    assert ((length pop < 2)%nat \/
            forall child w0, exists w',
              (if should_mutate
               then mutate child mutation_rate mutation_scale
               else ret child) w0 = (Ok child, w')) as [Hsmall|Hrows].
    { destruct Hnone as [->|[Hsmall|Hrate]]; [right|by left|right].
      - intros child w0. by exists w0.
      - intros child w0. destruct should_mutate; [|by exists w0].
        by apply mutate_skipped. }
    + exists (np_empty (length pop) 2). unfold update_population. cbv zeta.
      rewrite Nat.div_small by done. split; [done|]. apply np_empty_shape.
    + destruct (update_population_outcome (fun _ => False) pop problem
                  should_mutate mutation_rate mutation_scale w)
        as [(next & w' & Hrun & Hl)|(e & _ & [] & _)]; [|done|].
      * intros child w0. left. destruct (Hrows child w0) as [w' Hrun].
        by exists child, w'.
      * exists next. by rewrite Hrun.
  - intros Hscale.
    destruct (update_population_outcome (fun e => e = ValueError) pop problem
                should_mutate mutation_rate mutation_scale w)
      as [(next & w' & Hrun & Hl)|(e & w' & -> & Hrun)]; [|done| |].
    + intros child w0. destruct should_mutate.
      * destruct (mutate_rejected child mutation_rate mutation_scale w0 Hscale)
          as [(w' & Hrun & _)|(w' & Hrun & _)].
        -- left. by exists child, w'.
        -- right. by exists ValueError, w'.
      * left. by exists child, w0.
    + left. exists next. by rewrite Hrun.
    + right. by exists w'.
  - intros Hscale -> Hsize Hrate.
    unfold update_population. cbv zeta.
    destruct (length pop / 2)%nat as [|k] eqn:Hk.
    { apply Nat.div_small_iff in Hk; lia. }
    destruct (update_body_children pop problem true mutation_rate
                mutation_scale 0 (np_empty (length pop) 2) w Hpop)
      as (child_a & child_b & w3 & _ & _ & Hbody); [lia|].
    destruct (mutate_rejected child_a mutation_rate mutation_scale w3 Hscale)
      as [(w4 & _ & Hno)|(w4 & Hrun & _)].
    { destruct (uniform_returns 0 1 w3) as (u & w' & Hu).
      destruct (uniform_unit w3 u w' Hu) as [_ Hhi].
      pose proof (Hno u w' Hu) as Hle.
      by rewrite (F64.leb_trans _ _ _ Hhi Hrate) in Hle. }
    exists w4. simpl. unfold bindM at 1. rewrite Hbody.
    unfold bindM at 1. by rewrite Hrun.
Qed.

End RejectedScale.

End Generation.

(** *** The stand-in generator meets what is asked of the library *)

Lemma toy_choice_in_range a size w :
  (0 < a)%nat ->
  exists indexes w',
    toy_choice a size w = (Ok indexes, w') /\
    length indexes = size /\ Forall (fun i => (i < a)%nat) indexes.
Proof.
  intros Ha. unfold toy_choice.
  rewrite (proj2 (Nat.eqb_neq a 0)) by lia.
  do 2 eexists. split; [reflexivity|]. split.
  - by rewrite length_map, length_seq.
  - apply Forall_forall. intros i Hi.
    apply list_elem_of_fmap in Hi as (k & -> & _).
    apply Nat.mod_upper_bound. lia.
Qed.

Lemma toy_randint_in_range lo hi w :
  (lo <= hi)%nat ->
  exists r w', toy_randint lo hi w = (Ok r, w') /\ (lo <= r <= hi)%nat.
Proof.
  intros Hle. unfold toy_randint.
  rewrite (proj2 (Nat.ltb_ge hi lo)) by lia.
  do 2 eexists. split; [reflexivity|].
  pose proof (Nat.mod_upper_bound w (hi - lo + 1)). lia.
Qed.

Lemma toy_uniform_returns lo hi w :
  exists u w', toy_uniform lo hi w = (Ok u, w').
Proof. unfold toy_uniform. eauto. Qed.

Lemma toy_normal_size loc scale size w :
  toy_valid_scale scale ->
  exists values w',
    toy_normal loc scale size w = (Ok values, w') /\ length values = size.
Proof.
  unfold toy_valid_scale, toy_normal. intros ->.
  do 2 eexists. split; [reflexivity|]. by rewrite length_map, length_seq.
Qed.

Lemma toy_uniform_unit (w : nat) u w' :
  toy_uniform 0 1 w = (Ok u, w') -> (0 <=? u) = true /\ (u <=? 1) = true.
Proof.
  unfold toy_uniform. destruct (Nat.even w); intros [= <- _]; by vm_compute.
Qed.

Lemma toy_normal_rejects loc scale size (w : nat) :
  ~ toy_valid_scale scale ->
  exists w', toy_normal loc scale size w = (Raise ValueError, w').
Proof.
  unfold toy_valid_scale, toy_normal. intros Hscale.
  destruct (scale <? 0); [by exists w|done].
Qed.

Lemma update_population_preserves_size_witness :
  (toy_valid_scale 1 ->
   returns_same_size toy_population
     (update_population nat toy_choice toy_randint toy_uniform toy_normal
        toy_uninitialised toy_population sphere_problem true 0.5 1 0%nat)) /\
  (forall any_scale,
     length (current_population
               (next_generation nat toy_choice toy_randint toy_uniform
                  toy_normal toy_uninitialised
                  {| ga_problem := sphere_problem;
                     current_population := toy_population;
                     current_best := [0.25; 0.5] |}
                  0.5 any_scale true 0%nat).1.1)
     = length toy_population) /\
  (true = false \/ (length toy_population < 2)%nat \/
   (0.5 <? 0) = true \/ is_nan 0.5 = true ->
   returns_same_size toy_population
     (update_population nat toy_choice toy_randint toy_uniform toy_normal
        toy_uninitialised toy_population sphere_problem true 0.5 1 0%nat)) /\
  (~ toy_valid_scale 1 ->
   returns_same_size toy_population
     (update_population nat toy_choice toy_randint toy_uniform toy_normal
        toy_uninitialised toy_population sphere_problem true 0.5 1 0%nat) \/
   exists w',
     update_population nat toy_choice toy_randint toy_uniform toy_normal
       toy_uninitialised toy_population sphere_problem true 0.5 1 0%nat
     = (Raise ValueError, w')) /\
  (~ toy_valid_scale 1 -> true = true ->
   (2 <= length toy_population)%nat -> (1 <=? 0.5) = true ->
   exists w',
     update_population nat toy_choice toy_randint toy_uniform toy_normal
       toy_uninitialised toy_population sphere_problem true 0.5 1 0%nat
     = (Raise ValueError, w')).
Proof.
  apply (update_population_preserves_size nat toy_choice toy_randint
           toy_uniform toy_normal toy_uninitialised toy_valid_scale
           toy_choice_in_range toy_randint_in_range toy_uniform_returns
           toy_normal_size toy_uniform_unit toy_normal_rejects
           toy_population sphere_problem [0.25; 0.5] true 0.5 1 0%nat).
  repeat constructor.
Defined.

Lemma update_population_odd_last_row_witness :
  exists next w',
    update_population nat toy_choice toy_randint toy_uniform toy_normal
      toy_uninitialised (take 3 toy_population) sphere_problem true 0.5 1 0%nat
    = (Ok next, w') /\
    next !! (length (take 3 toy_population) - 1)%nat
    = Some [toy_uninitialised (length (take 3 toy_population) - 1) 0;
            toy_uninitialised (length (take 3 toy_population) - 1) 1].
Proof.
  apply (update_population_odd_last_row nat toy_choice toy_randint
           toy_uniform toy_normal toy_uninitialised toy_valid_scale
           toy_choice_in_range toy_randint_in_range toy_uniform_returns
           toy_normal_size (take 3 toy_population) sphere_problem true 0.5 1).
  - reflexivity.
  - repeat constructor.
  - reflexivity.
Defined.

Lemma crossover_children_length_witness :
  exists child_a child_b w',
    crossover nat toy_randint [0.25; 0.5] [0.75; 0.125] 1%nat
    = (Ok (child_a, child_b), w') /\
    length child_a = length [0.25; 0.5] /\
    length child_b = length [0.75; 0.125].
Proof.
  apply (crossover_children_length nat toy_randint toy_randint_in_range
           [0.25; 0.5] [0.75; 0.125] 1%nat).
  reflexivity.
Defined.

Lemma toy_rand_shape rows cols w :
  exists arr w',
    toy_rand rows cols w = (Ok arr, w') /\
    length arr = rows /\ has_cols cols arr.
Proof.
  unfold toy_rand. do 2 eexists. split; [reflexivity|]. split.
  - by rewrite length_map, length_seq.
  - apply Forall_forall. intros row Hrow.
    apply list_elem_of_fmap in Hrow as (i & -> & _).
    by rewrite length_map, length_seq.
Qed.

Lemma crossover_swaps_segment_witness :
  exists c d child_a child_b w',
    crossover nat toy_randint [0.25; 0.5] [0.75; 0.125] 1%nat
    = (Ok (child_a, child_b), w') /\
    (c <= 2)%nat /\ (c < d <= 2 + 1)%nat /\
    forall k, (k < 2)%nat ->
      child_a !! k
      = (if (c <=? k)%nat && (k <? d)%nat
         then [0.75; 0.125] else [0.25; 0.5]) !! k /\
      child_b !! k
      = (if (c <=? k)%nat && (k <? d)%nat
         then [0.25; 0.5] else [0.75; 0.125]) !! k.
Proof.
  apply (crossover_swaps_segment nat toy_randint toy_randint_in_range
           [0.25; 0.5] [0.75; 0.125] 1%nat).
  reflexivity.
Defined.

Lemma find_current_best_first_witness :
  exists j best,
    find_current_best toy_population sphere_problem = Ok best /\
    toy_population !! j = Some best /\
    (forall c, c ∈ toy_population ->
       (sphere_problem c <? sphere_problem best) = false) /\
    (forall i c, (i < j)%nat -> toy_population !! i = Some c ->
       (sphere_problem c =? sphere_problem best) = false /\
       (is_nan (sphere_problem c) = false ->
        is_nan (sphere_problem best) = false ->
        (sphere_problem best <? sphere_problem c) = true)).
Proof. apply (find_current_best_first toy_population sphere_problem). done. Defined.

Lemma GeneticAlgorithm_init_best_witness :
  (4%nat = 0%nat ->
   exists w',
     GeneticAlgorithm_init nat toy_rand 4 2 sphere_problem 0%nat
     = (Raise ValueError, w')) /\
  ((1 <= 4)%nat ->
   exists self w',
     GeneticAlgorithm_init nat toy_rand 4 2 sphere_problem 0%nat
     = (Ok self, w') /\
     ga_problem self = sphere_problem /\
     length (current_population self) = 4%nat /\
     has_cols 2 (current_population self) /\
     best_is_fittest self).
Proof.
  apply (GeneticAlgorithm_init_best nat toy_rand toy_rand_shape
           4 2 sphere_problem 0%nat).
Defined.

Lemma next_generation_keeps_best_witness :
  exists self' w',
    next_generation nat toy_choice toy_randint toy_uniform toy_normal
      toy_uninitialised
      {| ga_problem := sphere_problem; current_population := toy_population;
         current_best := [0.25; 0.5] |}
      0.5 1 true 0%nat
    = (self', Ok tt, w') /\
    ga_problem self' = sphere_problem /\
    length (current_population self') = length toy_population /\
    has_cols 2 (current_population self') /\
    best_is_fittest self'.
Proof.
  apply (next_generation_keeps_best nat toy_choice toy_randint toy_uniform
           toy_normal toy_uninitialised toy_valid_scale
           toy_choice_in_range toy_randint_in_range toy_uniform_returns
           toy_normal_size
           {| ga_problem := sphere_problem;
              current_population := toy_population;
              current_best := [0.25; 0.5] |}
           0.5 1 true 0%nat).
  - done.
  - repeat constructor.
  - reflexivity.
Defined.

Lemma tournament_of_none_witness :
  exists w',
    tournament_select_with_replacement nat toy_choice toy_population 0
      sphere_problem 0%nat
    = (Raise ValueError, w').
Proof.
  apply (tournament_of_none nat toy_choice toy_choice_in_range
           toy_population sphere_problem 0%nat).
  done.
Defined.

Lemma update_population_without_mutation_witness :
  exists next w',
    update_population nat toy_choice toy_randint toy_uniform toy_normal
      toy_uninitialised toy_population sphere_problem false 0.5 (-1) 0%nat
    = (Ok next, w') /\
    length next = length toy_population /\
    forall j row,
      (j < 2 * (length toy_population / 2))%nat ->
      next !! j = Some row -> from_gene_pool toy_population row.
Proof.
  apply (update_population_without_mutation nat toy_choice toy_randint
           toy_uniform toy_normal toy_uninitialised
           toy_choice_in_range toy_randint_in_range
           toy_population sphere_problem 0.5 (-1) 0%nat).
  repeat constructor.
Defined.

(** The object the stand-in [rand] makes, and a generation without mutation
    under a negative scale. *)
Example GeneticAlgorithm_init_run :
  (GeneticAlgorithm_init nat toy_rand 3 2 sphere_problem 0%nat).1
  = Ok {| ga_problem := sphere_problem;
          current_population := [[0; 0.125]; [0.125; 0.25]; [0.25; 0.375]];
          current_best := [0; 0.125] |} /\
  (GeneticAlgorithm_init nat toy_rand 0 2 sphere_problem 0%nat).1
  = Raise ValueError /\
  (update_population nat toy_choice toy_randint toy_uniform toy_normal
     toy_uninitialised toy_population sphere_problem false 0.5 (-1) 0%nat).1
  = Ok [[0.25; 0.5]; [0.5; 0.5]; [0.5; 0.5]; [0.25; 0.5]].
Proof. repeat split; vm_compute; reflexivity. Qed.

(** The cut points (1, 2) swap the second coordinate; three individuals give
    a next population whose third row was never written. *)
Example crossover_run :
  crossover nat toy_randint [0.25; 0.5] [0.75; 0.125] 1%nat
  = (Ok ([0.25; 0.125], [0.75; 0.5]), 3%nat) /\
  (update_population nat toy_choice toy_randint toy_uniform toy_normal
     (fun _ _ => nan) (take 3 toy_population) sphere_problem false 0.5 1 0%nat).1
  = Ok [[0.25; 0.5]; [0.25; 0.5]; [nan; nan]].
Proof. split; vm_compute; reflexivity. Qed.

(** One generation of the stand-in run, without and with mutation. *)
Example update_population_run :
  (update_population nat toy_choice toy_randint toy_uniform toy_normal
     toy_uninitialised toy_population sphere_problem false 0.5 1 0%nat).1
  = Ok [[0.25; 0.5]; [0.5; 0.5]; [0.5; 0.5]; [0.25; 0.5]] /\
  (update_population nat toy_choice toy_randint toy_uniform toy_normal
     toy_uninitialised toy_population sphere_problem true 0.5 1 0%nat).1
  = Ok [[0.25; 1.5]; [1.25; -0.5]; [0.5; 0.5]; [0.5; 0.5]].
Proof. split; vm_compute; reflexivity. Qed.

(** C1 as stated fails for a negative mutation scale: with mutation on and
    a rate that lets it happen, the draw of the mutation values is refused,
    and [update_population] raises instead of returning a population. *)
Lemma update_population_negative_scale :
  ~ returns_same_size toy_population
      (update_population nat toy_choice toy_randint toy_uniform toy_normal
         toy_uninitialised toy_population sphere_problem true 1 (-1) 0%nat) /\
  update_population nat toy_choice toy_randint toy_uniform toy_normal
    toy_uninitialised toy_population sphere_problem true 1 (-1) 0%nat
  = (Raise ValueError, 7%nat).
Proof.
  split; [|vm_compute; reflexivity].
  intros (next & Hnext & _). vm_compute in Hnext. discriminate Hnext.
Qed.

Lemma tournament_returns_fittest_witness :
  (exists indexes challengers best w',
     toy_choice (length toy_population) 3 0%nat = (Ok indexes, w') /\
     take_rows toy_population indexes = Ok challengers /\
     length challengers = 3%nat /\
     tournament_select_with_replacement nat toy_choice toy_population 3
       sphere_problem 0%nat = (Ok best, w') /\
     best ∈ toy_population /\ best ∈ challengers /\
     (forall c, c ∈ challengers ->
        (sphere_problem c <? sphere_problem best) = false) /\
     ((forall c, c ∈ challengers -> is_nan (sphere_problem c) = false) ->
      forall c, c ∈ challengers ->
        (sphere_problem best <=? sphere_problem c) = true)) /\
  (exists best,
     find_current_best toy_population sphere_problem = Ok best /\
     best ∈ toy_population /\
     (forall c, c ∈ toy_population ->
        (sphere_problem c <? sphere_problem best) = false) /\
     ((forall c, c ∈ toy_population -> is_nan (sphere_problem c) = false) ->
      returns_minimum toy_population sphere_problem
        (find_current_best toy_population sphere_problem))).
Proof.
  apply (tournament_returns_fittest nat toy_choice toy_choice_in_range
           toy_population 3 sphere_problem 0%nat); [done|lia].
Defined.

Example find_current_best_run :
  find_current_best toy_population sphere_problem = Ok [0.25; 0.5] /\
  tournament_select_with_replacement nat toy_choice toy_population 3
    sphere_problem 1%nat = (Ok [0.5; 0.5], 4%nat).
Proof. split; vm_compute; reflexivity. Qed.

(** C5 as stated fails when a fitness is [nan]: Python's [min] keeps a
    leading [nan], so the individual with fitness [nan] wins over the one with
    fitness 2, and the other way round when the two are swapped. *)
Lemma find_current_best_nan :
  ~ returns_minimum [[-1; 0]; [4; 0]] sqrt_problem
      (find_current_best [[-1; 0]; [4; 0]] sqrt_problem) /\
  find_current_best [[-1; 0]; [4; 0]] sqrt_problem = Ok [-1; 0] /\
  find_current_best [[4; 0]; [-1; 0]] sqrt_problem = Ok [4; 0] /\
  tournament_select_with_replacement nat toy_choice [[-1; 0]; [4; 0]] 2
    sqrt_problem 0%nat = (Ok [-1; 0], 2%nat) /\
  sqrt_problem [-1; 0] = nan /\ sqrt_problem [4; 0] = 2 /\
  (sqrt_problem [-1; 0] <=? sqrt_problem [4; 0]) = false.
Proof.
  split; [|repeat split; vm_compute; reflexivity].
  intros (best & Hbest & _ & Hmin).
  vm_compute in Hbest. injection Hbest as <-.
  specialize (Hmin [4; 0]). vm_compute in Hmin.
  assert ([4; 0] ∈ [[-1; 0]; [4; 0]]) as Hin
    by (apply elem_of_cons; right; apply elem_of_cons; by left).
  specialize (Hmin Hin). discriminate Hmin.
Qed.

(** C6. [tap_event x y] sets the globals to [(x, y)] when [x] is not [None]
    and leaves them alone when it is; [problem] reads the globals it is run
    with: it is the mean squared error against [[target_x, target_y]], for a
    2-vector the mean of the two squared differences. *)
Theorem tap_event_sets_target (g : globals) (x y : option float) :
  (x <> None -> (tap_event x y g).1 = {| target_x := x; target_y := y |}) /\
  (x = None -> (tap_event x y g).1 = g) /\
  (forall tx ty soln,
     target_x g = Some tx -> target_y g = Some ty ->
     problem g soln = mean_squared_error soln [tx; ty]) /\
  (forall tx ty s0 s1,
     target_x g = Some tx -> target_y g = Some ty ->
     problem g [s0; s1]
     = Ok (((s0 - tx) * (s0 - tx) + (s1 - ty) * (s1 - ty)) / 2)) /\
  (forall tx ty s0 s1,
     x = Some tx -> y = Some ty ->
     problem (tap_event x y g).1 [s0; s1]
     = Ok (((s0 - tx) * (s0 - tx) + (s1 - ty) * (s1 - ty)) / 2)).
Proof.
  assert (forall tx ty s0 s1 g',
            target_x g' = Some tx -> target_y g' = Some ty ->
            problem g' [s0; s1]
            = Ok (((s0 - tx) * (s0 - tx) + (s1 - ty) * (s1 - ty)) / 2)) as Hmse.
  { intros tx ty s0 s1 g' Hx Hy. unfold problem. rewrite Hx, Hy.
    unfold mean_squared_error, broadcast, np_mean, np_sum. simpl.
    by rewrite F64.zero_add_square. }
  repeat split.
  - intros Hx. unfold tap_event. by destruct x.
  - by intros ->.
  - intros tx ty soln Hx Hy. unfold problem. by rewrite Hx, Hy.
  - intros tx ty s0 s1. apply Hmse.
  - intros tx ty s0 s1 -> ->. by apply Hmse.
Qed.

(** The notebook's start: the target is (0, 0), then (10, -10); a tap outside
    the plot delivers [None] and changes nothing. *)
Example tap_event_run :
  let g0 := {| target_x := Some 0; target_y := Some 0 |} in
  let g1 := (tap_event (Some 10) (Some (-10)) g0).1 in
  let g2 := (tap_event None None g1).1 in
  problem g0 [3; 4] = Ok 12.5 /\
  g1 = {| target_x := Some 10; target_y := Some (-10) |} /\
  g2 = g1 /\
  problem g2 [10; -10] = Ok 0 /\
  problem {| target_x := Some 1; target_y := None |} [3; 4] = Raise TypeError.
Proof. repeat split; vm_compute; reflexivity. Qed.

(** *** The fitness function and its optimum *)

Lemma mutate_rate_bounds_witness :
  toy_valid_scale 1 /\
  exists u w1 values w2,
    toy_uniform 0 1 0%nat = (Ok u, w1) /\
    toy_normal 0 1 (length [0.25; 0.5]) w1 = (Ok values, w2) /\
    length values = length [0.25; 0.5] /\
    ((1 <=? 1) = true ->
       mutate nat toy_uniform toy_normal [0.25; 0.5] 1 1 0%nat
       = (Ok (zip_with add [0.25; 0.5] values), w2)) /\
    ((1 <? 0) = true \/ is_nan 1 = true ->
       mutate nat toy_uniform toy_normal [0.25; 0.5] 1 1 0%nat
       = (Ok [0.25; 0.5], w1)) /\
    ((1 =? 0) = true ->
       mutate nat toy_uniform toy_normal [0.25; 0.5] 1 1 0%nat
       = if u =? 0 then (Ok (zip_with add [0.25; 0.5] values), w2)
         else (Ok [0.25; 0.5], w1)).
Proof.
  split; [reflexivity|].
  apply (mutate_rate_bounds nat toy_uniform toy_normal toy_valid_scale
           toy_uniform_returns toy_normal_size toy_uniform_unit
           [0.25; 0.5] 1 1 0%nat).
  reflexivity.
Defined.

(** ** The array [np.empty] hands out *)

Section Allocation.
Variable world : Type.
Variable np_random_choice : nat -> nat -> M world (list nat).
Variable random_randint : nat -> nat -> M world nat.
Variable random_uniform : float -> float -> M world float.
Variable np_random_normal : float -> float -> nat -> M world (list float).
Variable valid_scale : float -> Prop.

Hypothesis choice_in_range : forall a size w,
  (0 < a)%nat ->
  exists indexes w',
    np_random_choice a size w = (Ok indexes, w') /\
    length indexes = size /\ Forall (fun i => (i < a)%nat) indexes.
Hypothesis randint_in_range : forall lo hi w,
  (lo <= hi)%nat ->
  exists r w', random_randint lo hi w = (Ok r, w') /\ (lo <= r <= hi)%nat.
Hypothesis uniform_returns : forall lo hi w,
  exists u w', random_uniform lo hi w = (Ok u, w').
Hypothesis normal_size : forall loc scale size w,
  valid_scale scale ->
  exists values w',
    np_random_normal loc scale size w = (Ok values, w') /\
    length values = size.

(** X17. For a population of even size (two columns, a scale
    [np.random.normal] accepts) [update_population] overwrites every row of
    the array it got from [np.empty]: whatever two contents [u1] and [u2]
    that array starts with, the call gives the same result and leaves the
    random state the same. (For an odd size the last row is what [np.empty]
    left there.) *)
Theorem update_population_even_overwrites (u1 u2 : nat -> nat -> float)
    (current_population : population) (problem : individual -> float)
    (should_mutate : bool) (mutation_rate mutation_scale : float) (w : world) :
  has_cols 2 current_population ->
  Nat.even (length current_population) = true ->
  valid_scale mutation_scale ->
  update_population world np_random_choice random_randint random_uniform
    np_random_normal u1 current_population problem should_mutate
    mutation_rate mutation_scale w
  = update_population world np_random_choice random_randint random_uniform
      np_random_normal u2 current_population problem should_mutate
      mutation_rate mutation_scale w.
Proof.
  intros Hpop Heven Hscale. unfold update_population.
  destruct (np_empty_shape u1 (length current_population) 2) as [Hl1 Hc1].
  destruct (np_empty_shape u2 (length current_population) 2) as [Hl2 Hc2].
  cbv zeta.
  by apply (update_loop_any_start world np_random_choice random_randint
              random_uniform np_random_normal valid_scale choice_in_range
              randint_in_range uniform_returns normal_size).
Qed.

End Allocation.

Lemma update_population_even_overwrites_witness :
  update_population nat toy_choice toy_randint toy_uniform toy_normal
    toy_uninitialised toy_population sphere_problem true 0.5 1 0%nat
  = update_population nat toy_choice toy_randint toy_uniform toy_normal
      (fun _ _ => nan) toy_population sphere_problem true 0.5 1 0%nat.
Proof.
  apply (update_population_even_overwrites nat toy_choice toy_randint
           toy_uniform toy_normal toy_valid_scale toy_choice_in_range
           toy_randint_in_range toy_uniform_returns toy_normal_size
           toy_uninitialised (fun _ _ => nan) toy_population sphere_problem
           true 0.5 1 0%nat).
  - repeat constructor.
  - reflexivity.
  - reflexivity.
Defined.

(** A sum of squares is [nan] or not negative. *)
Lemma np_sum_squares_not_neg (diff : list float) :
  F64.not_neg (np_sum (map (fun d => d * d) diff)).
Proof.
  unfold np_sum. generalize F64.zero_not_neg. generalize 0.
  induction diff as [|d diff IH]; intros acc Hacc; simpl; [done|].
  apply IH, F64.add_not_neg; [done|apply F64.mul_self_not_neg].
Qed.

(** X13. The fitness [problem] computes is never below zero, and at the
    target itself, when its coordinates are finite, it is exactly zero: no
    individual is strictly fitter than the target. *)
Theorem problem_optimum (g : globals) (tx ty : float) :
  target_x g = Some tx -> target_y g = Some ty ->
  (is_finite tx = true -> is_finite ty = true -> problem g [tx; ty] = Ok 0) /\
  (forall soln v, problem g soln = Ok v -> (v <? 0) = false).
Proof.
  intros Hx Hy. unfold problem. rewrite Hx, Hy. split.
  - intros Hfx Hfy. unfold mean_squared_error, broadcast. simpl.
    rewrite (F64.sub_diag tx Hfx), (F64.sub_diag ty Hfy). reflexivity.
  - intros soln v Hv. unfold mean_squared_error in Hv.
    destruct (broadcast sub soln [tx; ty]) as [diff|e]; [|discriminate Hv].
    simpl in Hv. injection Hv as <-. apply F64.not_neg_ltb.
    unfold np_mean. apply F64.div_not_neg.
    + apply np_sum_squares_not_neg.
    + apply F64.of_nat_not_neg.
Qed.

Lemma problem_optimum_witness :
  (is_finite 10 = true -> is_finite (-10) = true ->
   problem {| target_x := Some 10; target_y := Some (-10) |} [10; -10] = Ok 0) /\
  (forall soln v,
     problem {| target_x := Some 10; target_y := Some (-10) |} soln = Ok v ->
     (v <? 0) = false).
Proof.
  apply (problem_optimum {| target_x := Some 10; target_y := Some (-10) |});
    reflexivity.
Defined.

(** ** The library calls of a run

    To follow an exception through the code, the library state is extended
    by a record of the calls made so far: which call it was, and the
    exception it raised if it raised. The code is the same; only the library
    it runs with keeps the record. *)

Inductive library_call : Type := Choice | Randint | Uniform | Normal.

Abbreviation history := (list (library_call * option exn)).

(** The call [f], with how it ended added to the record. *)
Definition recorded {world A} (c : library_call) (f : M world A)
  : M (world * history) A :=
  fun wh =>
    match f wh.1 with
    | (Ok a, w') => (Ok a, (w', wh.2 ++ [(c, None)]))
    | (Raise e, w') => (Raise e, (w', wh.2 ++ [(c, Some e)]))
    end.

(** No call of the record raised. *)
Definition all_returned (h : history) : Prop :=
  Forall (fun ev => ev.2 = None) h.

(** The calls [h] of a run that ended in [r]: none raised; or the run
    raised and the last call, and only the last, raised that exception. *)
Definition ends_in {A} (h : history) (r : result A) : Prop :=
  match r with
  | Ok _ => all_returned h
  | Raise e =>
      all_returned h \/
      exists c h0, h = h0 ++ [(c, Some e)] /\ all_returned h0
  end.

(** [mt] is [m] run with the record: same outcome, same library state, and
    the calls it adds end as the run does. *)
Definition follows {world A} (mt : M (world * history) A) (m : M world A)
  : Prop :=
  forall w h, exists h',
    mt (w, h) = ((m w).1, ((m w).2, h ++ h')) /\ ends_in h' (m w).1.

(** [update_population] run with a recording library. *)
Definition update_population_recorded {world}
    (np_random_choice : nat -> nat -> M world (list nat))
    (random_randint : nat -> nat -> M world nat)
    (random_uniform : float -> float -> M world float)
    (np_random_normal : float -> float -> nat -> M world (list float))
    (uninitialised : nat -> nat -> float)
  : population -> (individual -> float) -> bool -> float -> float ->
    M (world * history) population :=
  update_population (world * history)
    (fun a size => recorded Choice (np_random_choice a size))
    (fun lo hi => recorded Randint (random_randint lo hi))
    (fun lo hi => recorded Uniform (random_uniform lo hi))
    (fun loc scale size => recorded Normal (np_random_normal loc scale size))
    uninitialised.

Lemma all_returned_app h1 h2 :
  all_returned h1 -> all_returned h2 -> all_returned (h1 ++ h2).
Proof. intros H1 H2. apply Forall_app. by split. Qed.

(** A call that raised is the last of the run, and the run raised what it
    raised. *)
Lemma raised_call_is_last {A} (h : history) (r : result A) c e :
  ends_in h r -> (c, Some e) ∈ h ->
  r = Raise e /\ exists h0, h = h0 ++ [(c, Some e)] /\ all_returned h0.
Proof.
  assert (forall h0, all_returned h0 -> (c, Some e) ∈ h0 -> False) as Hnone.
  { intros h0 H0 Hin.
    by pose proof (proj1 (Forall_forall _ _) H0 _ Hin) as Hev. }
  intros Hend Hin. destruct r as [a|e']; simpl in Hend.
  - destruct (Hnone h Hend Hin).
  - destruct Hend as [Hall|(c' & h0 & -> & H0)]; [destruct (Hnone h Hall Hin)|].
    apply elem_of_app in Hin as [Hin|Hin]; [destruct (Hnone h0 H0 Hin)|].
    apply list_elem_of_singleton in Hin. injection Hin as -> ->.
    split; [done|]. by exists h0.
Qed.

Section Recorded.
Variable world : Type.

Lemma follows_ret {A} (a : A) :
  follows (ret (world * history) a) (ret world a).
Proof.
  intros w h. exists []. unfold ret. simpl. rewrite app_nil_r.
  split; [done|]. constructor.
Qed.

Lemma follows_lift {A} (r : result A) :
  follows (lift (world * history) r) (lift world r).
Proof.
  intros w h. exists []. unfold lift. simpl. rewrite app_nil_r.
  split; [done|]. destruct r; [constructor|left; constructor].
Qed.

Lemma follows_recorded {A} c (f : M world A) : follows (recorded c f) f.
Proof.
  intros w h. unfold recorded. simpl. destruct (f w) as [[a|e] w']; simpl.
  - exists [(c, None)]. split; [done|]. by repeat constructor.
  - exists [(c, Some e)]. split; [done|]. right. exists c, [].
    split; [done|]. constructor.
Qed.

Lemma follows_bind {A B} (mt : M (world * history) A) (m : M world A)
    (kt : A -> M (world * history) B) (k : A -> M world B) :
  follows mt m -> (forall a, follows (kt a) (k a)) ->
  follows (bindM (world * history) mt kt) (bindM world m k).
Proof.
  intros Hm Hk w h. unfold bindM.
  destruct (Hm w h) as (h1 & -> & Hend1).
  destruct (m w) as [[a|e] w1]; simpl in *.
  - destruct (Hk a w1 (h ++ h1)) as (h2 & -> & Hend2).
    exists (h1 ++ h2). rewrite app_assoc. split; [done|].
    destruct (k a w1).1 as [b|e]; simpl in *.
    + by apply all_returned_app.
    + destruct Hend2 as [Hall|(c & h0 & -> & H0)].
      * left. by apply all_returned_app.
      * right. exists c, (h1 ++ h0). rewrite app_assoc.
        split; [done|]. by apply all_returned_app.
  - by exists h1.
Qed.

Lemma follows_for_range {St} (bodyt : nat -> St -> M (world * history) St)
    (body : nat -> St -> M world St) :
  (forall i s, follows (bodyt i s) (body i s)) ->
  forall count from s,
    follows (for_range (world * history) from count bodyt s)
            (for_range world from count body s).
Proof.
  intros Hbody. induction count as [|count IH]; intros from s; simpl.
  - apply follows_ret.
  - apply follows_bind; [apply Hbody|]. intros s'. apply IH.
Qed.

Variable np_random_choice : nat -> nat -> M world (list nat).
Variable random_randint : nat -> nat -> M world nat.
Variable random_uniform : float -> float -> M world float.
Variable np_random_normal : float -> float -> nat -> M world (list float).
Variable uninitialised : nat -> nat -> float.

Lemma follows_tournament pop tournament_size problem :
  follows
    (tournament_select_with_replacement (world * history)
       (fun a size => recorded Choice (np_random_choice a size))
       pop tournament_size problem)
    (tournament_select_with_replacement world np_random_choice
       pop tournament_size problem).
Proof.
  unfold tournament_select_with_replacement.
  apply follows_bind; [apply follows_recorded|]. intros indexes.
  apply follows_bind; [apply follows_lift|]. intros challengers.
  apply follows_lift.
Qed.

Lemma follows_crossover parent_a parent_b :
  follows
    (crossover (world * history)
       (fun lo hi => recorded Randint (random_randint lo hi))
       parent_a parent_b)
    (crossover world random_randint parent_a parent_b).
Proof.
  unfold crossover. cbv zeta.
  apply follows_bind; [apply follows_recorded|]. intros c.
  apply follows_bind; [apply follows_recorded|]. intros d.
  destruct (if (d <? c)%nat then (d, c) else (c, d)) as [c' d'].
  apply follows_ret.
Qed.

Lemma follows_mutate child mutation_rate mutation_scale :
  follows
    (mutate (world * history)
       (fun lo hi => recorded Uniform (random_uniform lo hi))
       (fun loc scale size =>
          recorded Normal (np_random_normal loc scale size))
       child mutation_rate mutation_scale)
    (mutate world random_uniform np_random_normal
       child mutation_rate mutation_scale).
Proof.
  unfold mutate.
  apply follows_bind; [apply follows_recorded|]. intros u.
  destruct (u <=? mutation_rate); [|apply follows_ret]. cbv zeta.
  apply follows_bind; [apply follows_recorded|]. intros mutation_value.
  apply follows_lift.
Qed.

(** [update_population] with the record ends as [update_population] does,
    and adds the calls of that run. *)
Lemma follows_update_population current_population problem should_mutate
    mutation_rate mutation_scale :
  follows
    (update_population_recorded np_random_choice random_randint
       random_uniform np_random_normal uninitialised
       current_population problem should_mutate mutation_rate mutation_scale)
    (update_population world np_random_choice random_randint random_uniform
       np_random_normal uninitialised
       current_population problem should_mutate mutation_rate mutation_scale).
Proof.
  unfold update_population_recorded, update_population. cbv zeta.
  apply follows_for_range. intros i next. unfold update_body.
  apply follows_bind; [apply follows_tournament|]. intros parent_a.
  apply follows_bind; [apply follows_tournament|]. intros parent_b.
  apply follows_bind; [apply follows_crossover|]. intros [child_a child_b].
  apply follows_bind.
  { destruct should_mutate; [apply follows_mutate|apply follows_ret]. }
  intros row_a.
  apply follows_bind; [apply follows_lift|]. intros next1.
  apply follows_bind.
  { destruct should_mutate; [apply follows_mutate|apply follows_ret]. }
  intros row_b. apply follows_lift.
Qed.

End Recorded.

End GA.

(** ** The boids flocking step ([boids/boids.ipynb]) *)

Module Boids.
Import Py.
Local Open Scope float_scope.

(** A row of an (N, 2) array. *)
Abbreviation vec := (float * float)%type.

(** The fields of a [BoidState] object. *)
Record BoidState : Type := {
  width : float;
  height : float;
  iteration : Z;
  vel : list vec;
  pos : list vec
}.

(** *** Row-wise NumPy arithmetic *)

Definition vadd (a b : vec) : vec := (a.1 + b.1, a.2 + b.2).
Definition vsub (a b : vec) : vec := (a.1 - b.1, a.2 - b.2).
(** scalar * row, row * column entry, row / column entry *)
Definition vscale (k : float) (a : vec) : vec := (k * a.1, k * a.2).
Definition vmul (a : vec) (k : float) : vec := (a.1 * k, a.2 * k).
Definition vdiv (a : vec) (k : float) : vec := (a.1 / k, a.2 / k).

(** [.sum(axis=1)] of a stack of rows (left to right from 0; the order is
    NumPy's own), and the norm of a row from its two squared columns. *)
Definition vsum (l : list vec) : vec := foldl vadd (0, 0) l.
Definition norm2 (a : vec) : float := sqrt (a.1 * a.1 + a.2 * a.2).

(** [np.subtract.outer(a, b)]. *)
Definition outer_sub (a b : list float) : list (list float) :=
  map (fun ai => map (fun bj => ai - bj) b) a.

(** The default [maxacc=0.03], as the float64 the literal denotes. *)
Definition maxacc_default : float := 0x1.eb851eb851eb8p-6.

(** [count(mask, n)]: the number of neighbours of each boid, at least 1;
    [n], the number of rows, only reshapes. *)
Definition count (mask : list (list bool)) (n : nat) : list float :=
  map (fun row =>
         F64.of_nat (Nat.max (length (filter (fun b => b = true) row)) 1))
      mask.

(** [limit_acceleration(steer, n, maxacc)]: the norms, and the rows with a
    norm above [maxacc] scaled by [maxacc/norm]. *)
Definition limit_acceleration (steer : list vec) (n : nat) (maxacc : float)
  : list float * list vec :=
  let norm := map norm2 steer in
  (norm,
   zip_with (fun s nrm => if maxacc <? nrm then vmul s (maxacc / nrm) else s)
     steer norm).

(** [np.dot(mask, rows) / count(mask, n)]. *)
Definition masked_mean (mask : list (list bool)) (rows : list vec) (n : nat)
  : list vec :=
  zip_with
    (fun m_row c =>
       vdiv (vsum (zip_with (fun m r => vscale (F64.of_bool m) r) m_row rows))
            c)
    mask (count mask n).

(** [np.divide(rows, norm, out=rows, where=norm != 0)]. *)
Definition divide_where_nonzero (rows : list vec) (norm : list float)
  : list vec :=
  zip_with (fun r nrm => if negb (nrm =? 0) then vdiv r nrm else r) rows norm.

Section Flock.
(** [np.hypot], the C library's. *)
Variable hypot : float -> float -> float.

(** [Boids.flock(min_vel, max_vel)]. Arrays of different lengths do not
    broadcast: [pos] and [vel] must have the same number of rows. *)
Definition flock (min_vel max_vel : float) (self : BoidState)
  : result BoidState :=
  let n := length (pos self) in
  if negb (length (vel self) =? n)%nat then Raise ValueError else
  let dx := outer_sub (map fst (pos self)) (map fst (pos self)) in
  let dy := outer_sub (map snd (pos self)) (map snd (pos self)) in
  let dist := zip_with (zip_with hypot) dx dy in
  let mask_1 := map (map (fun d => (0 <? d) && (d <? 25))) dist in
  let mask_2 := map (map (fun d => (0 <? d) && (d <? 50))) dist in
  let target := zip_with (zip_with pair) dx dy in
  let target :=
    zip_with (zip_with (fun t d => if negb (d =? 0) then vdiv t (d * d) else t))
      target dist in
  let steer :=
    zip_with
      (fun row c => vdiv (vsum row) c)
      (zip_with (zip_with (fun t m => vmul t (F64.of_bool m))) target mask_1)
      (count mask_1 n) in
  let norm := map norm2 steer in
  let steer :=
    zip_with vsub (map (vscale max_vel) (divide_where_nonzero steer norm))
      (vel self) in
  let '(norm, separation) := limit_acceleration steer n maxacc_default in
  let target := masked_mean mask_2 (vel self) n in
  let norm := map norm2 target in
  let target := map (vscale max_vel) (divide_where_nonzero target norm) in
  let steer := zip_with vsub target (vel self) in
  let '(norm, alignment) := limit_acceleration steer n maxacc_default in
  let target := masked_mean mask_2 (pos self) n in
  let desired := zip_with vsub target (pos self) in
  let norm := map norm2 desired in
  let desired := zip_with (fun d nrm => vmul d (max_vel / nrm)) desired norm in
  let steer := zip_with vsub desired (vel self) in
  let '(norm, cohesion) := limit_acceleration steer n maxacc_default in
  let vel :=
    zip_with vadd (vel self)
      (zip_with vadd (zip_with vadd (map (vscale 1.5) separation) alignment)
         cohesion) in
  let norm := map norm2 vel in
  let vel :=
    zip_with (fun v nrm => if max_vel <? nrm then vmul v (max_vel / nrm) else v)
      vel norm in
  let vel :=
    zip_with (fun v nrm => if nrm <? min_vel then vmul v (min_vel / nrm) else v)
      vel norm in
  let pos :=
    zip_with vadd (pos self)
      (map (fun v => vadd v (width self, height self)) vel) in
  let pos :=
    map (fun p => (F64.np_remainder p.1 (width self),
                   F64.np_remainder p.2 (height self))) pos in
  Ok {| width := width self; height := height self;
        iteration := iteration self + 1; vel := vel; pos := pos |}.

End Flock.

(** The square root of the sum of the squares: the value of [hypot] wherever
    the sum is computed exactly, as it is on the states below. *)
Definition hypot_sqrt (x y : float) : float := sqrt (x * x + y * y).

(** The claims' readings of "inside the world" and "speed within limits". *)
Definition inside_world (w h : float) (p : vec) : bool :=
  (0 <=? p.1) && (p.1 <? w) && (0 <=? p.2) && (p.2 <? h).

Definition speed_within (min_vel max_vel : float) (v : vec) : bool :=
  (min_vel <=? norm2 v) && (norm2 v <=? max_vel).

(** Three boids in a row, ten apart, all heading right. *)
Definition three_in_a_row : BoidState :=
  {| width := 400; height := 400; iteration := 0;
     vel := [(1, 0); (1, 0); (1, 0)];
     pos := [(10, 10); (20, 10); (30, 10)] |}.

(** A single boid drifting right at speed 0.105 (the float64 nearest to it),
    a hundred from the origin. *)
Definition slow_boid : BoidState :=
  {| width := 400; height := 400; iteration := 0;
     vel := [(0x1.ae147ae147ae1p-4, 0)]; pos := [(100, 0)] |}.

(** *** Shapes

    Every array of the step has one row per boid. *)

Section Shapes.
Context {A B C : Type}.

Lemma zip_with_rows (f : A -> B -> C) l k n :
  length l = n -> length k = n -> length (zip_with f l k) = n.
Proof. intros Hl Hk. rewrite length_zip_with. lia. Qed.

Lemma map_rows (f : A -> B) l n : length l = n -> length (map f l) = n.
Proof. intros Hl. by rewrite length_map. Qed.

End Shapes.

Lemma outer_sub_rows a b n : length a = n -> length (outer_sub a b) = n.
Proof. intros Ha. unfold outer_sub. by apply map_rows. Qed.

Lemma count_rows mask m n : length mask = n -> length (count mask m) = n.
Proof. intros Hm. unfold count. by apply map_rows. Qed.

Lemma limit_acceleration_rows steer m maxacc n :
  length steer = n -> length (limit_acceleration steer m maxacc).2 = n.
Proof.
  intros Hs. unfold limit_acceleration. simpl.
  apply zip_with_rows; [done|by apply map_rows].
Qed.

Lemma masked_mean_rows mask rows m n :
  length mask = n -> length (masked_mean mask rows m) = n.
Proof.
  intros Hm. unfold masked_mean. apply zip_with_rows; [done|by apply count_rows].
Qed.

Lemma divide_where_nonzero_rows rows norm n :
  length rows = n -> length norm = n ->
  length (divide_where_nonzero rows norm) = n.
Proof. intros Hr Hn. unfold divide_where_nonzero. by apply zip_with_rows. Qed.

Create HintDb shapes.
#[local] Hint Resolve zip_with_rows map_rows outer_sub_rows count_rows
  limit_acceleration_rows masked_mean_rows divide_where_nonzero_rows : shapes.

(** What C4 asks of the outcome of a step. *)
Definition single_step (self : BoidState) (N : nat) (r : result BoidState)
  : Prop :=
  exists self',
    r = Ok self' /\
    length (pos self') = N /\ length (vel self') = N /\
    width self' = width self /\ height self' = height self /\
    iteration self' = (iteration self + 1)%Z.

(** Takes the outermost array of the step into the context, with its number
    of rows, and forgets how it was computed. *)
Ltac next_array N :=
  lazymatch goal with
  | |- single_step ?s N (let x := ?v in @?body x) =>
      let x' := fresh x in
      let H := fresh "Hrows" in
      assert (length v = N) as H by eauto 10 with shapes;
      change (let x := v in single_step s N (body x));
      intros x'; cbv beta; change (length x' = N) in H; clearbody x'
  | |- single_step ?s N (let '(n, a) := limit_acceleration ?v N ?m in _) =>
      let H := fresh "Hrows" in
      assert (length (limit_acceleration v N m).2 = N) as H
        by eauto 10 with shapes;
      destruct (limit_acceleration v N m) as [? ?]; simpl snd in H
  end.

(** C4. On a state of [N] boids, [flock] returns; the new state has [N]
    positions and [N] velocities, the same [width] and [height], and an
    [iteration] one higher. *)
Theorem flock_single_step (hypot : float -> float -> float)
    (min_vel max_vel : float) (self : BoidState) (N : nat) :
  length (pos self) = N -> length (vel self) = N ->
  exists self',
    flock hypot min_vel max_vel self = Ok self' /\
    length (pos self') = N /\ length (vel self') = N /\
    width self' = width self /\ height self' = height self /\
    iteration self' = (iteration self + 1)%Z.
Proof.
  intros Hpos Hvel.
  change (single_step self N (flock hypot min_vel max_vel self)).
  cbv beta delta [flock].
  lazymatch goal with
  | |- single_step _ _ (let n := ?v in @?body n) =>
      change (single_step self N (body v)); cbv beta
  end.
  rewrite Hpos, Hvel, Nat.eqb_refl. simpl negb. cbv iota.
  repeat next_array N.
  eexists. split; [reflexivity|]. simpl. auto.
Qed.

Lemma flock_single_step_witness :
  exists self',
    flock hypot_sqrt 0.5 2 three_in_a_row = Ok self' /\
    length (pos self') = 3%nat /\ length (vel self') = 3%nat /\
    width self' = width three_in_a_row /\
    height self' = height three_in_a_row /\
    iteration self' = (iteration three_in_a_row + 1)%Z.
Proof.
  apply (flock_single_step hypot_sqrt 0.5 2 three_in_a_row 3); reflexivity.
Defined.

(** A state whose arrays differ in length is refused. *)
Example flock_shape_mismatch :
  flock hypot_sqrt 0.5 2
    {| width := 400; height := 400; iteration := 0;
       vel := [(1, 0)]; pos := [(10, 10); (20, 10)] |}
  = Raise ValueError.
Proof. reflexivity. Qed.

(** The wrap [% 400] on ordinary values, and on a negative value too small to
    show next to 400: the sum rounds to 400 itself. *)
Example np_remainder_run :
  F64.np_remainder 410.5 400 = 10.5 /\
  F64.np_remainder (-10) 400 = 390 /\
  F64.np_remainder 400 400 = 0 /\
  F64.np_remainder nan 400 = nan /\
  F64.np_remainder (-0x1p-70) 400 = 400.
Proof. repeat split; vm_compute; reflexivity. Qed.

(** The step on [three_in_a_row]: the outer boids move on; the middle one, at
    the centroid of its neighbours, comes out as [nan]. *)
Example flock_three_in_a_row :
  flock hypot_sqrt 0.5 2 three_in_a_row
  = Ok {| width := 400; height := 400; iteration := 1;
          vel := [(0x1.03d70a3d70a3dp+0, 0); (nan, nan);
                  (0x1.0b851eb851eb8p+0, 0)];
          pos := [(0x1.607ae147ae14p+3, 10); (nan, nan);
                  (0x1.f0b851eb851fp+4, 10)] |}.
Proof. vm_compute. reflexivity. Qed.

(** C8 fails on the code. The middle boid of [three_in_a_row] sits at the
    centroid of its two neighbours, so [desired] is the zero vector and
    [desired *= max_vel / norm] is 0 * inf; its position after the step is
    [nan], which is not inside the world although every position before the
    step was. *)
Theorem flock_centroid_leaves_world :
  exists self',
    flock hypot_sqrt 0.5 2 three_in_a_row = Ok self' /\
    forallb (inside_world 400 400) (pos three_in_a_row) = true /\
    pos self' !! 1%nat = Some (nan, nan) /\
    forallb (inside_world (width self') (height self')) (pos self') = false.
Proof.
  eexists. split; [vm_compute; reflexivity|].
  repeat split; vm_compute; reflexivity.
Qed.

(** C9 fails on the code. The same boid's velocity after the step is [nan],
    whose norm is in no interval. And the clamp has a gap of its own: the
    velocity of [slow_boid] is updated to exactly (0, 0) (as the step with
    [min_vel = 0] shows), and [min_vel / norm] then multiplies it by
    infinity. *)
Theorem flock_speed_not_clamped :
  (exists self',
     flock hypot_sqrt 0.5 2 three_in_a_row = Ok self' /\
     vel self' !! 1%nat = Some (nan, nan) /\
     forallb (speed_within 0.5 2) (vel self') = false) /\
  (exists self',
     flock hypot_sqrt 0 2 slow_boid = Ok self' /\ vel self' = [(0, 0)]) /\
  (exists self',
     flock hypot_sqrt 0.5 2 slow_boid = Ok self' /\
     vel self' = [(nan, nan)] /\
     forallb (speed_within 0.5 2) (vel self') = false).
Proof.
  repeat split;
    (eexists; split; [vm_compute; reflexivity|]);
    repeat split; vm_compute; reflexivity.
Qed.

(** Once one boid is [nan], the next step spreads it to every boid. *)
Example flock_nan_spreads :
  bind (flock hypot_sqrt 0.5 2 three_in_a_row) (flock hypot_sqrt 0.5 2)
  = Ok {| width := 400; height := 400; iteration := 2;
          vel := [(nan, nan); (nan, nan); (nan, nan)];
          pos := [(nan, nan); (nan, nan); (nan, nan)] |}.
Proof. vm_compute. reflexivity. Qed.

(** *** The callback and the run of the simulation *)

(** [flock] returns on a state with as many velocities as positions, and
    changes neither their number nor the world. *)
Lemma flock_returns (hypot : float -> float -> float)
    (min_vel max_vel : float) (self : BoidState) (N : nat) :
  length (pos self) = N -> length (vel self) = N ->
  single_step self N (flock hypot min_vel max_vel self).
Proof.
  intros Hpos Hvel. cbv beta delta [flock].
  lazymatch goal with
  | |- single_step _ _ (let n := ?v in @?body n) =>
      change (single_step self N (body v)); cbv beta
  end.
  rewrite Hpos, Hvel, Nat.eqb_refl. simpl negb. cbv iota.
  repeat next_array N.
  eexists. split; [reflexivity|]. simpl. auto.
Qed.

(** What [hv.VectorField] is given: position, angle and magnitude of every
    arrow, the extents, and the iteration number its label shows. *)
Record hv_VectorField : Type := {
  vf_x : list float;
  vf_y : list float;
  vf_angle : list float;
  vf_magnitude : list float;
  vf_extents : float * float * float * float;
  vf_iteration : Z
}.

Section Callback.
Variable hypot : float -> float -> float.
(** [np.arctan2], the C library's. *)
Variable arctan2 : float -> float -> float.

(** [boids_vectorfield(boids)]. *)
Definition boids_vectorfield (boids : BoidState) : hv_VectorField :=
  let angle := map (fun v => arctan2 v.2 v.1) (vel boids) in
  {| vf_x := map fst (pos boids); vf_y := map snd (pos boids);
     vf_angle := angle;
     vf_magnitude := map (fun _ => 1) (pos boids);
     vf_extents := (0, 0, 400, 400);
     vf_iteration := iteration boids |}.

(** The module-level callback [flock()]: [boids.flock()] with its defaults,
    then [return boids_vectorfield(boids)]; the state after the call and the
    element returned. *)
Definition flock_callback (boids : BoidState)
  : result (BoidState * hv_VectorField) :=
  bind (flock hypot 0.5 2 boids) (fun boids =>
  Ok (boids, boids_vectorfield boids)).

(** [k] events sent to the [DynamicMap]: the state after them and the last
    element shown, which before any event is the view of the state. *)
Fixpoint events (k : nat) (boids : BoidState)
  : result (BoidState * hv_VectorField) :=
  match k with
  | O => Ok (boids, boids_vectorfield boids)
  | S k' => bind (events k' boids) (fun '(boids, _) => flock_callback boids)
  end.

(** X14. A run of the simulation never fails and never changes the number
    of boids or the size of the world: after [k] events on a state of [N]
    boids the state has [N] positions and velocities, the iteration counter
    has advanced by [k], and the element shown has [N] arrows of magnitude 1
    and is labelled with that iteration. *)
Theorem events_keep_flock (k : nat) (boids : BoidState) (N : nat) :
  length (pos boids) = N -> length (vel boids) = N ->
  exists boids' shown,
    events k boids = Ok (boids', shown) /\
    length (pos boids') = N /\ length (vel boids') = N /\
    width boids' = width boids /\ height boids' = height boids /\
    iteration boids' = (iteration boids + Z.of_nat k)%Z /\
    shown = boids_vectorfield boids' /\
    vf_iteration shown = (iteration boids + Z.of_nat k)%Z /\
    length (vf_x shown) = N /\ length (vf_y shown) = N /\
    length (vf_angle shown) = N /\ vf_magnitude shown = replicate N 1.
Proof.
  intros Hpos Hvel.
  assert (forall b, length (pos b) = N -> length (vel b) = N ->
            length (vf_x (boids_vectorfield b)) = N /\
            length (vf_y (boids_vectorfield b)) = N /\
            length (vf_angle (boids_vectorfield b)) = N /\
            vf_magnitude (boids_vectorfield b) = replicate N 1) as Hview.
  { intros b Hp Hv. unfold boids_vectorfield. simpl.
    rewrite !length_map, <- Hp. repeat split; try done.
    - by rewrite Hp.
    - by apply Euler.map_const. }
  induction k as [|k IH].
  - exists boids, (boids_vectorfield boids). simpl. rewrite Z.add_0_r.
    repeat split; try done; by apply Hview.
  - destruct IH as (b1 & s1 & Hrun & Hp1 & Hv1 & Hw1 & Hh1 & Hi1 & _).
    cbn [events]. rewrite Hrun. cbn [bind]. unfold flock_callback.
    destruct (flock_returns hypot 0.5 2 b1 N Hp1 Hv1)
      as (b2 & -> & Hp2 & Hv2 & Hw2 & Hh2 & Hi2).
    cbn [bind]. exists b2, (boids_vectorfield b2).
    split; [done|]. split; [done|]. split; [done|].
    split; [congruence|]. split; [congruence|].
    assert (iteration b2 = (iteration boids + Z.of_nat (S k))%Z) as Hit by lia.
    split; [done|]. split; [done|]. split; [done|]. by apply Hview.
Qed.

End Callback.

Lemma events_keep_flock_witness :
  exists boids' shown,
    events hypot_sqrt (fun _ _ => 0) 2 three_in_a_row = Ok (boids', shown) /\
    length (pos boids') = 3%nat /\ length (vel boids') = 3%nat /\
    width boids' = width three_in_a_row /\
    height boids' = height three_in_a_row /\
    iteration boids' = (iteration three_in_a_row + Z.of_nat 2)%Z /\
    shown = boids_vectorfield (fun _ _ => 0) boids' /\
    vf_iteration shown = (iteration three_in_a_row + Z.of_nat 2)%Z /\
    length (vf_x shown) = 3%nat /\ length (vf_y shown) = 3%nat /\
    length (vf_angle shown) = 3%nat /\ vf_magnitude shown = replicate 3 1.
Proof.
  apply (events_keep_flock hypot_sqrt (fun _ _ => 0) 2 three_in_a_row 3);
    reflexivity.
Defined.

(** *** A [nan] spreads to the whole flock *)

(** One of the two coordinates is [nan]. *)
Definition has_nan (v : vec) : bool := is_nan v.1 || is_nan v.2.

(** Both are. *)
Definition nan2 : vec := (nan, nan).

Lemma has_nan_cases v : has_nan v = true -> v.1 = nan \/ v.2 = nan.
Proof.
  unfold has_nan. intros H. apply orb_true_iff in H as [H|H];
    apply F64.is_nan_eq in H; auto.
Qed.

Lemma has_nan_intro v : v.1 = nan \/ v.2 = nan -> has_nan v = true.
Proof. unfold has_nan. intros [-> | ->]; [done|apply orb_true_r]. Qed.

Lemma vadd_has_nan_l a b : has_nan a = true -> has_nan (vadd a b) = true.
Proof.
  intros H. apply has_nan_intro. unfold vadd. simpl.
  destruct (has_nan_cases a H) as [-> | ->];
    [left; apply F64.add_nan_l | right; apply F64.add_nan_l].
Qed.

Lemma vadd_has_nan_r a b : has_nan b = true -> has_nan (vadd a b) = true.
Proof.
  intros H. apply has_nan_intro. unfold vadd. simpl.
  destruct (has_nan_cases b H) as [-> | ->];
    [left; apply F64.add_nan_r | right; apply F64.add_nan_r].
Qed.

Lemma vsub_has_nan_l a b : has_nan a = true -> has_nan (vsub a b) = true.
Proof.
  intros H. apply has_nan_intro. unfold vsub. simpl.
  destruct (has_nan_cases a H) as [-> | ->];
    [left; apply F64.sub_nan_l | right; apply F64.sub_nan_l].
Qed.

Lemma vscale_has_nan k a : has_nan a = true -> has_nan (vscale k a) = true.
Proof.
  intros H. apply has_nan_intro. unfold vscale. simpl.
  destruct (has_nan_cases a H) as [-> | ->];
    [left; apply F64.mul_nan_r | right; apply F64.mul_nan_r].
Qed.

Lemma vdiv_has_nan a k : has_nan a = true -> has_nan (vdiv a k) = true.
Proof.
  intros H. apply has_nan_intro. unfold vdiv. simpl.
  destruct (has_nan_cases a H) as [-> | ->];
    [left; apply F64.div_nan_l | right; apply F64.div_nan_l].
Qed.

Lemma norm2_has_nan a : has_nan a = true -> norm2 a = nan.
Proof.
  intros H. unfold norm2.
  destruct (has_nan_cases a H) as [-> | ->].
  - by rewrite F64.mul_nan_l, F64.add_nan_l.
  - by rewrite F64.mul_nan_l, F64.add_nan_r.
Qed.

Lemma vmul_nan a : vmul a nan = nan2.
Proof. unfold vmul, nan2. by rewrite !F64.mul_nan_r. Qed.

Lemma vadd_nan2_r a : vadd a nan2 = nan2.
Proof. unfold vadd, nan2. simpl. by rewrite !F64.add_nan_r. Qed.

Lemma vadd_nan2_l a : vadd nan2 a = nan2.
Proof. unfold vadd, nan2. simpl. by rewrite !F64.add_nan_l. Qed.

Lemma vsub_nan2_l a : vsub nan2 a = nan2.
Proof. unfold vsub, nan2. simpl. by rewrite !F64.sub_nan_l. Qed.

(** The remainder of [nan] is [nan], whatever the modulus. *)
Lemma np_remainder_nan b : F64.np_remainder nan b = nan.
Proof.
  unfold F64.np_remainder.
  assert (F64.fmod nan b = nan) as -> by reflexivity.
  destruct (b =? 0); [done|].
  change (nan =? 0) with false. change (nan <? 0) with false. cbv iota.
  rewrite xorb_false_r. destruct (b <? 0); [apply F64.add_nan_l|done].
Qed.

(** A [nan] among the rows makes the sum [nan] in that coordinate. *)
Lemma vsum_has_nan (l : list vec) :
  Exists (fun v => has_nan v = true) l -> has_nan (vsum l) = true.
Proof.
  unfold vsum. generalize ((0, 0) : vec).
  induction l as [|v l IH]; intros acc Hex; [by apply Exists_nil in Hex|].
  simpl. apply Exists_cons in Hex as [Hv|Hex]; [|by apply IH].
  assert (forall l0 acc0, has_nan acc0 = true ->
            has_nan (foldl vadd acc0 l0) = true) as Hkeep.
  { clear. induction l0 as [|u l0 IH]; intros acc0 H; simpl; [done|].
    by apply IH, vadd_has_nan_l. }
  by apply Hkeep, vadd_has_nan_r.
Qed.

(** [np.dot(mask, rows)/count]: a [nan] row reaches every boid's mean, since
    0 * nan is [nan]. *)
Lemma masked_mean_has_nan mask rows n N i p :
  Forall (fun m_row => length m_row = N) mask -> length rows = N ->
  rows !! i = Some p -> has_nan p = true ->
  Forall (fun t => has_nan t = true) (masked_mean mask rows n).
Proof.
  intros Hmask Hrows Hi Hp. unfold masked_mean.
  apply Forall_zip_with_fst with (P := fun m_row => length m_row = N);
    [done|].
  apply Forall_forall. intros c _ m_row Hm.
  apply vdiv_has_nan, vsum_has_nan, Exists_exists.
  assert (i < N)%nat as HiN by (apply lookup_lt_Some in Hi; lia).
  destruct (lookup_lt_is_Some_2 m_row i) as [m Hmi]; [lia|].
  exists (vscale (F64.of_bool m) p). split.
  - apply (list_elem_of_lookup_2 _ i). by rewrite lookup_zip_with, Hmi, Hi.
  - by apply vscale_has_nan.
Qed.

(** The rows of the pairwise arrays have one entry per boid. *)
Lemma outer_sub_cols a b :
  Forall (fun row => length row = length b) (outer_sub a b).
Proof.
  unfold outer_sub. apply Forall_fmap, Forall_forall. intros x _. simpl.
  by rewrite length_map.
Qed.

Lemma zip_with_cols {A B C} (f : A -> B -> C) (l : list (list A))
    (k : list (list B)) N :
  Forall (fun row => length row = N) l ->
  Forall (fun row => length row = N) k ->
  Forall (fun row => length row = N) (zip_with (zip_with f) l k).
Proof.
  intros Hl. revert k. induction Hl as [|r l Hr _ IH]; intros k Hk; [done|].
  destruct Hk as [|s k Hs Hk]; [done|]. simpl. constructor; [|by apply IH].
  rewrite length_zip_with. lia.
Qed.

Lemma map_cols {A B} (f : A -> B) (l : list (list A)) N :
  Forall (fun row => length row = N) l ->
  Forall (fun row => length row = N) (map (map f) l).
Proof.
  intros Hl. apply Forall_fmap. eapply Forall_impl; [exact Hl|].
  intros row Hrow. simpl. by rewrite length_map.
Qed.

(** Scaling rows by their own norm, when every row has a [nan]. *)
Lemma scale_by_norm_nan (k : float) (l : list vec) :
  Forall (fun d => has_nan d = true) l ->
  zip_with (fun d nrm => vmul d (k / nrm)) l (map norm2 l)
  = replicate (length l) nan2.
Proof.
  intros Hl. rewrite zip_with_fmap_r, zip_with_diag.
  induction Hl as [|d l Hd _ IH]; [done|]. cbn [fmap list_fmap length replicate].
  f_equal; [|exact IH].
  by rewrite (norm2_has_nan d Hd), F64.div_nan_r, vmul_nan.
Qed.

(** Normalising rows by their own norm, when every row has a [nan]: the
    guard [norm != 0] lets them through. *)
Lemma normalise_nan (k : float) (l : list vec) :
  Forall (fun d => has_nan d = true) l ->
  map (vscale k) (divide_where_nonzero l (map norm2 l))
  = replicate (length l) nan2.
Proof.
  intros Hl. unfold divide_where_nonzero.
  rewrite zip_with_fmap_r, zip_with_diag.
  induction Hl as [|d l Hd _ IH]; [done|].
  cbn [fmap list_fmap length replicate map]. f_equal; [|exact IH].
  rewrite (norm2_has_nan d Hd). change (nan =? 0) with false. cbv iota.
  unfold vdiv, vscale. simpl. by rewrite !F64.div_nan_r, !F64.mul_nan_r.
Qed.

(** Rows that are [nan] pass every clamp unchanged. *)
Lemma limit_acceleration_nan N n maxacc :
  limit_acceleration (replicate N nan2) n maxacc
  = (replicate N nan, replicate N nan2).
Proof.
  unfold limit_acceleration. rewrite fmap_replicate.
  change (norm2 nan2) with nan. rewrite zip_with_replicate.
  by rewrite F64.ltb_nan_r.
Qed.

(** What the theorem says of the outcome of the step. *)
Definition all_nan (N : nat) (r : result BoidState) : Prop :=
  exists self',
    r = Ok self' /\
    vel self' = replicate N nan2 /\ pos self' = replicate N nan2.

(** Takes the outermost array of the step into the context under the name
    given, keeping how it was computed. *)
Tactic Notation "enter_array" ident(x') :=
  lazymatch goal with
  | |- all_nan ?N (let x := ?v in @?body x) =>
      change (let x := v in all_nan N (body x));
      intros x'; cbv beta
  end.

(** The same with its number of rows only, forgetting how it was computed;
    and for the result of [limit_acceleration]. *)
Ltac skip_array N :=
  lazymatch goal with
  | |- all_nan N (let x := ?v in @?body x) =>
      let x' := fresh x in
      let H := fresh "Hrows" in
      assert (length v = N) as H by eauto 10 with shapes;
      change (let x := v in all_nan N (body x));
      intros x'; cbv beta; change (length x' = N) in H; clearbody x'
  end.

Tactic Notation "skip_limit" constr(N) ident(limited) ident(H) :=
  lazymatch goal with
  | |- all_nan N (let '(n, a) := limit_acceleration ?v ?m ?acc in _) =>
      assert (length (limit_acceleration v m acc).2 = N) as H
        by eauto 10 with shapes;
      destruct (limit_acceleration v m acc) as [? limited]; simpl snd in H
  end.

(** X15. When a coordinate of some boid's position or velocity is [nan],
    one step makes the velocity and the position of every boid [nan],
    whatever the other boids, the speed limits and the size of the world
    are. *)
Theorem flock_nan_contagion (hypot : float -> float -> float)
    (min_vel max_vel : float) (self : BoidState) :
  length (vel self) = length (pos self) ->
  Exists (fun v => has_nan v = true) (pos self ++ vel self) ->
  exists self',
    flock hypot min_vel max_vel self = Ok self' /\
    vel self' = replicate (length (pos self)) (nan, nan) /\
    pos self' = replicate (length (pos self)) (nan, nan).
Proof.
  intros Hvel Hnan. remember (length (pos self)) as N eqn:Hpos.
  symmetry in Hpos.
  set (in_pos := Exists (fun v => has_nan v = true) (pos self)).
  set (in_vel := Exists (fun v => has_nan v = true) (vel self)).
  assert (in_pos \/ in_vel) as Hcase by (by apply Exists_app).
  clear Hnan.
  change (all_nan N (flock hypot min_vel max_vel self)).
  cbv beta delta [flock].
  lazymatch goal with
  | |- all_nan _ (let n := ?v in @?body n) =>
      change (all_nan N (body v)); cbv beta
  end.
  rewrite Hpos, Hvel, Nat.eqb_refl. simpl negb. cbv iota.
  (* the pairwise arrays and the two masks *)
  enter_array dx.
  assert (length dx = N /\ Forall (fun row => length row = N) dx) as [Hdx Hdxc].
  { subst dx. split; [apply outer_sub_rows; by rewrite length_map|].
    rewrite <- Hpos, <- (length_map fst (pos self)). apply outer_sub_cols. }
  clearbody dx.
  enter_array dy.
  assert (length dy = N /\ Forall (fun row => length row = N) dy) as [Hdy Hdyc].
  { subst dy. split; [apply outer_sub_rows; by rewrite length_map|].
    rewrite <- Hpos, <- (length_map snd (pos self)). apply outer_sub_cols. }
  clearbody dy.
  enter_array dist.
  assert (length dist = N /\ Forall (fun row => length row = N) dist)
    as [Hdist Hdistc].
  { subst dist. split; [by apply zip_with_rows|by apply zip_with_cols]. }
  clearbody dist.
  skip_array N.
  enter_array mask_2.
  assert (length mask_2 = N /\ Forall (fun row => length row = N) mask_2)
    as [Hm2 Hm2c].
  { subst mask_2. split; [by apply map_rows|by apply map_cols]. }
  clearbody mask_2.
  assert (forall rows, length rows = N ->
            Exists (fun v => has_nan v = true) rows ->
            Forall (fun t => has_nan t = true) (masked_mean mask_2 rows N))
    as Hmean.
  { intros rows Hlen Hex. apply Exists_exists in Hex as (p & Hin & Hp).
    apply list_elem_of_lookup_1 in Hin as [i Hi].
    by apply (masked_mean_has_nan _ _ _ N i p). }
  (* separation *)
  do 5 skip_array N. skip_limit N separation Hsep.
  (* alignment: [nan] when a velocity is *)
  enter_array mean_vel.
  assert (length mean_vel = N /\
          (in_vel -> Forall (fun t => has_nan t = true) mean_vel))
    as [Hmvl Hmvn].
  { subst mean_vel. split; [by apply masked_mean_rows|by apply Hmean]. }
  clearbody mean_vel.
  enter_array norm_a. enter_array heading.
  assert (length heading = N /\ (in_vel -> heading = replicate N nan2))
    as [Hhl Hhn].
  { subst heading norm_a. split; [eauto 10 with shapes|].
    intros Hv. by rewrite normalise_nan, Hmvl by auto. }
  clearbody heading. clear norm_a.
  enter_array steer_a.
  assert (length steer_a = N /\ (in_vel -> steer_a = replicate N nan2))
    as [Hsal Hsan].
  { subst steer_a. split; [by apply zip_with_rows|].
    intros Hv. rewrite (Hhn Hv), zip_with_replicate_l by lia.
    by rewrite (Euler.map_const _ nan2), Hvel by apply vsub_nan2_l. }
  clearbody steer_a.
  assert (length (limit_acceleration steer_a N maxacc_default).2 = N /\
          (in_vel -> (limit_acceleration steer_a N maxacc_default).2
                     = replicate N nan2)) as [Hali Halin].
  { split; [by apply limit_acceleration_rows|].
    intros Hv. by rewrite (Hsan Hv), limit_acceleration_nan. }
  destruct (limit_acceleration steer_a N maxacc_default) as [? alignment].
  simpl snd in Hali, Halin.
  (* cohesion: [nan] when a position is *)
  enter_array centre.
  assert (length centre = N /\
          (in_pos -> Forall (fun t => has_nan t = true) centre))
    as [Htl Htn].
  { subst centre. split; [by apply masked_mean_rows|by apply Hmean]. }
  clearbody centre.
  enter_array desired.
  assert (length desired = N /\
          (in_pos -> Forall (fun t => has_nan t = true) desired))
    as [Hdl Hdn].
  { subst desired. split; [by apply zip_with_rows|]. intros Hp.
    eapply Forall_zip_with_fst; [exact (Htn Hp)|].
    apply Forall_forall. intros q _ t Ht. by apply vsub_has_nan_l. }
  clearbody desired.
  enter_array norm_d. enter_array scaled.
  assert (length scaled = N /\ (in_pos -> scaled = replicate N nan2))
    as [Hscl Hscn].
  { subst scaled norm_d. split; [eauto 10 with shapes|].
    intros Hp. by rewrite scale_by_norm_nan, Hdl by auto. }
  clearbody scaled. clear norm_d.
  enter_array steer_c.
  assert (length steer_c = N /\ (in_pos -> steer_c = replicate N nan2))
    as [Hscl' Hscn'].
  { subst steer_c. split; [by apply zip_with_rows|].
    intros Hp. rewrite (Hscn Hp), zip_with_replicate_l by lia.
    by rewrite (Euler.map_const _ nan2), Hvel by apply vsub_nan2_l. }
  clearbody steer_c.
  assert (length (limit_acceleration steer_c N maxacc_default).2 = N /\
          (in_pos -> (limit_acceleration steer_c N maxacc_default).2
                     = replicate N nan2)) as [Hcoh Hcohn].
  { split; [by apply limit_acceleration_rows|].
    intros Hp. by rewrite (Hscn' Hp), limit_acceleration_nan. }
  destruct (limit_acceleration steer_c N maxacc_default) as [? cohesion].
  simpl snd in Hcoh, Hcohn.
  (* the new velocities and positions *)
  enter_array vel_a.
  assert (vel_a = replicate N nan2) as ->.
  { subst vel_a.
    assert (zip_with vadd
              (zip_with vadd (map (vscale 1.5) separation) alignment) cohesion
            = replicate N nan2) as ->.
    { destruct Hcase as [Hp|Hv].
      - rewrite (Hcohn Hp).
        rewrite (zip_with_replicate_r_eq _ N nan2)
          by (rewrite length_zip_with, length_map; lia).
        rewrite (Euler.map_const _ nan2) by (intros; apply vadd_nan2_r).
        by rewrite length_zip_with, length_map, Nat.min_l, Hsep by lia.
      - rewrite (Halin Hv).
        rewrite (zip_with_replicate_r_eq _ N nan2)
          by (rewrite length_map; lia).
        rewrite (Euler.map_const _ nan2) by (intros; apply vadd_nan2_r).
        rewrite length_map, Hsep, zip_with_replicate_l by lia.
        by rewrite (Euler.map_const _ nan2), Hcoh by apply vadd_nan2_l. }
    rewrite (zip_with_replicate_r_eq _ _ nan2) by lia.
    by rewrite (Euler.map_const _ nan2), Hvel by (intros; apply vadd_nan2_r). }
  enter_array norm_v.
  assert (norm_v = replicate N nan) as ->.
  { subst norm_v. by rewrite fmap_replicate. }
  enter_array vel_b.
  assert (vel_b = replicate N nan2) as ->.
  { subst vel_b. rewrite zip_with_replicate. by rewrite F64.ltb_nan_r. }
  enter_array vel_c.
  assert (vel_c = replicate N nan2) as ->.
  { subst vel_c. rewrite zip_with_replicate. by rewrite F64.ltb_nan_l. }
  enter_array pos_a.
  assert (pos_a = replicate N nan2) as ->.
  { subst pos_a. rewrite fmap_replicate.
    rewrite (zip_with_replicate_r_eq _ _ _ _ Hpos).
    rewrite vadd_nan2_l.
    by rewrite (Euler.map_const _ nan2), Hpos by (intros; apply vadd_nan2_r). }
  enter_array pos_b.
  assert (pos_b = replicate N nan2) as ->.
  { subst pos_b. rewrite fmap_replicate. simpl.
    by rewrite !np_remainder_nan. }
  eexists. split; [reflexivity|]. by split.
Qed.

(** The centroid case of [three_in_a_row] after its first step. *)
Lemma flock_nan_contagion_witness :
  exists self',
    flock hypot_sqrt 0.5 2
      {| width := 400; height := 400; iteration := 1;
         vel := [(1, 0); (nan, nan); (1, 0)];
         pos := [(11, 10); (nan, nan); (31, 10)] |} = Ok self' /\
    vel self' = replicate 3 (nan, nan) /\
    pos self' = replicate 3 (nan, nan).
Proof.
  apply (flock_nan_contagion hypot_sqrt 0.5 2
           {| width := 400; height := 400; iteration := 1;
              vel := [(1, 0); (nan, nan); (1, 0)];
              pos := [(11, 10); (nan, nan); (31, 10)] |}).
  - reflexivity.
  - apply Exists_cons_tl, Exists_cons_hd. reflexivity.
Defined.

End Boids.

(** ** Exceptions in the notebooks

    The notebooks call the libraries directly. Two places are embedded here:
    the cell that loads the penguins table, and the converter [parse_type]
    of the Landsat metadata loader ([heat_and_trees/]), the one function
    with a [try] statement. *)

Module Notebooks.
Import Py.

(** What [eval] can return for a metadata value. *)
Inductive pyobject : Type :=
| PyStr (s : string)
| PyInt (z : Z)
| PyFloat (f : float).

Section LoadPenguins.
Variables filesystem dataframe : Type.
(** [pd.read_csv(path)] against the files that are there. *)
Variable pd_read_csv : string -> filesystem -> result dataframe.

(** The cell [penguins = pd.read_csv('penguins.csv')] / [penguins]: the
    notebook's names after the cell, and the value it shows. *)
Definition load_penguins (fs : filesystem) (names : gmap string dataframe)
  : gmap string dataframe * result dataframe :=
  match pd_read_csv "penguins.csv" fs with
  | Ok df => (<["penguins" := df]> names, Ok df)
  | Raise e => (names, Raise e)
  end.

End LoadPenguins.

Section ParseType.
(** Python's [eval]. *)
Variable py_eval : string -> result pyobject.

(** [parse_type(x)] in [load_google_landsat_metadata]:
    [try: return eval(x)] / [except: return x]. *)
Definition parse_type (x : string) : result pyobject :=
  match py_eval x with
  | Ok v => Ok v
  | Raise _ => Ok (PyStr x)
  end.

End ParseType.

(** A stand-in for [eval]: a decimal literal is an integer, any other text
    an undefined name. *)
Definition toy_eval (x : string) : result pyobject :=
  match DecimalString.NilEmpty.uint_of_string x with
  | Some n => Ok (PyInt (Z.of_uint n))
  | None => Raise NameError
  end.

(** A stand-in for [read_csv]: the file system is the list of the paths
    present, and a table is the path it was read from. *)
Definition toy_read_csv (path : string) (fs : list string) : result string :=
  if decide (path ∈ fs) then Ok path else Raise FileNotFoundError.

(** [f] lets every exception of the call it wraps through. *)
Definition propagates {A B} (lib : A -> result B) (f : A -> result B) : Prop :=
  forall x e, lib x = Raise e -> f x = Raise e.



(** The cell without and with the file. A tournament over no individuals
    fails in the draw. A negative mutation scale is refused by the draw of
    the mutation values, and a population of 3-vectors does not fit the
    (pop_size, 2) array; either [ValueError] comes out of [next_generation]
    with the object untouched. *)
Example exceptions_run :
  load_penguins (list string) string toy_read_csv [] ∅
  = (∅, Raise FileNotFoundError) /\
  load_penguins (list string) string toy_read_csv ["penguins.csv"] ∅
  = ({["penguins" := "penguins.csv"]}, Ok "penguins.csv") /\
  GA.tournament_select_with_replacement nat GA.toy_choice [] 2
    GA.sphere_problem 0%nat = (Raise ValueError, 0%nat) /\
  (let self := {| GA.ga_problem := GA.sphere_problem;
                  GA.current_population := GA.toy_population;
                  GA.current_best := [0.25; 0.5]%float |} in
   (GA.next_generation nat GA.toy_choice GA.toy_randint GA.toy_uniform
      GA.toy_normal GA.toy_uninitialised self 1 (-1) true 0%nat).1
   = (self, Raise ValueError)) /\
  (let self := {| GA.ga_problem := GA.sphere_problem;
                  GA.current_population := [[1; 2; 3]; [4; 5; 6]]%float;
                  GA.current_best := [1; 2; 3]%float |} in
   (GA.next_generation nat GA.toy_choice GA.toy_randint GA.toy_uniform
      GA.toy_normal GA.toy_uninitialised self 0.5 1 true 0%nat).1
   = (self, Raise ValueError)).
Proof. repeat split; vm_compute; reflexivity. Qed.

(** The calls of two runs with a negative scale. At rate 1 the first child
    is mutated and the sixth call raises; at rate 0.5, from another state of
    the generator, the first child is passed over and the draw for the
    second raises. Nothing is called after it. *)
Example exceptions_recorded_run :
  GA.update_population_recorded GA.toy_choice GA.toy_randint GA.toy_uniform
    GA.toy_normal GA.toy_uninitialised GA.toy_population GA.sphere_problem
    true 1 (-1) (0%nat, [])
  = (Raise ValueError,
     (7%nat,
      [(GA.Choice, None); (GA.Choice, None); (GA.Randint, None);
       (GA.Randint, None); (GA.Uniform, None);
       (GA.Normal, Some ValueError)])) /\
  GA.update_population_recorded GA.toy_choice GA.toy_randint GA.toy_uniform
    GA.toy_normal GA.toy_uninitialised GA.toy_population GA.sphere_problem
    true 0.5 (-1) (1%nat, [])
  = (Raise ValueError,
     (9%nat,
      [(GA.Choice, None); (GA.Choice, None); (GA.Randint, None);
       (GA.Randint, None); (GA.Uniform, None); (GA.Uniform, None);
       (GA.Normal, Some ValueError)])).
Proof. split; vm_compute; reflexivity. Qed.

End Notebooks.
